(** * JOB_SERVER: the job-import pipeline, embedded and verified

    The development follows the repository's layout:

    - [Js]        the fragment of JavaScript values and string operations the
                  services rely on (truthiness, property lookup, [String(x)],
                  [toLowerCase], [trim], [substring]);
    - [Fetcher]   [src/services/jobFetcher.service.js]: [extractJobs],
                  [normalizeJob], [normalizeJobType];
    - [Model]     [src/models/Job.model.js]: the Job schema, its validators and
                  the unique indexes of the collection;
    - [Processor] [src/services/jobProcessor.service.js]: [processJob] and
                  [batchProcessJobs];
    - [JobQueue]  [src/queues/jobQueue.js]: [addBulkJobsToQueue];
    - [Logger]    [src/services/importLogger.service.js];
    - [Double]    the real value of a double, for the success rate;
    - [Pipeline]  the two entry points [startImport] (controller) and
                  [automatedImport] (server).

    Strings are sequences of UTF-16 code units; the development works with the
    code units below 256, so that a Rocq [ascii] is one code unit. *)

From Stdlib Require Import String Ascii List ZArith Lia Bool Arith PeanoNat.
From Stdlib Require Import Floats Uint63 NArith DecimalString.
From Stdlib Require Import Reals Lra Psatz.
From Stdlib Require Import Sorting Permutation.
Import ListNotations.
Open Scope string_scope.


Set Warnings "-register-all".

(* ===================================================================== *)
(** * JavaScript values *)
(* ===================================================================== *)

Module Js.

(** ** Strings *)

Fixpoint smap (f : ascii -> ascii) (s : string) : string :=
  match s with
  | EmptyString => EmptyString
  | String c r => String (f c) (smap f r)
  end.

Definition code (c : ascii) : nat := nat_of_ascii c.

Definition between (lo hi : nat) (c : ascii) : bool :=
  Nat.leb lo (code c) && Nat.leb (code c) hi.

Definition is_upper (c : ascii) : bool := between 65 90 c.
Definition is_lower (c : ascii) : bool := between 97 122 c.
Definition is_digit (c : ascii) : bool := between 48 57 c.

(** [/[a-zA-Z0-9]/] *)
Definition is_alnum (c : ascii) : bool := is_lower c || is_upper c || is_digit c.

(** One code unit of [String.prototype.toLowerCase]: the ASCII capitals and
    the Latin-1 capitals U+00C0..U+00DE (U+00D7, the multiplication sign, has
    no case). *)
Definition lower_char (c : ascii) : ascii :=
  if is_upper c then ascii_of_nat (code c + 32)
  else if between 192 222 c && negb (Nat.eqb (code c) 215) then ascii_of_nat (code c + 32)
  else c.

Definition toLowerCase (s : string) : string := smap lower_char s.

(** White space and line terminators of ECMAScript below U+0100: TAB, LF, VT,
    FF, CR, SP and NBSP. *)
Definition is_space (c : ascii) : bool :=
  between 9 13 c || Nat.eqb (code c) 32 || Nat.eqb (code c) 160.

Fixpoint trimStart (s : string) : string :=
  match s with
  | EmptyString => EmptyString
  | String c r => if is_space c then trimStart r else s
  end.

Fixpoint trimEnd (s : string) : string :=
  match s with
  | EmptyString => EmptyString
  | String c r =>
      match trimEnd r with
      | EmptyString => if is_space c then EmptyString else String c EmptyString
      | r' => String c r'
      end
  end.

Definition trim (s : string) : string := trimEnd (trimStart s).

(** [s.substring(0, n)] *)
Definition substring0 (n : N) (s : string) : string :=
  substring 0 (N.to_nat n) s.

(** [s.replace(/[^a-zA-Z0-9]/g, '-')] *)
Definition dash_char (c : ascii) : ascii := if is_alnum c then c else "-"%char.
Definition replaceNonAlnum (s : string) : string := smap dash_char s.

(** Every code unit of [s] satisfies [p]. *)
Fixpoint allb (p : ascii -> bool) (s : string) : bool :=
  match s with
  | EmptyString => true
  | String c r => p c && allb p r
  end.

Definition notUpper (c : ascii) : bool := negb (is_upper c).

Fixpoint join (sep : string) (l : list string) : string :=
  match l with
  | [] => ""
  | [x] => x
  | x :: r => x ++ sep ++ join sep r
  end.

(** ** Values *)

(** Values of parsed feed data. A number is kept as the decimal text
    [Number::toString] gives for it (["0"] for both zeros, ["NaN"]): the
    services never compute with a feed number, they test and print it. An
    array is an object: besides its elements it can own named properties. *)
Inductive JsVal : Type :=
| JUndefined
| JNull
| JBool (b : bool)
| JNum (repr : string)
| JStr (s : string)
| JObj (props : list (string * JsVal))
| JArr (elems : list JsVal) (props : list (string * JsVal)).

(** What a property access evaluates to: a data value that the object owns
    ([Own JUndefined] when there is none), or a member that it inherits from a
    built-in prototype, named by its key. *)
Inductive Looked : Type :=
| Own (v : JsVal)
| Proto (name : string).

Fixpoint assoc {A : Type} (k : string) (l : list (string * A)) : option A :=
  match l with
  | [] => None
  | (k', v) :: r => if String.eqb k k' then Some v else assoc k r
  end.

Definition mem (k : string) (l : list string) : bool :=
  existsb (String.eqb k) l.

(** The properties of [Object.prototype]. *)
Definition objectProto : list string :=
  [ "constructor"; "__defineGetter__"; "__defineSetter__"; "hasOwnProperty";
    "__lookupGetter__"; "__lookupSetter__"; "isPrototypeOf";
    "propertyIsEnumerable"; "toString"; "valueOf"; "__proto__";
    "toLocaleString" ].

(** Among the keys the services probe on a raw item, [String.prototype]
    defines one: the legacy HTML method [link]. *)
Definition stringProto : list string := [ "link" ].

Definition inherited (chain : list string) (k : string) : Looked :=
  if mem k chain then Proto k else Own JUndefined.

Definition own_or (props : list (string * JsVal)) (chain : list string)
    (k : string) : Looked :=
  match assoc k props with
  | Some v => Own v
  | None => inherited chain k
  end.

(** [v[k]]; [None] is the [TypeError] of reading a property of [undefined] or
    [null]. Index keys and [length] are never probed by the services. *)
Definition get (v : JsVal) (k : string) : option Looked :=
  match v with
  | JUndefined | JNull => None
  | JBool _ | JNum _ => Some (inherited objectProto k)
  | JStr _ => Some (inherited (stringProto ++ objectProto)%list k)
  | JObj props => Some (own_or props objectProto k)
  | JArr _ props => Some (own_or props objectProto k)
  end.

Definition truthyVal (v : JsVal) : bool :=
  match v with
  | JUndefined | JNull => false
  | JBool b => b
  | JNum r => negb (String.eqb r "0") && negb (String.eqb r "NaN")
  | JStr s => negb (String.eqb s "")
  | JObj _ | JArr _ _ => true
  end.

Definition truthy (x : Looked) : bool :=
  match x with
  | Own v => truthyVal v
  | Proto _ => true
  end.

(** [a || b] *)
Definition or_else (a b : Looked) : Looked := if truthy a then a else b.

(** [x.k] for an already evaluated [x]; a built-in member owns none of the
    probed keys. *)
Definition lget (x : Looked) (k : string) : option Looked :=
  match x with
  | Own v => get v k
  | Proto _ => Some (Own JUndefined)
  end.

Definition isArray (v : JsVal) : bool :=
  match v with JArr _ _ => true | _ => false end.

Definition has_own (k : string) (props : list (string * JsVal)) : bool :=
  match assoc k props with Some _ => true | None => false end.

Fixpoint sequence {A : Type} (l : list (option A)) : option (list A) :=
  match l with
  | [] => Some []
  | None :: _ => None
  | Some x :: r =>
      match sequence r with
      | Some r' => Some (x :: r')
      | None => None
      end
  end.

(** [String(v)], which is also the conversion of a template literal. Feed data
    holds no callable value, so an object that owns a property named
    [toString] has no usable conversion and [String] throws ([None]);
    otherwise [Object.prototype.toString] and [Array.prototype.toString]
    apply. *)
Fixpoint toStringVal (v : JsVal) : option string :=
  match v with
  | JUndefined => Some "undefined"
  | JNull => Some "null"
  | JBool true => Some "true"
  | JBool false => Some "false"
  | JNum r => Some r
  | JStr s => Some s
  | JObj props =>
      if has_own "toString" props then None else Some "[object Object]"
  | JArr elems props =>
      if has_own "toString" props then None
      else if has_own "join" props then Some "[object Array]"
      else
        let elem (e : JsVal) : option string :=
          match e with
          | JUndefined | JNull => Some ""
          | _ => toStringVal e
          end in
        match sequence (map elem elems) with
        | Some parts => Some (join "," parts)
        | None => None
        end
  end.

Definition toString (x : Looked) : option string :=
  match x with
  | Own v => toStringVal v
  | Proto name => Some ("function " ++ name ++ "() { [native code] }")
  end.

End Js.

(* ===================================================================== *)
(** * src/services/jobFetcher.service.js *)
(* ===================================================================== *)

Module Fetcher.
Import Js.

(** The canonical record [normalizeJob] returns. [type] is whatever
    [normalizeJobType] evaluates to. *)
Record NormalizedJob : Type := mkNormalizedJob {
  externalId : string;
  title : string;
  company : string;
  category : string;
  type : Looked;
  location : string;
  description : string;
  url : string;
  postedAt : Z;
  updatedAt : Z
}.

(** The object literal [typeMap] of [normalizeJobType]. *)
Definition typeMap : list (string * JsVal) :=
  [ ("full-time", JStr "Full-time");
    ("fulltime", JStr "Full-time");
    ("full time", JStr "Full-time");
    ("part-time", JStr "Part-time");
    ("parttime", JStr "Part-time");
    ("part time", JStr "Part-time");
    ("contract", JStr "Contract");
    ("contractor", JStr "Contract");
    ("freelance", JStr "Freelance");
    ("remote", JStr "Remote");
    ("temporary", JStr "Contract") ].

(** [normalizeJobType(type)]: [typeMap[normalized] || 'Other'], where
    [typeMap] is a plain object and the lookup follows its prototype chain. *)
Definition normalizeJobType (type : string) : Looked :=
  let normalized := trim (toLowerCase type) in
  or_else (own_or typeMap objectProto normalized) (Own (JStr "Other")).

(** [job.k1 || job.k2 || ...]: the first truthy property, [Some None] when
    every one is falsy, [None] when reading a property of [job] throws. *)
Fixpoint probe (job : JsVal) (keys : list string) : option (option Looked) :=
  match keys with
  | [] => Some None
  | k :: ks =>
      match get job k with
      | None => None
      | Some x => if truthy x then Some (Some x) else probe job ks
      end
  end.

(** [job.k1 || job.k2 || ... || dflt] *)
Definition chain (job : JsVal) (keys : list string) (dflt : Looked)
    : option Looked :=
  match probe job keys with
  | None => None
  | Some None => Some dflt
  | Some (Some x) => Some x
  end.

Definition bind {A B : Type} (m : option A) (f : A -> option B) : option B :=
  match m with
  | Some a => f a
  | None => None
  end.

Notation "x <- m ;; k" := (bind m (fun x => k))
  (at level 61, m at next level, right associativity).

(** The aliases [normalizeJob] tries for each field, in order. *)
Definition titleKeys : list string := ["title"; "jobTitle"; "position"; "#text"].
Definition companyKeys : list string :=
  ["company"; "companyName"; "employer"; "organization"].
Definition descriptionKeys : list string :=
  ["description"; "summary"; "content"; "content:encoded"].
Definition urlKeys : list string := ["link"; "url"; "apply_url"; "guid"].
Definition locationKeys : list string :=
  ["location"; "jobLocation"; "city"; "country"].
Definition categoryKeys : list string :=
  ["category"; "jobCategory"; "department"; "sector"].
Definition typeKeys : list string := ["type"; "jobType"; "employmentType"].
Definition idKeys : list string := ["id"; "guid"; "@_id"].
Definition dateKeys : list string :=
  ["pubDate"; "published"; "date"; "postedDate"].

Section Normalize.

(** [Date.parse] on a string and the time value of a number (given by its
    text); [None] is [NaN]. [now] is the clock read by [new Date()]. *)
Variable parseDate : string -> option Z.
Variable timeOfNumber : string -> option Z.
Variable now : Z.

(** [new Date(x).getTime()]: the outer [None] is a [TypeError] thrown by the
    conversion of [x] to a primitive, the inner one is [NaN]. *)
Definition newDate (x : Looked) : option (option Z) :=
  match x with
  | Own JUndefined => Some None
  | Own JNull => Some (Some 0%Z)
  | Own (JBool b) => Some (Some (if b then 1%Z else 0%Z))
  | Own (JNum r) => Some (timeOfNumber r)
  | Own (JStr s) => Some (parseDate s)
  | _ => s <- toString x ;; Some (parseDate s)
  end.

(** [normalizeJob(job, sourceUrl)]; [None] when an exception leaves it. *)
Definition normalizeJob (job : JsVal) (sourceUrl : string)
    : option NormalizedJob :=
  title <- chain job titleKeys (Own (JStr "Untitled Position")) ;;
  company <- chain job companyKeys (Own (JStr "Unknown Company")) ;;
  description <- chain job descriptionKeys (Own (JStr "")) ;;
  url <- chain job urlKeys (Own (JStr sourceUrl)) ;;
  location <- chain job locationKeys (Own (JStr "Remote")) ;;
  category <- chain job categoryKeys (Own (JStr "General")) ;;
  type <- chain job typeKeys (Own (JStr "Other")) ;;
  explicitId <- probe job idKeys ;;
  externalId <-
    match explicitId with
    | Some x => Some x
    | None =>
        t <- toString title ;;
        c <- toString company ;;
        Some (Own (JStr (toLowerCase
                (replaceNonAlnum (sourceUrl ++ "-" ++ t ++ "-" ++ c)))))
    end ;;
  dateStr <- probe job dateKeys ;;
  postedAt <-
    match dateStr with
    | None => Some now
    | Some d =>
        parsedDate <- newDate d ;;
        match parsedDate with
        | Some t => Some t
        | None => Some now
        end
    end ;;
  (* only a string has a [substring] method *)
  externalId' <- match externalId with
                 | Own (JStr s) => Some (substring0 200%N s)
                 | _ => None
                 end ;;
  title' <- toString title ;;
  company' <- toString company ;;
  category' <- toString category ;;
  type' <- toString type ;;
  location' <- toString location ;;
  description' <- toString description ;;
  url' <- toString url ;;
  Some {| externalId := externalId';
          title := substring0 200%N title';
          company := substring0 200%N company';
          category := substring0 100%N category';
          type := normalizeJobType type';
          location := substring0 200%N location';
          description := substring0 5000%N description';
          url := substring0 500%N url';
          postedAt := postedAt;
          updatedAt := now |}.

(** [a.k1 && a.k1.k2 && ...] for an already evaluated [a]. *)
Fixpoint andPath (a : Looked) (keys : list string) : option Looked :=
  match keys with
  | [] => Some a
  | k :: ks =>
      x <- lget a k ;;
      if truthy x then andPath x ks else Some x
  end.

(** [Array.isArray(x) ? x : [x]]. None of the keys on the paths below is
    inherited, so a path never evaluates to a built-in member. *)
Definition asArray (x : Looked) : list JsVal :=
  match x with
  | Own (JArr elems _) => elems
  | Own v => [v]
  | Proto _ => []
  end.

(** The local [jobs] of [extractJobs] when [logger.info] is reached. *)
Definition selectJobs (parsedData : JsVal) : option (list JsVal) :=
  rssItem <- andPath (Own parsedData) ["rss"; "channel"; "item"] ;;
  if truthy rssItem then Some (asArray rssItem) else
  feedEntry <- andPath (Own parsedData) ["feed"; "entry"] ;;
  if truthy feedEntry then Some (asArray feedEntry) else
  jobsJob <- andPath (Own parsedData) ["jobs"; "job"] ;;
  if truthy jobsJob then Some (asArray jobsJob) else
  job <- andPath (Own parsedData) ["job"] ;;
  if truthy job then Some (asArray job) else
  if isArray parsedData then Some (asArray (Own parsedData)) else
  Some [].

(** [extractJobs(parsedData, sourceUrl)]: the [catch] turns every exception,
    of the shape tests and of [normalizeJob] alike, into the empty array. *)
Definition extractJobs (parsedData : JsVal) (sourceUrl : string)
    : list NormalizedJob :=
  match selectJobs parsedData with
  | None => []
  | Some jobs =>
      match sequence (map (fun job => normalizeJob job sourceUrl) jobs) with
      | Some normalized => normalized
      | None => []
      end
  end.

End Normalize.

(** The synthesized identity in the words of the design: built from the
    source URL, the title and the company, every character that is not
    alphanumeric replaced by the separator, lower-cased, and cut at the bound
    of the schema. *)
Definition synthesizedId (sourceUrl title company : string) : string :=
  substring0 200%N
    (toLowerCase (replaceNonAlnum (sourceUrl ++ "-" ++ title ++ "-" ++ company))).

(** A raw item is plain when none of its properties holds a nested object
    or array. *)
Definition primitive (v : JsVal) : bool :=
  match v with
  | JObj _ | JArr _ _ => false
  | _ => true
  end.

Definition plain (props : list (string * JsVal)) : bool :=
  forallb (fun kv => primitive (snd kv)) props.

(** A looked-up value that [String] and [Date] convert without throwing. *)
Definition simple (x : Looked) : Prop :=
  match x with
  | Own v => primitive v = true
  | Proto _ => True
  end.

(** An item as an RSS feed carries it, without [id] or [guid]. *)
Definition sampleItem : JsVal :=
  JObj [("title", JStr "Senior Engineer (Remote)");
        ("company", JStr "Acme & Co.");
        ("pubDate", JStr "Mon, 02 Nov 2026 10:00:00 GMT")].

(** ** The extraction contract in the words of the design

    The recognised shapes in priority order, each with the path that holds
    its repeating item. *)
Inductive Shape : Type := RssChannelItem | FeedEntry | JobsJob | BareJob.

Definition shapePath (s : Shape) : list string :=
  match s with
  | RssChannelItem => ["rss"; "channel"; "item"]
  | FeedEntry => ["feed"; "entry"]
  | JobsJob => ["jobs"; "job"]
  | BareJob => ["job"]
  end.

Definition shapePriority : list Shape :=
  [RssChannelItem; FeedEntry; JobsJob; BareJob].

(** The value on a path of own properties, [JUndefined] as soon as a step is
    missing or goes through a falsy value. *)
Fixpoint valueAt (v : JsVal) (path : list string) : JsVal :=
  match path with
  | [] => v
  | k :: ks =>
      match v with
      | JObj props | JArr _ props =>
          match assoc k props with
          | Some x => if truthyVal x then valueAt x ks else JUndefined
          | None => JUndefined
          end
      | _ => JUndefined
      end
  end.

Definition matchesShape (doc : JsVal) (s : Shape) : bool :=
  truthyVal (valueAt doc (shapePath s)).

Definition itemsOf (v : JsVal) : list JsVal :=
  match v with
  | JArr elems _ => elems
  | _ => [v]
  end.

(** The keys that no built-in prototype defines: a lookup of one finds an own
    property or nothing. *)
Definition ownKey (k : string) : bool :=
  negb (mem k (stringProto ++ objectProto)%list).

Definition nullish (v : JsVal) : bool :=
  match v with
  | JUndefined | JNull => true
  | _ => false
  end.

(** A document that is an array of three elements and also owns an
    [rss.channel.item] with one item. *)
Definition rssAndArray : JsVal :=
  JArr [JObj [("title", JStr "a")]; JObj [("title", JStr "b")];
        JObj [("title", JStr "c")]]
       [("rss", JObj [("channel",
                       JObj [("item", JObj [("title", JStr "from the channel")])])])].

(** First matching shape wins; then a top-level array; else no item. *)
Definition specItems (doc : JsVal) : list JsVal :=
  match find (matchesShape doc) shapePriority with
  | Some s => itemsOf (valueAt doc (shapePath s))
  | None =>
      match doc with
      | JArr elems _ => elems
      | _ => []
      end
  end.

End Fetcher.

(* ===================================================================== *)
(** * src/models/Job.model.js *)
(* ===================================================================== *)

(** The [jobData] object handed to the processor: a queue payload, in which
    every property may be absent. The schema casts each path to its type, so a
    present property is taken at that type. *)
Module JobData.
Record t : Type := mk {
  externalId : option string;
  title : option string;
  company : option string;
  category : option string;
  type : option string;
  location : option string;
  description : option string;
  url : option string;
  postedAt : option Z;
  updatedAt : option Z
}.
End JobData.

Module Model.

(** A document of the [Job] collection. *)
Record Job : Type := mkJob {
  externalId : string;
  title : string;
  company : string;
  category : string;
  type : string;
  location : string;
  description : string;
  url : string;
  postedAt : Z;
  updatedAt : Z;
  createdAt : Z
}.

(** What [save] and [processJob] throw; the outcome carries it as
    [error.message]. *)
Inductive Error : Type :=
| Thrown (message : string)
| ValidationError (paths : list string)
| DuplicateKey (index : string)
| DocumentNotFound.

Definition jobTypes : list string :=
  ["Full-time"; "Part-time"; "Contract"; "Freelance"; "Remote"; "Other"].

Definition orDefault {A : Type} (o : option A) (d : A) : A :=
  match o with
  | Some a => a
  | None => d
  end.

(** [new Job(jobData)] with the defaults of the schema. A required path that
    is absent and one that holds the empty string fail the same validator, so
    the draft keeps an absent required path as the empty string. *)
Definition newJob (jobData : JobData.t) (now : Z) : Job :=
  {| externalId := orDefault (JobData.externalId jobData) "";
     title := orDefault (JobData.title jobData) "";
     company := orDefault (JobData.company jobData) "";
     category := orDefault (JobData.category jobData) "General";
     type := orDefault (JobData.type jobData) "Other";
     location := orDefault (JobData.location jobData) "Remote";
     description := orDefault (JobData.description jobData) "";
     url := orDefault (JobData.url jobData) "";
     postedAt := orDefault (JobData.postedAt jobData) now;
     updatedAt := now;
     createdAt := now |}.

(** [Object.assign(existingJob, { ...jobData, updatedAt: new Date() })]: the
    properties [jobData] has are copied over, the others are left alone. *)
Definition assign (existingJob : Job) (jobData : JobData.t) (now : Z) : Job :=
  {| externalId := orDefault (JobData.externalId jobData) (externalId existingJob);
     title := orDefault (JobData.title jobData) (title existingJob);
     company := orDefault (JobData.company jobData) (company existingJob);
     category := orDefault (JobData.category jobData) (category existingJob);
     type := orDefault (JobData.type jobData) (type existingJob);
     location := orDefault (JobData.location jobData) (location existingJob);
     description := orDefault (JobData.description jobData) (description existingJob);
     url := orDefault (JobData.url jobData) (url existingJob);
     postedAt := orDefault (JobData.postedAt jobData) (postedAt existingJob);
     updatedAt := now;
     createdAt := createdAt existingJob |}.

Definition isEmpty (s : string) : bool := String.eqb s "".

(** The validators of the schema: [required: true] on five paths and the
    [enum] of [type]. A [save] runs them on the paths of a new document and
    on the paths of a loaded one alike, modified or not; the result lists the
    paths that fail. *)
Definition validate (doc : Job) : list string :=
  ((if isEmpty (externalId doc) then ["externalId"] else []) ++
   (if isEmpty (title doc) then ["title"] else []) ++
   (if isEmpty (company doc) then ["company"] else []) ++
   (if negb (Js.mem (type doc) jobTypes) then ["type"] else []) ++
   (if isEmpty (description doc) then ["description"] else []) ++
   (if isEmpty (url doc) then ["url"] else []))%list.

(** The collection in natural order. The pipeline never deletes a job, so the
    position of a document identifies it as its [_id] does. *)
Definition Collection : Type := list Job.

Definition matches (externalId' url' : string) (doc : Job) : bool :=
  String.eqb (externalId doc) externalId' || String.eqb (url doc) url'.

(** [Job.findOne({ $or: [{ externalId }, { url }] })] *)
Fixpoint findOneFrom (i : nat) (externalId' url' : string) (coll : Collection)
    : option (nat * Job) :=
  match coll with
  | [] => None
  | doc :: rest =>
      if matches externalId' url' doc then Some (i, doc)
      else findOneFrom (S i) externalId' url' rest
  end.

Definition findOne := findOneFrom 0.

Fixpoint setAt {A : Type} (i : nat) (x : A) (l : list A) : list A :=
  match l, i with
  | [], _ => []
  | _ :: r, O => x :: r
  | y :: r, S j => y :: setAt j x r
  end.

(** Position [i] is the one of the document being written. *)
Definition selfIs (self : option nat) (i : nat) : bool :=
  match self with
  | Some j => Nat.eqb i j
  | None => false
  end.

(** The unique indexes [externalId_1] and [url_1]: the index that a document
    written at position [self] (none for an insert) would violate. *)
Fixpoint violatedFrom (i : nat) (self : option nat) (doc : Job)
    (coll : Collection) : option string :=
  match coll with
  | [] => None
  | other :: rest =>
      let skip := selfIs self i in
      if negb skip && String.eqb (externalId other) (externalId doc)
      then Some "externalId_1"
      else if negb skip && String.eqb (url other) (url doc)
      then Some "url_1"
      else violatedFrom (S i) self doc rest
  end.

Definition violated := violatedFrom 0.

(** [newJob.save()] on a new document. *)
Definition saveNew (doc : Job) (coll : Collection) : Error + Collection :=
  match validate doc with
  | [] =>
      match violated None doc coll with
      | Some index => inl (DuplicateKey index)
      | None => inr (coll ++ [doc])%list
      end
  | paths => inl (ValidationError paths)
  end.

Definition pick {A : Type} (same : A -> A -> bool) (loaded edited stored : A) : A :=
  if same edited loaded then stored else edited.

(** The [$set] a [save] of a loaded document sends: the paths whose value
    differs from the loaded one, applied to the document as stored now. *)
Definition applyChanges (loaded edited stored : Job) : Job :=
  {| externalId := pick String.eqb (externalId loaded) (externalId edited) (externalId stored);
     title := pick String.eqb (title loaded) (title edited) (title stored);
     company := pick String.eqb (company loaded) (company edited) (company stored);
     category := pick String.eqb (category loaded) (category edited) (category stored);
     type := pick String.eqb (type loaded) (type edited) (type stored);
     location := pick String.eqb (location loaded) (location edited) (location stored);
     description := pick String.eqb (description loaded) (description edited) (description stored);
     url := pick String.eqb (url loaded) (url edited) (url stored);
     postedAt := pick Z.eqb (postedAt loaded) (postedAt edited) (postedAt stored);
     updatedAt := pick Z.eqb (updatedAt loaded) (updatedAt edited) (updatedAt stored);
     createdAt := createdAt stored |}.

(** [existingJob.save()] on the document loaded from position [i] and edited
    in memory since. *)
Definition saveExisting (i : nat) (loaded edited : Job) (coll : Collection)
    : Error + Collection :=
  match validate edited with
  | [] =>
      match nth_error coll i with
      | None => inl DocumentNotFound
      | Some stored =>
          let doc := applyChanges loaded edited stored in
          match violated (Some i) doc coll with
          | Some index => inl (DuplicateKey index)
          | None => inr (setAt i doc coll)
          end
      end
  | paths => inl (ValidationError paths)
  end.

End Model.

(* ===================================================================== *)
(** * src/services/jobProcessor.service.js *)
(* ===================================================================== *)

Module Processor.
Import Model.

(** The object [processJob] resolves to. *)
Record Result : Type := mkResult {
  success : bool;
  action : string;
  job : option Job;
  error : option Error;
  jobData : option JobData.t
}.

Definition resultCreated (newJob : Job) : Result :=
  {| success := true; action := "created"; job := Some newJob;
     error := None; jobData := None |}.

Definition resultUpdated (existingJob : Job) : Result :=
  {| success := true; action := "updated"; job := Some existingJob;
     error := None; jobData := None |}.

Definition resultFailed (e : Error) (jobData : JobData.t) : Result :=
  {| success := false; action := "failed"; job := None;
     error := Some e; jobData := Some jobData |}.

(** [!jobData.k]: absent or the empty string. *)
Definition falsy (field : option string) : bool :=
  match field with
  | Some s => isEmpty s
  | None => true
  end.

Definition missingRequired (jobData : JobData.t) : bool :=
  falsy (JobData.externalId jobData) || falsy (JobData.title jobData) ||
  falsy (JobData.company jobData) || falsy (JobData.url jobData).

Definition missingRequiredError : Error :=
  Thrown "Missing required fields: externalId, title, company, or url".

(** [processJob] after [await Job.findOne(...)]: the branch on
    [existingJob], the [save] and the [catch]. [now] is the clock when the
    branch runs. *)
Definition savePhase (now : Z) (jobData : JobData.t)
    (existingJob : option (nat * Job)) (coll : Collection)
    : Result * Collection :=
  match existingJob with
  | Some (i, loaded) =>
      let edited := assign loaded jobData now in
      match saveExisting i loaded edited coll with
      | inr coll' => (resultUpdated edited, coll')
      | inl e => (resultFailed e jobData, coll)
      end
  | None =>
      let newJob := newJob jobData now in
      match saveNew newJob coll with
      | inr coll' => (resultCreated newJob, coll')
      | inl e => (resultFailed e jobData, coll)
      end
  end.

(** [processJob(jobData)] run without interruption: what it resolves to and
    the collection it leaves. *)
Definition processJob (now : Z) (jobData : JobData.t) (coll : Collection)
    : Result * Collection :=
  if missingRequired jobData then (resultFailed missingRequiredError jobData, coll)
  else
    let existingJob := findOne (orDefault (JobData.externalId jobData) "")
                               (orDefault (JobData.url jobData) "") coll in
    savePhase now jobData existingJob coll.

(** ** [batchProcessJobs] *)

(** An entry of [stats.errors]: the message of an error, or one of the two
    fallback texts. *)
Inductive Reason : Type :=
| Message (e : Error)
| UnknownError
| ProcessingFailed.

Record Stats : Type := mkStats {
  total : nat;
  created : nat;
  updated : nat;
  failed : nat;
  errors : list Reason
}.

(** An element of what [Promise.allSettled] resolves to. *)
Inductive SettledResult : Type :=
| Fulfilled (value : Result)
| Rejected (reason : option Error).

(** The errors of the store carry a text; a thrown [Error] carries the one it
    was made with. *)
Definition emptyMessage (e : Error) : bool :=
  match e with
  | Thrown message => isEmpty message
  | _ => false
  end.

(** [message || dflt] *)
Definition messageOr (e : option Error) (dflt : Reason) : Reason :=
  match e with
  | Some e' => if emptyMessage e' then dflt else Message e'
  | None => dflt
  end.

(** One round of the [forEach] over the settled results. *)
Definition tally (stats : Stats) (result : SettledResult) : Stats :=
  match result with
  | Fulfilled value =>
      if success value then
        if String.eqb (action value) "created" then
          {| total := total stats;
             created := S (created stats);
             updated := updated stats;
             failed := failed stats;
             errors := errors stats |}
        else if String.eqb (action value) "updated" then
          {| total := total stats;
             created := created stats;
             updated := S (updated stats);
             failed := failed stats;
             errors := errors stats |}
        else stats
      else
        {| total := total stats;
           created := created stats;
           updated := updated stats;
           failed := S (failed stats);
           errors := (errors stats ++ [messageOr (error value) UnknownError])%list |}
  | Rejected reason =>
      {| total := total stats;
         created := created stats;
         updated := updated stats;
         failed := S (failed stats);
         errors := (errors stats ++ [messageOr reason ProcessingFailed])%list |}
  end.

Definition initialStats (n : nat) : Stats :=
  {| total := n; created := 0; updated := 0; failed := 0;
     errors := [] |}.

Definition summarize (n : nat) (results : list SettledResult) : Stats :=
  fold_left tally results (initialStats n).

(** A call of [processJob] between its two [await]s. *)
Inductive Task : Type :=
| Pending (jobData : JobData.t)
| Loaded (jobData : JobData.t) (existingJob : option (nat * Job))
| Settled (result : Result).

(** [processJob] up to the resolution of [await Job.findOne(...)]. *)
Definition lookupPhase (jobData : JobData.t) (coll : Collection) : Task :=
  if missingRequired jobData then Settled (resultFailed missingRequiredError jobData)
  else Loaded jobData
         (findOne (orDefault (JobData.externalId jobData) "")
                  (orDefault (JobData.url jobData) "") coll).

(** [jobs.map(job => this.processJob(job))] starts every call at once; the
    calls then advance one database operation at a time, in whatever order
    the operations are served. A state of the batch is the collection and
    the task of each call. *)
Definition BatchState : Type := (Collection * list Task)%type.

(** Task [i] performs its next database operation at time [now]. *)
Definition advance (now : Z) (task : Task) (coll : Collection)
    : Task * Collection :=
  match task with
  | Pending jobData => (lookupPhase jobData coll, coll)
  | Loaded jobData existingJob =>
      let (result, coll') := savePhase now jobData existingJob coll in
      (Settled result, coll')
  | Settled _ => (task, coll)
  end.

Definition step (event : nat * Z) (st : BatchState) : BatchState :=
  let (i, now) := event in
  let (coll, tasks) := st in
  match nth_error tasks i with
  | None => st
  | Some task =>
      let (task', coll') := advance now task coll in
      (coll', setAt i task' tasks)
  end.

(** A schedule lists, in order, which task is served and when. *)
Definition Schedule : Type := list (nat * Z).

Definition run (schedule : Schedule) (st : BatchState) : BatchState :=
  fold_left (fun st event => step event st) schedule st.

Definition settledResult (task : Task) : option SettledResult :=
  match task with
  | Settled result => Some (Fulfilled result)
  | _ => None
  end.

(** [batchProcessJobs(jobs)] under a schedule: the stats it resolves to and
    the collection it leaves, or [None] while a call is still pending. *)
Definition batchProcessJobs (schedule : Schedule) (jobs : list JobData.t)
    (coll : Collection) : option (Stats * Collection) :=
  let (coll', tasks) := run schedule (coll, map Pending jobs) in
  match Js.sequence (map settledResult tasks) with
  | Some results => Some (summarize (length jobs) results, coll')
  | None => None
  end.

(** The schedule that serves every lookup, then every write, in call order. *)
Definition inOrder (now : Z) (n : nat) : Schedule :=
  (map (fun i => (i, now)) (seq 0 n) ++ map (fun i => (i, now)) (seq 0 n))%list.

(** A schedule serves a batch of [n] calls to the end when each call is
    served at least twice. *)
Definition servedTwice (n : nat) (schedule : Schedule) : Prop :=
  forall i, i < n -> 2 <= count_occ Nat.eq_dec (map fst schedule) i.

(** ** Vocabulary of the properties *)

(** A candidate the schema accepts as a new job: the four identity fields, a
    description, and a type that is absent or one of the enum. *)
Definition acceptable (jobData : JobData.t) : bool :=
  negb (missingRequired jobData) &&
  negb (falsy (JobData.description jobData)) &&
  match JobData.type jobData with
  | Some t => Js.mem t jobTypes
  | None => true
  end.

Definition carried {A : Type} (field : option A) (stored : A) : Prop :=
  match field with
  | Some v => stored = v
  | None => True
  end.

(** The document holds every field the candidate carries. *)
Definition holds (doc : Job) (jobData : JobData.t) : Prop :=
  carried (JobData.externalId jobData) (externalId doc) /\
  carried (JobData.title jobData) (title doc) /\
  carried (JobData.company jobData) (company doc) /\
  carried (JobData.category jobData) (category doc) /\
  carried (JobData.type jobData) (type doc) /\
  carried (JobData.location jobData) (location doc) /\
  carried (JobData.description jobData) (description doc) /\
  carried (JobData.url jobData) (url doc) /\
  carried (JobData.postedAt jobData) (postedAt doc).

(** The two identity keys of a candidate that has them. *)
Definition keyId (jobData : JobData.t) : string :=
  orDefault (JobData.externalId jobData) "".
Definition keyUrl (jobData : JobData.t) : string :=
  orDefault (JobData.url jobData) "".

(** The unique indexes hold in the collection. *)
Definition uniqueKeys (coll : Collection) : Prop :=
  forall i j a b,
    nth_error coll i = Some a -> nth_error coll j = Some b ->
    externalId a = externalId b \/ url a = url b -> i = j.

(** Every stored job has a type of the enum, as writes through the schema
    leave it. *)
Definition enumTypes (coll : Collection) : Prop :=
  forall i d, nth_error coll i = Some d -> Js.mem (type d) jobTypes = true.

(** How far a call has come. *)
Definition rank (t : Task) : nat :=
  match t with
  | Pending _ => 0
  | Loaded _ _ => 1
  | Settled _ => 2
  end.

(** Every candidate of the batch but the one at [bad] is acceptable, and no
    two of them share an externalId or a url. *)
Definition othersAcceptable (bad : nat) (jobs : list JobData.t) : Prop :=
  forall i c, i <> bad -> nth_error jobs i = Some c -> acceptable c = true.

Definition othersDistinct (bad : nat) (jobs : list JobData.t) : Prop :=
  forall i j ci cj,
    i <> bad -> j <> bad -> i <> j ->
    nth_error jobs i = Some ci -> nth_error jobs j = Some cj ->
    keyId ci <> keyId cj /\ keyUrl ci <> keyUrl cj.

(** The two conditions as checks on a given batch. *)
Definition othersAcceptableb (bad : nat) (jobs : list JobData.t) : bool :=
  forallb (fun i =>
             Nat.eqb i bad ||
             match nth_error jobs i with
             | Some c => acceptable c
             | None => true
             end)
          (seq 0 (length jobs)).

Definition keysApart (a b : option JobData.t) : bool :=
  match a, b with
  | Some x, Some y =>
      negb (String.eqb (keyId x) (keyId y)) &&
      negb (String.eqb (keyUrl x) (keyUrl y))
  | _, _ => true
  end.

Definition othersDistinctb (bad : nat) (jobs : list JobData.t) : bool :=
  forallb (fun i =>
             forallb (fun j =>
                        Nat.eqb i bad || Nat.eqb j bad || Nat.eqb i j ||
                        keysApart (nth_error jobs i) (nth_error jobs j))
                     (seq 0 (length jobs)))
          (seq 0 (length jobs)).

(** A stored record that has one key of such a candidate has both: it is an
    earlier version of that job. *)
Definition coupled (bad : nat) (jobs : list JobData.t) (coll : Collection)
    : Prop :=
  forall i c q d,
    i <> bad -> nth_error jobs i = Some c -> nth_error coll q = Some d ->
    (externalId d = keyId c <-> url d = keyUrl c).

(** The state of the call for an acceptable candidate [c] agrees with the
    collection. *)
Definition goodTask (c : JobData.t) (coll : Collection) (t : Task) : Prop :=
  match t with
  | Pending jobData => jobData = c
  | Loaded jobData None =>
      jobData = c /\
      forall q d, nth_error coll q = Some d ->
                  externalId d <> keyId c /\ url d <> keyUrl c
  | Loaded jobData (Some (p, loaded)) =>
      jobData = c /\ nth_error coll p = Some loaded /\
      externalId loaded = keyId c /\ url loaded = keyUrl c
  | Settled r =>
      success r = true /\ (action r = "created" \/ action r = "updated") /\
      exists p d, nth_error coll p = Some d /\ holds d c /\
                  externalId d = keyId c /\ url d = keyUrl c
  end.

(** The state of the call for the candidate that misses a required field. *)
Definition badTask (b : JobData.t) (t : Task) : Prop :=
  t = Pending b \/ t = Settled (resultFailed missingRequiredError b).

Definition batchInvariant (bad : nat) (jobs : list JobData.t)
    (st : BatchState) : Prop :=
  length (snd st) = length jobs /\
  uniqueKeys (fst st) /\
  enumTypes (fst st) /\
  coupled bad jobs (fst st) /\
  forall i c t,
    nth_error jobs i = Some c -> nth_error (snd st) i = Some t ->
    if Nat.eqb i bad then badTask c t else goodTask c (fst st) t.

(** The outcome is one of the three structured ones. *)
Definition structured (r : Result) : Prop :=
  (success r = true /\ (action r = "created" \/ action r = "updated")) \/
  (success r = false /\ action r = "failed").

(** What the advance of the call for candidate [c] can do to the collection:
    nothing, insert a record with the keys of [c], or replace a record that
    has these keys by another that has them. *)
Inductive Change (c : JobData.t) (coll : Collection) : Collection -> Prop :=
| Unchanged : Change c coll coll
| Inserted (x : Job) :
    externalId x = keyId c -> url x = keyUrl c ->
    (forall q d, nth_error coll q = Some d ->
                 externalId d <> keyId c /\ url d <> keyUrl c) ->
    Change c coll (coll ++ [x])%list
| Replaced (p : nat) (old x : Job) :
    nth_error coll p = Some old ->
    externalId old = keyId c -> url old = keyUrl c ->
    externalId x = keyId c -> url x = keyUrl c ->
    Change c coll (setAt p x coll).

(** A settled result that counts as a success; the text a failure adds to
    [stats.errors]. *)
Definition isSuccess (r : SettledResult) : bool :=
  match r with
  | Fulfilled value => success value
  | Rejected _ => false
  end.

Definition isFailure (r : SettledResult) : bool := negb (isSuccess r).

Definition reasonOf (r : SettledResult) : Reason :=
  match r with
  | Fulfilled value => messageOr (error value) UnknownError
  | Rejected reason => messageOr reason ProcessingFailed
  end.

Definition rankAt (tasks : list Task) (i : nat) : nat :=
  match nth_error tasks i with
  | Some t => rank t
  | None => 2
  end.

(** The calls a tally has counted. *)
Definition counted (stats : Stats) : nat :=
  created stats + updated stats + failed stats.

Definition structuredResult (r : SettledResult) : Prop :=
  match r with
  | Fulfilled value => structured value
  | Rejected _ => True
  end.

(** Every settled call of a run holds a structured outcome. *)
Definition allStructured (tasks : list Task) : Prop :=
  forall i value, nth_error tasks i = Some (Settled value) -> structured value.

End Processor.

(* ===================================================================== *)
(** * src/queues/jobQueue.js *)
(* ===================================================================== *)

Module JobQueue.

(** An entry of the ['job-processing'] queue. *)
Record QueueJob : Type := mkQueueJob {
  name : string;
  jobData : Fetcher.NormalizedJob;
  importLogId : string;
  jobId : string
}.

Definition Queue : Type := list QueueJob.

(** The [bulkJobs] array of [addBulkJobsToQueue]. *)
Definition bulkJobs (jobs : list Fetcher.NormalizedJob) (importLogId : string)
    : list QueueJob :=
  map (fun jobData =>
         {| name := "process-job";
            jobData := jobData;
            importLogId := importLogId;
            jobId := importLogId ++ "-" ++ Fetcher.externalId jobData |})
      jobs.

Definition hasJobId (id : string) (queue : Queue) : bool :=
  existsb (fun j => String.eqb (jobId j) id) queue.

(** [jobQueue.addBulk]: the broker keeps one job per custom [jobId]; adding
    under an id it already holds adds nothing. *)
Definition add (queue : Queue) (j : QueueJob) : Queue :=
  if hasJobId (jobId j) queue then queue else (queue ++ [j])%list.

Definition addBulk (bulk : list QueueJob) (queue : Queue) : Queue :=
  fold_left add bulk queue.

(** [addBulkJobsToQueue(jobs, importLogId)]: when the broker fails, with
    message [brokerError], [addBulk] throws and the error is thrown on;
    otherwise one queue job per element of [jobs] is returned. *)
Definition addBulkJobsToQueue (brokerError : option string)
    (jobs : list Fetcher.NormalizedJob) (importLogId : string) (queue : Queue)
    : string + (list QueueJob * Queue) :=
  let bulk := bulkJobs jobs importLogId in
  match brokerError with
  | None => inr (bulk, addBulk bulk queue)
  | Some message => inl message
  end.

End JobQueue.

(* ===================================================================== *)
(** * src/services/importLogger.service.js *)
(* ===================================================================== *)

Module Logger.

(** A document of the [ImportLog] collection, with the defaults of its
    schema. *)
Record ImportLog : Type := mkImportLog {
  fileName : string;
  timestamp : Z;
  totalFetched : nat;
  newJobs : nat;
  updatedJobs : nat;
  failedJobs : nat;
  failedReasons : list string;
  duration : Z;
  status : string
}.

Definition Logs : Type := list ImportLog.

(** The message of the validation error for a log without [fileName]. *)
Definition fileNameRequired : string :=
  "ImportLog validation failed: fileName: Path `fileName` is required.".

(** [createImportLog(fileName)]: the new document and its [_id], which is
    its position in the collection. The schema requires [fileName], and the
    empty text fails that validator: [save] throws and nothing is stored. *)
Definition createImportLog (fileName : string) (now : Z) (logs : Logs)
    : string + (nat * Logs) :=
  if String.eqb fileName "" then inl fileNameRequired
  else
    inr (length logs,
         (logs ++ [ {| fileName := fileName; timestamp := now; totalFetched := 0;
                       newJobs := 0; updatedJobs := 0; failedJobs := 0;
                       failedReasons := []; duration := 0;
                       status := "in-progress" |} ])%list).

(** The [stats] argument of [updateImportLog]. *)
Record StatsArg : Type := mkStatsArg {
  s_totalFetched : option nat;
  s_newJobs : option nat;
  s_created : option nat;
  s_updatedJobs : option nat;
  s_updated : option nat;
  s_failedJobs : option nat;
  s_failed : option nat;
  s_failedReasons : option (list string);
  s_errors : option (list string);
  s_duration : option Z;
  s_status : option string
}.

(** [a || b] on numbers that may be absent. *)
Definition orNat (a : option nat) (b : nat) : nat :=
  match a with
  | Some (S n) => S n
  | _ => b
  end.

Definition orZ (a : option Z) (b : Z) : Z :=
  match a with
  | Some z => if Z.eqb z 0 then b else z
  | None => b
  end.

Definition orList (a : option (list string)) (b : list string) : list string :=
  match a with
  | Some l => l
  | None => b
  end.

Definition orString (a : option string) (b : string) : string :=
  match a with
  | Some s => if String.eqb s "" then b else s
  | None => b
  end.

(** [updateImportLog(logId, stats)]; the error is the one thrown when no log
    has that id, [idText] being the text of the id. *)
Definition updateImportLog (idText : string) (logId : nat) (stats : StatsArg)
    (logs : Logs) : string + Logs :=
  match nth_error logs logId with
  | None => inl ("Import log " ++ idText ++ " not found")
  | Some importLog =>
      inr (Model.setAt logId
             {| fileName := fileName importLog;
                timestamp := timestamp importLog;
                totalFetched := orNat (s_totalFetched stats) 0;
                newJobs := orNat (s_newJobs stats) (orNat (s_created stats) 0);
                updatedJobs := orNat (s_updatedJobs stats) (orNat (s_updated stats) 0);
                failedJobs := orNat (s_failedJobs stats) (orNat (s_failed stats) 0);
                failedReasons :=
                  orList (s_failedReasons stats) (orList (s_errors stats) []);
                duration := orZ (s_duration stats) 0;
                status := orString (s_status stats) "completed" |}
             logs)
  end.

(** [markImportFailed(logId, reason, duration)] *)
Definition markImportFailed (logId : nat) (reason : string) (duration' : Z)
    (logs : Logs) : Logs :=
  match nth_error logs logId with
  | None => logs
  | Some importLog =>
      Model.setAt logId
        {| fileName := fileName importLog;
           timestamp := timestamp importLog;
           totalFetched := totalFetched importLog;
           newJobs := newJobs importLog;
           updatedJobs := updatedJobs importLog;
           failedJobs := failedJobs importLog;
           failedReasons := [reason];
           duration := duration';
           status := "failed" |}
        logs
  end.

(** ** [calculateSuccessRate] *)

(** Numbers are IEEE 754 doubles. *)
Definition number (n : nat) : float := PrimFloat.of_uint63 (Uint63.of_Z (Z.of_nat n)).

(** The integer [n] of [Number.prototype.toFixed] for two fraction digits and
    the magnitude [m * 2^e]: the one for which [n / 100] is nearest, the
    larger of two. *)
Definition nearestHundredths (m : positive) (e : Z) : Z :=
  match e with
  | Zneg k => (200 * Zpos m + 2 ^ Zpos k) / 2 ^ (Zpos k + 1)
  | _ => 100 * Zpos m * 2 ^ e
  end.

(** At least three digits, so that one stands before the point. *)
Definition padLeft3 (s : string) : string :=
  match String.length s with
  | 0 => "000"
  | 1 => "00" ++ s
  | 2 => "0" ++ s
  | _ => s
  end.

(** The digits of [n] with the point before the last two. *)
Definition fixed2 (n : Z) : string :=
  let digits := padLeft3 (NilZero.string_of_uint (N.to_uint (Z.to_N n))) in
  let whole := String.length digits - 2 in
  substring 0 whole digits ++ "." ++ substring whole 2 digits.

(** [x.toFixed(2)], for the magnitudes below [10^21] that it prints in
    fixed notation. *)
Definition toFixed2 (x : float) : string :=
  match Prim2SF x with
  | S754_nan => "NaN"
  | S754_infinity false => "Infinity"
  | S754_infinity true => "-Infinity"
  | S754_zero _ => "0.00"
  | S754_finite s m e =>
      (if s then "-" else "") ++ fixed2 (nearestHundredths m e)
  end.

(** What [calculateSuccessRate] resolves to: the text [toFixed] returns, or
    the number [0]. *)
Inductive Rate : Type :=
| RateText (s : string)
| RateNumber (z : Z).

(** The expression of [calculateSuccessRate] on the two counts. *)
Definition successRate (completed total : nat) : Rate :=
  if Nat.ltb 0 total
  then RateText (toFixed2 (number completed / number total * 100)%float)
  else RateNumber 0.

Definition countCompleted (logs : Logs) : nat :=
  length (filter (fun l => String.eqb (status l) "completed") logs).

Definition calculateSuccessRate (logs : Logs) : Rate :=
  successRate (countCompleted logs) (length logs).

End Logger.

(* ===================================================================== *)
(** * The value of a double *)
(* ===================================================================== *)

Module Double.

(** The real number of the positive finite double with significand [M] and
    exponent [E]. *)
Definition value (M : positive) (E : Z) : R :=
  (IZR (Zpos M) * powerRZ 2 E)%R.

(** [2^-52]: rounding to a nearest double moves a value by at most this
    fraction of it. *)
Definition ulp52 : R := (/ 4503599627370496)%R.



End Double.

(* ===================================================================== *)
(** * The entry points: [startImport] and [automatedImport] *)
(* ===================================================================== *)

Module Pipeline.
Import Logger.

(** What the process does to the outside, in the order it does it. *)
Inductive Event : Type :=
| EvCreateImportLog (fileName : string)
| EvFetch (urls : list string)
| EvAddBulk (importLogId : string) (n : nat)
| EvUpdateImportLog (logId : nat) (stats : StatsArg)
| EvMarkImportFailed (logId : nat) (reason : string)
| EvRespond (code : nat).

Record World : Type := mkWorld {
  logs : Logs;
  queue : JobQueue.Queue;
  trace : list Event;
  clock : Z
}.

(** What is outside the program: the feeds (for a URL, the parsed document
    or the message of the failure), the broker, the dates, the text of the
    id of the n-th import log, the variable [JOB_FEED_URLS] and the time an
    operation takes. *)
Record Env : Type := mkEnv {
  feed : string -> string + Js.JsVal;
  brokerError : option string;
  parseDate : string -> option Z;
  timeOfNumber : string -> option Z;
  objectId : nat -> string;
  JOB_FEED_URLS : option string;
  latency : Z
}.

(** A run ends by returning, by throwing, or because the process dies:
    [fuel] counts the operations it still lives for. *)
Inductive Run (A : Type) : Type :=
| Returned (a : A) (fuel : nat) (w : World)
| Threw (message : string) (fuel : nat) (w : World)
| Crashed (w : World).

Arguments Returned {A} a fuel w.
Arguments Crashed {A} w.
Arguments Threw {A} message fuel w.

Definition M (A : Type) : Type := nat -> World -> Run A.

Definition ret {A : Type} (a : A) : M A := fun fuel w => Returned a fuel w.

Definition bind {A B : Type} (m : M A) (k : A -> M B) : M B :=
  fun fuel w =>
    match m fuel w with
    | Returned a fuel' w' => k a fuel' w'
    | Threw e fuel' w' => Threw e fuel' w'
    | Crashed w' => Crashed w'
    end.

Notation "x <- m ;; k" := (bind m (fun x => k))
  (at level 61, m at next level, right associativity).
Notation "m ;;; k" := (bind m (fun _ => k))
  (at level 61, right associativity).

(** [try { body } catch (error) { handler }] *)
Definition tryCatch {A : Type} (body : M A) (handler : string -> M A) : M A :=
  fun fuel w =>
    match body fuel w with
    | Threw e fuel' w' => handler e fuel' w'
    | r => r
    end.

(** [let x = null; try { x = await first; body } catch (error) { handler }]:
    the handler finds [x] set when [first] returned and [null] when it
    threw. *)
Definition tryAssigning {A B : Type} (first : M A) (body : A -> M B)
    (handler : option A -> string -> M B) : M B :=
  fun fuel w =>
    match first fuel w with
    | Returned a fuel' w' => tryCatch (body a) (handler (Some a)) fuel' w'
    | Threw e fuel' w' => handler None e fuel' w'
    | Crashed w' => Crashed w'
    end.

(** One operation on the outside: it is recorded, takes its time, and
    returns or throws. A dead process does nothing. *)
Definition effect {A : Type} (lat : Z) (ev : Event)
    (act : World -> (string + A) * World) : M A :=
  fun fuel w =>
    match fuel with
    | O => Crashed w
    | S fuel' =>
        let w1 := {| logs := logs w; queue := queue w;
                     trace := (trace w ++ [ev])%list;
                     clock := (clock w + lat)%Z |} in
        match act w1 with
        | (inr a, w2) => Returned a fuel' w2
        | (inl e, w2) => Threw e fuel' w2
        end
    end.

(** [Date.now()] *)
Definition dateNow : M Z := fun fuel w => Returned (clock w) fuel w.

Definition withLogs (w : World) (l : Logs) : World :=
  {| logs := l; queue := queue w; trace := trace w; clock := clock w |}.

Definition withQueue (w : World) (q : JobQueue.Queue) : World :=
  {| logs := logs w; queue := q; trace := trace w; clock := clock w |}.

Section Program.
Variable env : Env.

Definition createImportLog (fileName : string) : M nat :=
  effect (latency env) (EvCreateImportLog fileName)
    (fun w =>
       match Logger.createImportLog fileName (clock w) (logs w) with
       | inr (id, logs') => (inr id, withLogs w logs')
       | inl e => (inl e, w)
       end).

Definition updateImportLog (logId : nat) (stats : StatsArg) : M unit :=
  effect (latency env) (EvUpdateImportLog logId stats)
    (fun w =>
       match Logger.updateImportLog (objectId env logId) logId stats (logs w) with
       | inr logs' => (inr tt, withLogs w logs')
       | inl e => (inl e, w)
       end).

Definition markImportFailed (logId : nat) (reason : string) (duration : Z)
    : M unit :=
  effect (latency env) (EvMarkImportFailed logId reason)
    (fun w => (inr tt, withLogs w (Logger.markImportFailed logId reason duration (logs w)))).

Definition addBulkJobsToQueue (jobs : list Fetcher.NormalizedJob)
    (importLogId : string) : M (list JobQueue.QueueJob) :=
  effect (latency env) (EvAddBulk importLogId (length jobs))
    (fun w =>
       match JobQueue.addBulkJobsToQueue (brokerError env) jobs importLogId (queue w) with
       | inr (added, queue') => (inr added, withQueue w queue')
       | inl e => (inl e, w)
       end).

Definition respond (code : nat) : M unit :=
  effect 0%Z (EvRespond code) (fun w => (inr tt, w)).

(** An element of [errors] in [fetchFromMultipleURLs]. *)
Record FetchError : Type := mkFetchError {
  fe_url : string;
  fe_error : option string
}.

(** The [forEach] of [fetchFromMultipleURLs] over the results of
    [fetchFromURL], which never throws. *)
Fixpoint collect (now : Z) (urls : list string)
    : list Fetcher.NormalizedJob * list FetchError :=
  match urls with
  | [] => ([], [])
  | url :: rest =>
      let (allJobs, errors) := collect now rest in
      match feed env url with
      | inr data =>
          if Js.truthyVal data
          then ((Fetcher.extractJobs (parseDate env) (timeOfNumber env) now data url
                 ++ allJobs)%list, errors)
          else (allJobs, {| fe_url := url; fe_error := None |} :: errors)
      | inl message =>
          (allJobs, {| fe_url := url; fe_error := Some message |} :: errors)
      end
  end.

Definition fetchFromMultipleURLs (urls : list string)
    : M (list Fetcher.NormalizedJob * list FetchError) :=
  effect (latency env) (EvFetch urls) (fun w => (inr (collect (clock w) urls), w)).

(** [errors.map(e => e.error)] as the texts the log stores. *)
Definition reasons (errors : list FetchError) : list string :=
  map (fun e => Model.orDefault (fe_error e) "") errors.

Definition noJobsStats (errors : list FetchError) (duration : Z) : StatsArg :=
  {| s_totalFetched := Some 0; s_newJobs := Some 0; s_created := None;
     s_updatedJobs := Some 0; s_updated := None;
     s_failedJobs := Some 0; s_failed := None;
     s_failedReasons := Some (reasons errors); s_errors := None;
     s_duration := Some duration;
     s_status := Some (if Nat.ltb 0 (length errors) then "failed" else "completed") |}.

Definition queuedStats (n : nat) (duration : Z) : StatsArg :=
  {| s_totalFetched := Some n; s_newJobs := None; s_created := None;
     s_updatedJobs := None; s_updated := None;
     s_failedJobs := None; s_failed := None;
     s_failedReasons := None; s_errors := None;
     s_duration := Some duration;
     s_status := Some "in-progress" |}.

(** [s.split(',')] *)
Fixpoint splitComma (s : string) : list string :=
  match s with
  | EmptyString => [""]
  | String c r =>
      if Ascii.eqb c ","%char then "" :: splitComma r
      else match splitComma r with
           | [] => [String c ""]
           | x :: xs => String c x :: xs
           end
  end.

(** The body both entry points run once the feed URLs are known and are not
    empty, from [createImportLog] on; [label] is the [fileName] of the log
    and [reply] sends the answer of the controller, if any. No operation
    before [createImportLog] throws; when [createImportLog] itself throws,
    the [catch] finds [importLog] still [null] and marks nothing. *)
Definition importFrom (startTime : Z) (label : string) (feedUrls : list string)
    (reply : nat -> M unit) : M unit :=
  tryAssigning (createImportLog label)
    (fun importLog =>
       fetched <- fetchFromMultipleURLs feedUrls ;;
       let (jobs, errors) := fetched in
       if Nat.eqb (length jobs) 0 then
         t <- dateNow ;;
         updateImportLog importLog (noJobsStats errors (t - startTime)) ;;;
         reply 200
       else
         addBulkJobsToQueue jobs (objectId env importLog) ;;;
         t <- dateNow ;;
         updateImportLog importLog (queuedStats (length jobs) (t - startTime)) ;;;
         reply 202)
    (fun importLog error =>
       match importLog with
       | Some logId =>
           t <- dateNow ;;
           markImportFailed logId error (t - startTime) ;;;
           reply 500
       | None => reply 500
       end).

(** [startImport(req, res)] of the import controller; [bodyUrls] is
    [req.body.urls]. *)
Definition startImport (bodyUrls : option (list string)) : M unit :=
  startTime <- dateNow ;;
  let feedUrls :=
    match bodyUrls with
    | Some urls => urls
    | None =>
        match JOB_FEED_URLS env with
        | Some s => splitComma s
        | None => []
        end
    end in
  if Nat.eqb (length feedUrls) 0 then respond 400
  else importFrom startTime (Js.join ", " feedUrls) feedUrls respond.

(** [automatedImport()] of the server, called by the scheduler. *)
Definition automatedImport : M unit :=
  startTime <- dateNow ;;
  let feedUrls :=
    match JOB_FEED_URLS env with
    | Some s => map Js.trim (splitComma s)
    | None => []
    end in
  if Nat.eqb (length feedUrls) 0 then ret tt
  else importFrom startTime ("Automated: " ++ Js.join ", " feedUrls) feedUrls
         (fun _ => ret tt).

End Program.

Definition worldOf {A : Type} (r : Run A) : World :=
  match r with
  | Returned _ _ w => w
  | Threw _ _ w => w
  | Crashed w => w
  end.

Definition isAddBulk (ev : Event) : bool :=
  match ev with EvAddBulk _ _ => true | _ => false end.

(** The update that records a positive [totalFetched]. *)
Definition isFetchAccounting (ev : Event) : bool :=
  match ev with
  | EvUpdateImportLog _ stats =>
      match s_totalFetched stats with
      | Some (S _) => true
      | _ => false
      end
  | _ => false
  end.

(** The position of the first event of a kind. *)
Fixpoint firstIndex (p : Event -> bool) (tr : list Event) : option nat :=
  match tr with
  | [] => None
  | ev :: rest =>
      if p ev then Some 0
      else match firstIndex p rest with
           | Some i => Some (S i)
           | None => None
           end
  end.

(** An event of kind [p] happens, and before any of kind [q]. *)
Definition happensBefore (p q : Event -> bool) (tr : list Event) : Prop :=
  exists i, firstIndex p tr = Some i /\
            forall j, firstIndex q tr = Some j -> i < j.

Definition emptyWorld : World :=
  {| logs := []; queue := []; trace := []; clock := 0 |}.

(** The world a run leaves when it starts in [w0] and lives for [fuel]
    operations; its trace holds the events of this run only. *)
Definition observe {A : Type} (m : M A) (fuel : nat) (w0 : World) : World :=
  worldOf (m fuel {| logs := logs w0; queue := queue w0; trace := [];
                     clock := clock w0 |}).

(** The order the entry points keep: the fetch accounting is recorded only
    after the bulk enqueue was attempted; and as long as the enqueue was not
    attempted the queue is untouched and the log of the run, if created,
    still has [totalFetched] zero. *)
Definition enqueueFirst (w0 w : World) : Prop :=
  (forall j, firstIndex isFetchAccounting (trace w) = Some j ->
             exists i, firstIndex isAddBulk (trace w) = Some i /\ i < j) /\
  (firstIndex isAddBulk (trace w) = None ->
   queue w = queue w0 /\
   forall l, nth_error (logs w) (length (logs w0)) = Some l ->
             totalFetched l = 0).

(** The log of a run as [createImportLog] stores it, and as the update that
    follows the enqueue leaves it. *)
Definition createdLog (label : string) (timestamp' : Z) : ImportLog :=
  {| fileName := label; timestamp := timestamp'; totalFetched := 0;
     newJobs := 0; updatedJobs := 0; failedJobs := 0; failedReasons := [];
     duration := 0; status := "in-progress" |}.

Definition accountedLog (label : string) (timestamp' : Z) (n : nat)
    (duration' : Z) : ImportLog :=
  {| fileName := label; timestamp := timestamp'; totalFetched := n;
     newJobs := 0; updatedJobs := 0; failedJobs := 0; failedReasons := [];
     duration := duration'; status := "in-progress" |}.

(** The course of a run that fetched the candidates [jobs], stage by stage;
    [left fuel] is the world the run leaves when the process lives for [fuel]
    operations, the run being labelled [label] and started in [w0].
    - The process dies between the fetch and the enqueue (two operations):
      the log of the run is stored, in progress, with [totalFetched] zero,
      and nothing is queued.
    - The third operation is the bulk enqueue, under the id of the log.
    - With the broker up, a process that dies between the enqueue and the
      update (three operations) leaves the candidates queued and the log as
      it was created, [totalFetched] zero; one that lives on updates the log
      as its fourth operation, [totalFetched] being the number of
      candidates and the status still in progress.
    - Wherever the run stops, an update that records [totalFetched] is in its
      trace only as the fourth operation, with the broker up and the
      candidates queued: it follows an enqueue that succeeded. When the
      broker refuses the bulk, [totalFetched] is never recorded. *)
Definition enqueueThenAccount (env : Env) (w0 : World) (label : string)
    (jobs : list Fetcher.NormalizedJob) (left : nat -> World) : Prop :=
  let lat := latency env in
  let logId := length (logs w0) in
  let idText := objectId env logId in
  let created := (logs w0 ++ [createdLog label (clock w0 + lat)])%list in
  let accounted :=
    (logs w0 ++ [accountedLog label (clock w0 + lat) (length jobs)
                   (lat + lat + lat)])%list in
  let queued := JobQueue.addBulk (JobQueue.bulkJobs jobs idText) (queue w0) in
  (logs (left 2) = created /\ queue (left 2) = queue w0 /\
   firstIndex isAddBulk (trace (left 2)) = None) /\
  (forall fuel, 3 <= fuel ->
     nth_error (trace (left fuel)) 2 = Some (EvAddBulk idText (length jobs)) /\
     firstIndex isAddBulk (trace (left fuel)) = Some 2) /\
  (brokerError env = None ->
   logs (left 3) = created /\ queue (left 3) = queued /\
   forall fuel, 4 <= fuel ->
     nth_error (trace (left fuel)) 3 =
       Some (EvUpdateImportLog logId (queuedStats (length jobs) (lat + lat + lat))) /\
     logs (left fuel) = accounted /\ queue (left fuel) = queued) /\
  (forall fuel j,
     firstIndex isFetchAccounting (trace (left fuel)) = Some j ->
     j = 3 /\ brokerError env = None /\ queue (left fuel) = queued) /\
  (forall message fuel,
     brokerError env = Some message ->
     firstIndex isFetchAccounting (trace (left fuel)) = None /\
     queue (left fuel) = queue w0 /\
     forall l, nth_error (logs (left fuel)) logId = Some l -> totalFetched l = 0).

End Pipeline.

(* ===================================================================== *)
(** * Concrete inputs used by the examples *)
(* ===================================================================== *)

Module Samples.
Import Model.

Definition candidate (externalId title company description url : string)
    : JobData.t :=
  {| JobData.externalId := Some externalId;
     JobData.title := Some title;
     JobData.company := Some company;
     JobData.category := None;
     JobData.type := None;
     JobData.location := None;
     JobData.description := Some description;
     JobData.url := Some url;
     JobData.postedAt := None;
     JobData.updatedAt := None |}.

(** A posting, and the same posting (same externalId and url) with a new
    title. *)
Definition posting : JobData.t :=
  candidate "job-1" "Engineer" "Acme" "Builds things" "https://acme.example/jobs/1".

Definition reposting : JobData.t :=
  candidate "job-1" "Senior Engineer" "Acme" "Builds things" "https://acme.example/jobs/1".

(** Ten candidates: nine postings numbered apart and, fourth in the batch,
    one without a company. *)
Definition numbered (n : string) : JobData.t :=
  candidate ("job-" ++ n) "Engineer" "Acme" "Builds things"
            ("https://acme.example/jobs/" ++ n).

Definition noCompany : JobData.t :=
  {| JobData.externalId := Some "job-3";
     JobData.title := Some "Engineer";
     JobData.company := None;
     JobData.category := None;
     JobData.type := None;
     JobData.location := None;
     JobData.description := Some "Builds things";
     JobData.url := Some "https://acme.example/jobs/3";
     JobData.postedAt := None;
     JobData.updatedAt := None |}.

Definition tenJobs : list JobData.t :=
  [numbered "0"; numbered "1"; numbered "2"; noCompany; numbered "4";
   numbered "5"; numbered "6"; numbered "7"; numbered "8"; numbered "9"].

(** A numbered candidate without description: the four identity fields and
    nothing else. *)
Definition undescribed (n : string) : JobData.t :=
  {| JobData.externalId := Some ("job-" ++ n);
     JobData.title := Some "Engineer";
     JobData.company := Some "Acme";
     JobData.category := None;
     JobData.type := None;
     JobData.location := None;
     JobData.description := None;
     JobData.url := Some ("https://acme.example/jobs/" ++ n);
     JobData.postedAt := None;
     JobData.updatedAt := None |}.

(** The ten candidates again, the one numbered 7 without its description. *)
Definition tenJobsOneUndescribed : list JobData.t :=
  [numbered "0"; numbered "1"; numbered "2"; noCompany; numbered "4";
   numbered "5"; numbered "6"; undescribed "7"; numbered "8"; numbered "9"].

(** A candidate with the four identity fields and nothing else. *)
Definition noDescription : JobData.t :=
  {| JobData.externalId := Some "job-1";
     JobData.title := Some "Engineer";
     JobData.company := Some "Acme";
     JobData.category := None;
     JobData.type := None;
     JobData.location := None;
     JobData.description := None;
     JobData.url := Some "https://acme.example/jobs/1";
     JobData.postedAt := None;
     JobData.updatedAt := None |}.

Definition stored (externalId url : string) : Job :=
  {| externalId := externalId; title := "Engineer"; company := "Acme";
     category := "General"; type := "Other"; location := "Remote";
     description := "Builds things"; url := url;
     postedAt := 1; updatedAt := 1; createdAt := 1 |}.

(** Two jobs, and a candidate with the id of the first and the URL of the
    second. *)
Definition twoJobs : Collection :=
  [stored "a" "https://acme.example/1"; stored "b" "https://acme.example/2"].

Definition straddling : JobData.t :=
  candidate "a" "Engineer" "Acme" "Builds things" "https://acme.example/2".

(** One feed with one item, a broker that is up. *)
Definition feedDoc : Js.JsVal :=
  Js.JObj [("rss", Js.JObj [("channel", Js.JObj [("item", Fetcher.sampleItem)])])].

(** What the fetcher extracts from that feed: one candidate. *)
Definition fetched : list Fetcher.NormalizedJob :=
  Fetcher.extractJobs (fun _ => None) (fun _ => None) 0 feedDoc
    "https://jobs.example/feed".

Definition env : Pipeline.Env :=
  {| Pipeline.feed := fun _ => inr feedDoc;
     Pipeline.brokerError := None;
     Pipeline.parseDate := fun _ => None;
     Pipeline.timeOfNumber := fun _ => None;
     Pipeline.objectId := fun _ => "65f0c0ffee";
     Pipeline.JOB_FEED_URLS := Some "https://jobs.example/feed";
     Pipeline.latency := 1 |}.

Definition run (status : string) : Logger.ImportLog :=
  {| Logger.fileName := "https://jobs.example/feed"; Logger.timestamp := 0;
     Logger.totalFetched := 0; Logger.newJobs := 0; Logger.updatedJobs := 0;
     Logger.failedJobs := 0; Logger.failedReasons := []; Logger.duration := 0;
     Logger.status := status |}.

(** Three completed runs and a failed one. *)
Definition fourRuns : Logger.Logs :=
  [run "completed"; run "failed"; run "completed"; run "completed"].

End Samples.

(* ===================================================================== *)
(** * Vocabulary of the further properties *)
(* ===================================================================== *)

Module Terms.
Import Model Processor.

(** The document with [updatedAt] set anew and everything else kept. *)
Definition touch (doc : Job) (now : Z) : Job :=
  {| externalId := externalId doc; title := title doc; company := company doc;
     category := category doc; type := type doc; location := location doc;
     description := description doc; url := url doc; postedAt := postedAt doc;
     updatedAt := now; createdAt := createdAt doc |}.

(** What a call of [processJob] did, read off its result: it failed and left
    the collection alone, it inserted the draft of the candidate, or it
    rewrote the document its lookup found. *)
Inductive Outcome (now : Z) (c : JobData.t) (coll : Collection)
    : Result -> Collection -> Prop :=
| Failed (e : Error) : Outcome now c coll (resultFailed e c) coll
| Created :
    missingRequired c = false ->
    findOne (keyId c) (keyUrl c) coll = None ->
    validate (newJob c now) = [] ->
    violated None (newJob c now) coll = None ->
    Outcome now c coll (resultCreated (newJob c now)) (coll ++ [newJob c now])%list
| Updated (i : nat) (loaded : Job) :
    missingRequired c = false ->
    findOne (keyId c) (keyUrl c) coll = Some (i, loaded) ->
    validate (assign loaded c now) = [] ->
    violated (Some i) (assign loaded c now) coll = None ->
    Outcome now c coll (resultUpdated (assign loaded c now))
            (setAt i (assign loaded c now) coll).

(** The log of a run with nothing processed yet. *)
Definition runLog (fileName : string) (timestamp : Z) (totalFetched : nat)
    (failedReasons : list string) (duration : Z) (status : string)
    : Logger.ImportLog :=
  {| Logger.fileName := fileName; Logger.timestamp := timestamp;
     Logger.totalFetched := totalFetched;
     Logger.newJobs := 0; Logger.updatedJobs := 0; Logger.failedJobs := 0;
     Logger.failedReasons := failedReasons; Logger.duration := duration;
     Logger.status := status |}.

(** A computation only appends to the trace. *)
Definition Extends {A : Type} (m : Pipeline.M A) : Prop :=
  forall fuel w, exists rest,
    Pipeline.trace (Pipeline.worldOf (m fuel w)) = (Pipeline.trace w ++ rest)%list.

(** What answering does: it returns, having appended [tail code] to the
    trace and changed nothing else, when the process lives for one more
    operation. *)
Definition Answers (reply : nat -> Pipeline.M unit)
    (tail : nat -> list Pipeline.Event) : Prop :=
  forall code fuel w, 1 <= fuel ->
    exists fuel',
      reply code fuel w =
      Pipeline.Returned tt fuel'
        {| Pipeline.logs := Pipeline.logs w; Pipeline.queue := Pipeline.queue w;
           Pipeline.trace := (Pipeline.trace w ++ tail code)%list;
           Pipeline.clock := Pipeline.clock w |}.

End Terms.

(* ===================================================================== *)
(** * src/services/importLogger.service.js: the queries *)
(* ===================================================================== *)

Module LogQueries.
Import Logger.

(** [s.startsWith(needle)] and [s.includes(needle)] *)
Fixpoint startsWith (needle s : string) : bool :=
  match needle, s with
  | EmptyString, _ => true
  | String a needle', String b s' => Ascii.eqb a b && startsWith needle' s'
  | String _ _, EmptyString => false
  end.

Fixpoint includes (needle s : string) : bool :=
  startsWith needle s ||
  match s with
  | EmptyString => false
  | String _ rest => includes needle rest
  end.

(** How the store reads the text of an id. [findById] casts the text to an
    ObjectId: [cast] is the [_id] a well-formed text stands for (an [_id]
    being the position of its log), and nothing for any other text, for which
    [findById] rejects with a [CastError] of message [castError]. *)
Record ObjectIds : Type := mkObjectIds {
  cast : string -> option nat;
  castError : string -> string
}.

(** [getImportLogById(logId)] on the text [logId]: the log, the error of the
    cast, or the error thrown when no log has that id. *)
Definition getImportLogById (ids : ObjectIds) (logId : string) (logs : Logs)
    : string + ImportLog :=
  match cast ids logId with
  | None => inl (castError ids logId)
  | Some position =>
      match nth_error logs position with
      | Some importLog => inr importLog
      | None => inl ("Import log " ++ logId ++ " not found")
      end
  end.

(** [getImportLogById(req, res)] of the import controller on [req.params.id]:
    the status code and the [data] of the answer. *)
Definition answerImportLogById (ids : ObjectIds) (id : string) (logs : Logs)
    : nat * option ImportLog :=
  match getImportLogById ids id logs with
  | inr importLog => (200, Some importLog)
  | inl message => (if includes "not found" message then 404 else 500, None)
  end.

(** The time values a [Date] can hold; [new Date(t)] is invalid outside, and
    the store refuses to cast an invalid date in a query. *)
Definition validTime (t : Z) : bool := Z.leb (Z.abs t) 8640000000000000.

(** [24 * 60 * 60 * 1000] *)
Definition dayMs : Z := 24 * 60 * 60 * 1000.

(** [ImportLog.findOne().sort({ timestamp: -1 })]: a log with the greatest
    timestamp. Among logs of equal timestamp the store is free to choose; the
    first in natural order is taken. *)
Fixpoint newest (logs : Logs) : option ImportLog :=
  match logs with
  | [] => None
  | l :: rest =>
      match newest rest with
      | Some m => if Z.ltb (timestamp l) (timestamp m) then Some m else Some l
      | None => Some l
      end
  end.

Record ImportStats : Type := mkImportStats {
  totalImports : nat;
  recentImports : nat;
  successRate : Rate;
  lastImport : option ImportLog
}.

(** [ImportLog.countDocuments({ timestamp: { $gte: cutoff } })] *)
Definition countSince (cutoff : Z) (logs : Logs) : nat :=
  length (filter (fun l => Z.leb cutoff (timestamp l)) logs).

(** [getImportStats()]; [None] is the [null] it returns when a query throws,
    which with the store up is the case of an invalid cutoff date only. *)
Definition getImportStats (now : Z) (logs : Logs) : option ImportStats :=
  let cutoff := (now - dayMs)%Z in
  if validTime cutoff then
    Some {| totalImports := length logs;
            recentImports := countSince cutoff logs;
            successRate := calculateSuccessRate logs;
            lastImport := newest logs |}
  else None.

(** [cleanupOldLogs(daysOld = 30)] for a whole number of days: the number of
    logs deleted and the logs that stay. *)
Definition cleanupOldLogs (daysOld : option Z) (now : Z) (logs : Logs)
    : nat * Logs :=
  let days := match daysOld with Some d => d | None => 30%Z end in
  let cutoff := (now - days * dayMs)%Z in
  if validTime cutoff then
    (length (filter (fun l => Z.ltb (timestamp l) cutoff) logs),
     filter (fun l => negb (Z.ltb (timestamp l) cutoff)) logs)
  else (0, logs).

End LogQueries.

(* ===================================================================== *)
(** * src/services/jobProcessor.service.js: statistics and maintenance *)
(* ===================================================================== *)

Module Maintenance.
Import Model LogQueries.

Record JobStats : Type := mkJobStats {
  totalJobs : nat;
  recentJobs : nat;
  companiesCount : nat;
  categoriesCount : nat
}.

(** [Job.distinct(path)] on a path of strings. *)
Definition distinct (values : list string) : list string :=
  nodup string_dec values.

(** [getJobStats()]; [None] is the [null] it returns when a query throws. *)
Definition getJobStats (now : Z) (coll : Collection) : option JobStats :=
  let cutoff := (now - dayMs)%Z in
  if validTime cutoff then
    Some {| totalJobs := length coll;
            recentJobs :=
              length (filter (fun doc => Z.leb cutoff (createdAt doc)) coll);
            companiesCount := length (distinct (map company coll));
            categoriesCount := length (distinct (map category coll)) |}
  else None.

(** [cleanupOldJobs(daysOld = 90)] for a whole number of days: the number of
    jobs deleted and the collection that stays. *)
Definition cleanupOldJobs (daysOld : option Z) (now : Z) (coll : Collection)
    : nat * Collection :=
  let days := match daysOld with Some d => d | None => 90%Z end in
  let cutoff := (now - days * dayMs)%Z in
  if validTime cutoff then
    (length (filter (fun doc => Z.ltb (updatedAt doc) cutoff) coll),
     filter (fun doc => negb (Z.ltb (updatedAt doc) cutoff)) coll)
  else (0, coll).

End Maintenance.

(* ===================================================================== *)
(** * src/workers/jobWorker.js *)
(* ===================================================================== *)

Module Worker.
Import Js Model Processor.

(** What the queue hands to the worker for the [type] of a normalized job.
    The payload travels as JSON: a text stays, a function (an inherited
    method) is left out, and the prototype object arrives as an object, which
    the schema cannot cast to a string and [JobData.t] does not hold
    ([None]). [normalizeJobType] returns no other value. *)
Definition typeOfPayload (x : Looked) : option (option string) :=
  match x with
  | Own (JStr s) => Some (Some s)
  | Own _ => None
  | Proto name => if String.eqb name "__proto__" then None else Some None
  end.

(** [job.data.jobData] for a job that [addBulkJobsToQueue] queued. *)
Definition payload (j : Fetcher.NormalizedJob) : option JobData.t :=
  match typeOfPayload (Fetcher.type j) with
  | Some type =>
      Some {| JobData.externalId := Some (Fetcher.externalId j);
              JobData.title := Some (Fetcher.title j);
              JobData.company := Some (Fetcher.company j);
              JobData.category := Some (Fetcher.category j);
              JobData.type := type;
              JobData.location := Some (Fetcher.location j);
              JobData.description := Some (Fetcher.description j);
              JobData.url := Some (Fetcher.url j);
              JobData.postedAt := Some (Fetcher.postedAt j);
              JobData.updatedAt := Some (Fetcher.updatedAt j) |}
  | None => None
  end.

(** What the processor function returns. *)
Record Completed : Type := mkCompleted {
  action : string;
  externalId : option string
}.

(** What it throws: the error of [processJob], or the fallback text. *)
Inductive Failure : Type :=
| Because (e : Error)
| JobProcessingFailed.

(** The processor function of the worker on [job.data.jobData]. *)
Definition processor (now : Z) (jobData : JobData.t) (coll : Collection)
    : (Failure + Completed) * Collection :=
  let (result, coll') := processJob now jobData coll in
  if success result then
    (inr {| action := Processor.action result;
            externalId := JobData.externalId jobData |}, coll')
  else
    (inl match error result with
         | Some e => if emptyMessage e then JobProcessingFailed else Because e
         | None => JobProcessingFailed
         end, coll').

(** The processor function at a time when the store may be out of reach:
    during an outage [findOne] (or [save]) rejects with [message], which the
    [catch] of [processJob] turns into a [failed] outcome, the collection
    being left as it was; the check of the four fields comes before any call
    of the store. *)
Definition processorDuring (outage : option string) (now : Z)
    (jobData : JobData.t) (coll : Collection)
    : (Failure + Completed) * Collection :=
  match outage with
  | None => processor now jobData coll
  | Some message =>
      let e := if missingRequired jobData then missingRequiredError
               else Thrown message in
      (inl (if emptyMessage e then JobProcessingFailed else Because e), coll)
  end.

(** [attempts: 3] of the queue's default job options. *)
Definition attempts : nat := 3.

(** The queue runs the processor function until it returns, once per entry
    of [clock], the times of the attempts; no other writer touches the
    collection in between. [None]: no attempt was made. *)
Fixpoint runAttempts (clock : list Z) (jobData : JobData.t) (coll : Collection)
    : option (Failure + Completed) * Collection :=
  match clock with
  | [] => (None, coll)
  | now :: later =>
      match processor now jobData coll with
      | (inr done, coll') => (Some (inr done), coll')
      | (inl failure, coll') =>
          match later with
          | [] => (Some (inl failure), coll')
          | _ :: _ => runAttempts later jobData coll'
          end
      end
  end.

(** The same when the store can be out of reach at the time of an attempt:
    each attempt comes with its time and the outage it meets, if any. *)
Fixpoint runAttemptsThrough (attempts' : list (Z * option string))
    (jobData : JobData.t) (coll : Collection)
    : option (Failure + Completed) * Collection :=
  match attempts' with
  | [] => (None, coll)
  | (now, outage) :: later =>
      match processorDuring outage now jobData coll with
      | (inr done, coll') => (Some (inr done), coll')
      | (inl failure, coll') =>
          match later with
          | [] => (Some (inl failure), coll')
          | _ :: _ => runAttemptsThrough later jobData coll'
          end
      end
  end.

End Worker.

(* ===================================================================== *)
(** * src/utils/cronHelper.js *)
(* ===================================================================== *)

Module Cron.
Import Js.

Definition cronPatterns : list (string * string) :=
  [ ("EVERY_MINUTE", "* * * * *");
    ("EVERY_5_MINUTES", "*/5 * * * *");
    ("EVERY_15_MINUTES", "*/15 * * * *");
    ("EVERY_30_MINUTES", "*/30 * * * *");
    ("EVERY_HOUR", "0 * * * *");
    ("EVERY_2_HOURS", "0 */2 * * *");
    ("EVERY_6_HOURS", "0 */6 * * *");
    ("EVERY_12_HOURS", "0 */12 * * *");
    ("DAILY_MIDNIGHT", "0 0 * * *");
    ("DAILY_6AM", "0 6 * * *");
    ("DAILY_NOON", "0 12 * * *");
    ("WEEKLY_MONDAY_9AM", "0 9 * * 1");
    ("WEEKLY_SUNDAY_MIDNIGHT", "0 0 * * 0") ].

(** The regular expressions [isValidCronExpression] is written with: literal
    characters, character ranges, sequence and alternation. *)
Inductive Regex : Type :=
| Chr (c : ascii)
| Range (lo hi : ascii)
| Seq (a b : Regex)
| Alt (a b : Regex).

(** The matcher of a pattern as ECMAScript defines it: [matchFrom r s k]
    matches [r] at the start of [s] and hands the rest to the continuation
    [k]; an alternation tries its left side first. *)
Fixpoint matchFrom (r : Regex) (s : string) (k : string -> bool) : bool :=
  match r with
  | Chr c =>
      match s with
      | String c' rest => Ascii.eqb c c' && k rest
      | EmptyString => false
      end
  | Range lo hi =>
      match s with
      | String c' rest => between (code lo) (code hi) c' && k rest
      | EmptyString => false
      end
  | Seq a b => matchFrom a s (fun rest => matchFrom b rest k)
  | Alt a b => matchFrom a s k || matchFrom b s k
  end.

(** [/^r$/.test(s)] *)
Definition test (r : Regex) (s : string) : bool :=
  matchFrom r s (fun rest => String.eqb rest "").

Fixpoint alts (first : Regex) (others : list Regex) : Regex :=
  match others with
  | [] => first
  | r :: rest => Alt first (alts r rest)
  end.

Fixpoint seqs (first : Regex) (others : list Regex) : Regex :=
  match others with
  | [] => first
  | r :: rest => Seq first (seqs r rest)
  end.

(** [[0-9]] and [d[lo-hi]] *)
Definition digit : Regex := Range "0" "9".
Definition tens (d lo hi : ascii) : Regex := Seq (Chr d) (Range lo hi).

(** [(\*|(n)|\*\/(n))] *)
Definition field (n : Regex) : Regex :=
  alts (Chr "*") [n; seqs (Chr "*") [Chr "/"; n]].

(** [[0-9]|1[0-9]|2[0-9]|3[0-9]|4[0-9]|5[0-9]] *)
Definition minuteNumber : Regex :=
  alts digit [tens "1" "0" "9"; tens "2" "0" "9"; tens "3" "0" "9";
              tens "4" "0" "9"; tens "5" "0" "9"].

(** [[0-9]|1[0-9]|2[0-3]] *)
Definition hourNumber : Regex :=
  alts digit [tens "1" "0" "9"; tens "2" "0" "3"].

(** [[1-9]|1[0-9]|2[0-9]|3[0-1]] *)
Definition dayNumber : Regex :=
  alts (Range "1" "9") [tens "1" "0" "9"; tens "2" "0" "9"; tens "3" "0" "1"].

(** [[1-9]|1[0-2]] *)
Definition monthNumber : Regex :=
  alts (Range "1" "9") [tens "1" "0" "2"].

(** [[0-6]] *)
Definition weekdayNumber : Regex := Range "0" "6".

(** The [cronRegex] of [isValidCronExpression], between [^] and [$]. *)
Definition cronRegex : Regex :=
  seqs (field minuteNumber)
       [Chr " "; field hourNumber; Chr " "; field dayNumber; Chr " ";
        field monthNumber; Chr " "; field weekdayNumber].

Definition isValidCronExpression (expression : string) : bool :=
  test cronRegex expression.

(** The object literal [descriptions] of [describeCronSchedule]. *)
Definition descriptions : list (string * JsVal) :=
  [ ("* * * * *", JStr "Every minute");
    ("*/5 * * * *", JStr "Every 5 minutes");
    ("*/15 * * * *", JStr "Every 15 minutes");
    ("*/30 * * * *", JStr "Every 30 minutes");
    ("0 * * * *", JStr "Every hour");
    ("0 */2 * * *", JStr "Every 2 hours");
    ("0 */6 * * *", JStr "Every 6 hours");
    ("0 */12 * * *", JStr "Every 12 hours");
    ("0 0 * * *", JStr "Daily at midnight");
    ("0 6 * * *", JStr "Daily at 6:00 AM");
    ("0 12 * * *", JStr "Daily at noon");
    ("0 9 * * 1", JStr "Every Monday at 9:00 AM");
    ("0 0 * * 0", JStr "Every Sunday at midnight") ].

(** [describeCronSchedule(expression)]: [descriptions[expression] ||
    'Custom schedule'], the lookup following the prototype chain. *)
Definition describeCronSchedule (expression : string) : Looked :=
  or_else (own_or descriptions objectProto expression)
          (Own (JStr "Custom schedule")).

(** ** Vocabulary of the properties *)

(** The decimal numeral of [n], without leading zeros. *)
Definition decimal (n : nat) : string :=
  NilZero.string_of_uint (Nat.to_uint n).

(** A field of a cron expression over the numbers from [lo] to [hi]: the
    star, a number, or a step [*/n]. *)
Definition cronField (lo hi : nat) (f : string) : Prop :=
  f = "*" \/
  exists n, lo <= n <= hi /\ (f = decimal n \/ f = "*/" ++ decimal n).

(** The strings of a pattern. *)
Fixpoint language (r : Regex) : list string :=
  match r with
  | Chr c => [String c ""]
  | Range lo hi =>
      map (fun n => String (ascii_of_nat n) "")
          (seq (code lo) (S (code hi) - code lo))
  | Seq a b =>
      flat_map (fun x => map (fun y => x ++ y) (language b)) (language a)
  | Alt a b => (language a ++ language b)%list
  end.

(** The fields over the numbers from [lo] to [hi], listed. *)
Definition stepOf (n : nat) : string := "*/" ++ decimal n.

Definition fieldList (lo hi : nat) : list string :=
  ("*" :: map decimal (seq lo (S hi - lo)) ++
   map stepOf (seq lo (S hi - lo)))%list.

Definition sameStrings (a b : list string) : bool :=
  forallb (fun x => mem x b) a && forallb (fun x => mem x a) b.

End Cron.

(* ===================================================================== *)
(** * src/services/importLogger.service.js: [getImportLogs] *)
(* ===================================================================== *)

Module Pages.
Import Logger.

(** [.sort({ timestamp: -1 })]: newest first. Among logs of equal timestamp
    the store is free to choose; their natural order is kept. *)
Fixpoint insertNewest (l : ImportLog) (sorted : Logs) : Logs :=
  match sorted with
  | [] => [l]
  | x :: rest =>
      if Z.leb (timestamp x) (timestamp l) then l :: sorted
      else x :: insertNewest l rest
  end.

Definition newestFirst (logs : Logs) : Logs := fold_right insertNewest [] logs.

(** [Math.ceil(x)] on a double: the magnitude [m * 2^-k] of a finite double
    with a negative exponent has the whole part [m / 2^k]; a negative value
    goes towards zero ([-0] when the whole part is zero), a positive one up
    unless it is whole. Every other double is whole, zero, infinite or NaN
    and is returned. *)
Definition ceil (x : float) : float :=
  match Prim2SF x with
  | S754_finite s m (Zneg k) =>
      let whole := (Zpos m / 2 ^ Zpos k)%Z in
      let isWhole := Z.eqb (Zpos m mod 2 ^ Zpos k) 0 in
      if s then PrimFloat.opp (PrimFloat.of_uint63 (Uint63.of_Z whole))
      else PrimFloat.of_uint63
             (Uint63.of_Z (if isWhole then whole else (whole + 1)%Z))
  | _ => x
  end.

Record Pagination : Type := mkPagination {
  page : nat;
  limit : nat;
  total : nat;
  totalPages : float
}.

Record PageOfLogs : Type := mkPageOfLogs {
  shown : Logs;
  pagination : Pagination
}.

(** [getImportLogs(page = 1, limit = 20)] for [page] and [limit] that are
    non-negative whole numbers. [None]: the query throws, as the store refuses
    the negative [skip] of page 0; a [limit] of 0 is no limit. *)
Definition getImportLogs (page' limit' : option nat) (logs : Logs)
    : option PageOfLogs :=
  let page := match page' with Some p => p | None => 1 end in
  let limit := match limit' with Some l => l | None => 20 end in
  if Nat.eqb page 0 && Nat.ltb 0 limit then None
  else
    let skip := (page - 1) * limit in
    let found := skipn skip (newestFirst logs) in
    Some {| shown := if Nat.eqb limit 0 then found else firstn limit found;
            pagination :=
              {| page := page; limit := limit; total := length logs;
                 totalPages := ceil (number (length logs) / number limit)%float |} |}.

(** ** Vocabulary of the properties *)

(** Newest first: no log comes before a newer one. *)
Definition newestFirstOrder (logs : Logs) : Prop :=
  forall i j a b, i <= j ->
    nth_error logs i = Some a -> nth_error logs j = Some b ->
    (timestamp b <= timestamp a)%Z.

(** The number of pages of [limit] logs that [total] logs fill. *)
Definition pagesFor (total limit : nat) : nat := (total + limit - 1) / limit.

End Pages.

(* ===================================================================== *)
(** * Further concrete inputs *)
(* ===================================================================== *)

Module Scenarios.
Import Js.

(** An RSS feed with two items, the second with a numeric [id]. *)
Definition numericIdFeed : JsVal :=
  JObj [("rss", JObj [("channel", JObj [("item",
    JArr [Fetcher.sampleItem;
          JObj [("id", JNum "42"); ("title", JStr "Designer")]] [])])])].

(** A normalized candidate. *)
Definition normalized : Fetcher.NormalizedJob :=
  {| Fetcher.externalId := "acme-1"; Fetcher.title := "Engineer";
     Fetcher.company := "Acme"; Fetcher.category := "General";
     Fetcher.type := Own (JStr "Full-time"); Fetcher.location := "Remote";
     Fetcher.description := "Builds things";
     Fetcher.url := "https://acme.example/jobs/1";
     Fetcher.postedAt := 1; Fetcher.updatedAt := 1 |}.

(** Every feed is down. *)
Definition offline : Pipeline.Env :=
  {| Pipeline.feed := fun _ => inl "connect ETIMEDOUT";
     Pipeline.brokerError := None;
     Pipeline.parseDate := fun _ => None;
     Pipeline.timeOfNumber := fun _ => None;
     Pipeline.objectId := fun _ => "65f0c0ffee";
     Pipeline.JOB_FEED_URLS := Some "https://jobs.example/feed";
     Pipeline.latency := 1 |}.

(** The feed is up, the broker is down. *)
Definition brokerDown : Pipeline.Env :=
  {| Pipeline.feed := fun _ => inr Samples.feedDoc;
     Pipeline.brokerError := Some "Connection is closed.";
     Pipeline.parseDate := fun _ => None;
     Pipeline.timeOfNumber := fun _ => None;
     Pipeline.objectId := fun _ => "65f0c0ffee";
     Pipeline.JOB_FEED_URLS := Some "https://jobs.example/feed";
     Pipeline.latency := 1 |}.

(** A store that knows one id; its cast error quotes the text it was
    given. *)
Definition oneId : LogQueries.ObjectIds :=
  {| LogQueries.cast := fun text =>
       if String.eqb text "65f0c0ffee65f0c0ffee0000" then Some 0 else None;
     LogQueries.castError := fun text =>
       "Cast to ObjectId failed for value " ++ text |}.

End Scenarios.

(* ===================================================================== *)
(** * Properties of the fetcher *)
(* ===================================================================== *)

Module FetcherFacts.
Import Js Fetcher.

(** ** Strings *)

Lemma lower_char_notUpper (c : ascii) : notUpper (lower_char c) = true.
Proof.
  destruct c as [[] [] [] [] [] [] [] []]; reflexivity.
Qed.

Lemma toLowerCase_notUpper (s : string) : allb notUpper (toLowerCase s) = true.
Proof.
  induction s as [|c r IH]; simpl.
  - reflexivity.
  - rewrite lower_char_notUpper. exact IH.
Qed.

Lemma trimStart_allb (p : ascii -> bool) (s : string) :
  allb p s = true -> allb p (trimStart s) = true.
Proof.
  induction s as [|c r IH]; simpl; intros H.
  - reflexivity.
  - apply andb_true_iff in H. destruct H as [Hc Hr].
    destruct (is_space c).
    + apply IH, Hr.
    + simpl. rewrite Hc. exact Hr.
Qed.

Lemma trimEnd_allb (p : ascii -> bool) (s : string) :
  allb p s = true -> allb p (trimEnd s) = true.
Proof.
  induction s as [|c r IH]; simpl; intros H.
  - reflexivity.
  - apply andb_true_iff in H. destruct H as [Hc Hr].
    specialize (IH Hr).
    destruct (trimEnd r) as [|c' r'].
    + destruct (is_space c); simpl; [reflexivity | now rewrite Hc].
    + change (p c && allb p (String c' r') = true). now rewrite Hc.
Qed.

Lemma normalized_notUpper (type : string) :
  allb notUpper (trim (toLowerCase type)) = true.
Proof.
  unfold trim. apply trimEnd_allb, trimStart_allb, toLowerCase_notUpper.
Qed.

(** After [toLowerCase], two members of [Object.prototype] can still be hit. *)
Lemma normalized_inherited (type : string) :
  mem (trim (toLowerCase type)) objectProto = true ->
  trim (toLowerCase type) = "constructor" \/
  trim (toLowerCase type) = "__proto__".
Proof.
  pose proof (normalized_notUpper type) as Hlow.
  set (n := trim (toLowerCase type)) in *.
  unfold mem, objectProto. simpl.
  intros H.
  repeat match type of H with
  | (?a || ?b)%bool = true => apply orb_true_iff in H; destruct H as [H|H]
  end;
  try discriminate;
  apply String.eqb_eq in H;
  try (left; exact H); try (right; exact H);
  rewrite H in Hlow; discriminate Hlow.
Qed.

(** Every value of the table is a non-empty string. *)
Lemma typeMap_truthy (k : string) (v : JsVal) :
  assoc k typeMap = Some v -> truthyVal v = true.
Proof.
  unfold typeMap. simpl.
  repeat match goal with
  | |- (if String.eqb ?a ?b then _ else _) = _ -> _ =>
      destruct (String.eqb a b); [intros [= <-]; reflexivity|]
  end.
  discriminate.
Qed.

(** What [normalizeJobType] returns in terms of the table. *)
Lemma normalizeJobType_table (type : string) :
  let normalized := trim (toLowerCase type) in
  (forall v, assoc normalized typeMap = Some v ->
             normalizeJobType type = Own v) /\
  (assoc normalized typeMap = None ->
   normalized <> "constructor" -> normalized <> "__proto__" ->
   normalizeJobType type = Own (JStr "Other")).
Proof.
  intros normalized. unfold normalizeJobType. fold normalized.
  split.
  - intros v Hv. unfold own_or, or_else. rewrite Hv. simpl.
    now rewrite (typeMap_truthy _ _ Hv).
  - intros Hnone Hc Hp. unfold own_or, or_else, inherited. rewrite Hnone.
    destruct (mem normalized objectProto) eqn:Hm.
    + destruct (normalized_inherited type Hm); contradiction.
    + reflexivity.
Qed.

Example normalizeJobType_Full_Time :
  normalizeJobType "Full Time" = Own (JStr "Full-time") /\
  normalizeJobType "full-time" = Own (JStr "Full-time") /\
  normalizeJobType "FULLTIME" = Own (JStr "Full-time") /\
  normalizeJobType "  Contractor " = Own (JStr "Contract") /\
  normalizeJobType "internship" = Own (JStr "Other").
Proof. repeat split; reflexivity. Qed.

(** C8 (defect). The claim: every type string with no match in the lookup
    table normalizes to [Other]. The table has no entry for ["constructor"],
    yet [normalizeJobType "constructor"] is not [Other] and not a string at
    all: the lookup [typeMap[normalized]] finds the member [constructor] that
    the object literal inherits from [Object.prototype]. *)
Theorem normalizeJobType_inherited_member :
  assoc (trim (toLowerCase "constructor")) typeMap = None /\
  normalizeJobType "constructor" = Proto "constructor" /\
  normalizeJobType "constructor" <> Own (JStr "Other").
Proof.
  split; [reflexivity|]. split; [reflexivity|]. discriminate.
Qed.

End FetcherFacts.

(** ** [normalizeJob] *)

Module NormalizeFacts.
Import Js Fetcher.

Lemma assoc_plain (k : string) (props : list (string * JsVal)) (v : JsVal) :
  plain props = true -> assoc k props = Some v -> primitive v = true.
Proof.
  induction props as [|[k' v'] rest IH]; simpl; [discriminate|].
  intros Hp Ha. apply andb_true_iff in Hp. destruct Hp as [Hv Hrest].
  destruct (String.eqb k k').
  - now injection Ha as <-.
  - now apply IH.
Qed.

Lemma get_plain (k : string) (props : list (string * JsVal)) :
  plain props = true ->
  exists x, get (JObj props) k = Some x /\ simple x.
Proof.
  intros Hp. simpl. unfold own_or, inherited.
  destruct (assoc k props) as [v|] eqn:Ha.
  - exists (Own v). split; [reflexivity|]. exact (assoc_plain _ _ _ Hp Ha).
  - destruct (mem k objectProto); eexists; split; reflexivity || exact I.
Qed.

Lemma probe_plain (keys : list string) (props : list (string * JsVal)) :
  plain props = true ->
  exists o, probe (JObj props) keys = Some o /\
            match o with Some x => simple x | None => True end.
Proof.
  intros Hp. induction keys as [|k ks IH].
  - exists None. split; [reflexivity | exact I].
  - destruct (get_plain k _ Hp) as (x & Hx & Hs).
    cbn [probe]. rewrite Hx.
    destruct (truthy x).
    + exists (Some x). split; [reflexivity | exact Hs].
    + exact IH.
Qed.

Lemma chain_plain (keys : list string) (props : list (string * JsVal))
    (dflt : Looked) :
  plain props = true -> simple dflt ->
  exists x, chain (JObj props) keys dflt = Some x /\ simple x.
Proof.
  intros Hp Hd. unfold chain.
  destruct (probe_plain keys _ Hp) as ([x|] & -> & Hs).
  - now exists x.
  - now exists dflt.
Qed.

Lemma toString_simple (x : Looked) : simple x -> exists s, toString x = Some s.
Proof.
  destruct x as [v|name]; simpl.
  - destruct v as [| |[]| | | |]; simpl; intros H;
      try discriminate H; eexists; reflexivity.
  - intros _. eexists; reflexivity.
Qed.

Section WithDates.
Variable parseDate : string -> option Z.
Variable timeOfNumber : string -> option Z.

Lemma newDate_simple (x : Looked) :
  simple x -> exists t, newDate parseDate timeOfNumber x = Some t.
Proof.
  destruct x as [v|name]; simpl.
  - destruct v; simpl; intros H; try discriminate H; eexists; reflexivity.
  - intros _. eexists; reflexivity.
Qed.

Ltac same_step :=
  match goal with
  | |- option_map _ (bind ?m _) = option_map _ (bind ?m _) =>
      destruct m eqn:?; cbn [bind]; [|reflexivity]
  end.

Lemma externalId_clock_independent (now1 now2 : Z) (job : JsVal)
    (sourceUrl : string) :
  option_map externalId (normalizeJob parseDate timeOfNumber now1 job sourceUrl) =
  option_map externalId (normalizeJob parseDate timeOfNumber now2 job sourceUrl).
Proof.
  unfold normalizeJob.
  do 10 same_step.
  match goal with
  | |- context [match ?o with Some _ => _ | None => Some now1 end] =>
      destruct o as [d|]; cbn [bind];
      [destruct (newDate parseDate timeOfNumber d) as [[t|]|]; cbn [bind];
       [| |reflexivity] |]
  end;
  repeat same_step; reflexivity.
Qed.

Ltac some_step H :=
  match type of H with
  | bind ?m _ = Some _ =>
      let E := fresh "E" in
      destruct m eqn:E; cbn [bind] in H; [|discriminate H]
  end.

Lemma normalizeJob_synthesized (now : Z) (job : JsVal) (sourceUrl : string)
    (r : NormalizedJob) :
  probe job idKeys = Some None ->
  normalizeJob parseDate timeOfNumber now job sourceUrl = Some r ->
  exists title company t c,
    chain job titleKeys (Own (JStr "Untitled Position")) = Some title /\
    chain job companyKeys (Own (JStr "Unknown Company")) = Some company /\
    toString title = Some t /\ toString company = Some c /\
    externalId r = synthesizedId sourceUrl t c.
Proof.
  intros Hid H. unfold normalizeJob in H.
  do 7 some_step H.
  rewrite Hid in H. cbn [bind] in H.
  some_step H.
  destruct (toString l) as [t|] eqn:Et; cbn [bind] in E6; [|discriminate E6].
  destruct (toString l0) as [c|] eqn:Ec; cbn [bind] in E6; [|discriminate E6].
  injection E6 as <-.
  repeat (cbn [bind] in H; some_step H).
  injection H as <-.
  exists l, l0, t, c. cbn [externalId].
  repeat split; assumption || reflexivity.
Qed.

Lemma plain_item_normalizes (now : Z) (props : list (string * JsVal))
    (sourceUrl : string) :
  plain props = true ->
  probe (JObj props) idKeys = Some None ->
  exists r, normalizeJob parseDate timeOfNumber now (JObj props) sourceUrl = Some r.
Proof.
  intros Hp Hid. unfold normalizeJob.
  destruct (chain_plain titleKeys props (Own (JStr "Untitled Position")) Hp eq_refl)
    as (title & -> & Htitle).
  destruct (chain_plain companyKeys props (Own (JStr "Unknown Company")) Hp eq_refl)
    as (company & -> & Hcompany).
  destruct (chain_plain descriptionKeys props (Own (JStr "")) Hp eq_refl)
    as (description & -> & Hdescription).
  destruct (chain_plain urlKeys props (Own (JStr sourceUrl)) Hp eq_refl)
    as (url & -> & Hurl).
  destruct (chain_plain locationKeys props (Own (JStr "Remote")) Hp eq_refl)
    as (location & -> & Hlocation).
  destruct (chain_plain categoryKeys props (Own (JStr "General")) Hp eq_refl)
    as (category & -> & Hcategory).
  destruct (chain_plain typeKeys props (Own (JStr "Other")) Hp eq_refl)
    as (type & -> & Htype).
  rewrite Hid. cbn [bind].
  destruct (toString_simple _ Htitle) as (t & ->).
  destruct (toString_simple _ Hcompany) as (c & ->).
  destruct (toString_simple _ Hdescription) as (d & ->).
  destruct (toString_simple _ Hurl) as (u & ->).
  destruct (toString_simple _ Hlocation) as (lo & ->).
  destruct (toString_simple _ Hcategory) as (ca & ->).
  destruct (toString_simple _ Htype) as (ty & ->).
  cbn [bind].
  destruct (probe_plain dateKeys props Hp) as ([d0|] & -> & Hd); cbn [bind].
  - destruct (newDate_simple _ Hd) as ([t0|] & ->); cbn [bind]; eexists; reflexivity.
  - eexists; reflexivity.
Qed.

End WithDates.

(** C6. For a raw item whose [id], [guid] and [@_id] are all absent (or
    falsy), [normalizeJob] synthesizes the external id, and the id does not
    depend on the run: two runs on the same item and source URL, at any two
    times, give the same [externalId]; the id is the text
    [sourceUrl-title-company] with every non-alphanumeric character replaced
    by ['-'], lower-cased and cut at 200; and on a plain item the run does
    return. *)
Theorem synthesized_externalId_deterministic
    (parseDate timeOfNumber : string -> option Z) (now1 now2 : Z)
    (job : JsVal) (sourceUrl : string) :
  probe job idKeys = Some None ->
  option_map externalId (normalizeJob parseDate timeOfNumber now1 job sourceUrl) =
  option_map externalId (normalizeJob parseDate timeOfNumber now2 job sourceUrl)
  /\
  (forall r,
     normalizeJob parseDate timeOfNumber now1 job sourceUrl = Some r ->
     exists title company t c,
       chain job titleKeys (Own (JStr "Untitled Position")) = Some title /\
       chain job companyKeys (Own (JStr "Unknown Company")) = Some company /\
       toString title = Some t /\ toString company = Some c /\
       externalId r = synthesizedId sourceUrl t c)
  /\
  (forall props,
     job = JObj props -> plain props = true ->
     exists r, normalizeJob parseDate timeOfNumber now1 job sourceUrl = Some r).
Proof.
  intros Hid. split; [|split].
  - apply externalId_clock_independent.
  - intros r. now apply normalizeJob_synthesized.
  - intros props -> Hp. now apply plain_item_normalizes.
Qed.

Lemma synthesized_externalId_deterministic_witness :
  probe sampleItem idKeys = Some None /\
  option_map externalId
    (normalizeJob (fun _ => None) (fun _ => None) 5 sampleItem "https://jobs.example/feed") =
  option_map externalId
    (normalizeJob (fun _ => None) (fun _ => None) 9 sampleItem "https://jobs.example/feed") /\
  option_map externalId
    (normalizeJob (fun _ => None) (fun _ => None) 9 sampleItem "https://jobs.example/feed") =
  Some "https---jobs-example-feed-senior-engineer--remote--acme---co-".
Proof.
  split; [reflexivity|]. split; [|reflexivity].
  exact (proj1 (synthesized_externalId_deterministic (fun _ => None) (fun _ => None)
                  5 9 sampleItem "https://jobs.example/feed" eq_refl)).
Defined.

End NormalizeFacts.

(** ** [extractJobs] *)

Module ExtractFacts.
Import Js Fetcher.

Lemma get_own (v : JsVal) (k : string) :
  ownKey k = true -> nullish v = false ->
  get v k = Some (Own (match v with
                       | JObj props | JArr _ props =>
                           match assoc k props with
                           | Some x => x
                           | None => JUndefined
                           end
                       | _ => JUndefined
                       end)).
Proof.
  unfold ownKey. intros Hk Hv. apply negb_true_iff in Hk.
  assert (Ho : mem k objectProto = false).
  { unfold mem in *. rewrite existsb_app in Hk.
    now apply orb_false_iff in Hk. }
  destruct v as [| |b|r|s|props|elems props];
    try discriminate Hv; cbn [get]; unfold own_or, inherited;
    rewrite ?Hk, ?Ho; try reflexivity;
    destruct (assoc k props); reflexivity.
Qed.

Lemma truthyVal_not_nullish (v : JsVal) : truthyVal v = true -> nullish v = false.
Proof. destruct v; simpl; congruence. Qed.

(** On own keys the [&&] chain of the source evaluates to the value the
    path holds. *)
Lemma andPath_valueAt (keys : list string) :
  forallb ownKey keys = true ->
  forall v, keys = [] \/ nullish v = false ->
  exists x, andPath (Own v) keys = Some x /\
            truthy x = truthyVal (valueAt v keys) /\
            (truthy x = true -> x = Own (valueAt v keys)).
Proof.
  induction keys as [|k ks IH]; intros Hkeys v Hv.
  - exists (Own v). repeat split; reflexivity.
  - destruct Hv as [Hv|Hv]; [discriminate Hv|].
    simpl in Hkeys. apply andb_true_iff in Hkeys. destruct Hkeys as [Hk Hks].
    cbn [andPath lget bind]. rewrite (get_own v k Hk Hv). cbn [bind truthy].
    set (w := match v with
              | JObj props | JArr _ props =>
                  match assoc k props with Some x => x | None => JUndefined end
              | _ => JUndefined
              end).
    assert (Hval : valueAt v (k :: ks) = if truthyVal w then valueAt w ks else JUndefined).
    { subst w. destruct v as [| |b|r|s|props|elems props];
        try reflexivity; simpl; destruct (assoc k props); reflexivity. }
    rewrite Hval.
    destruct (truthyVal w) eqn:Hw.
    + apply (IH Hks w). right. now apply truthyVal_not_nullish.
    + exists (Own w). simpl. rewrite Hw. repeat split; discriminate.
Qed.

Lemma asArray_itemsOf (v : JsVal) : asArray (Own v) = itemsOf v.
Proof. destruct v; reflexivity. Qed.

Lemma shape_test (doc : JsVal) (s : Shape) :
  nullish doc = false ->
  exists x, andPath (Own doc) (shapePath s) = Some x /\
            truthy x = matchesShape doc s /\
            (truthy x = true -> asArray x = itemsOf (valueAt doc (shapePath s))).
Proof.
  intros Hdoc.
  destruct (andPath_valueAt (shapePath s)) with (v := doc) as (x & Hx & Ht & Hv).
  - destruct s; reflexivity.
  - now right.
  - exists x. repeat split; [exact Hx | exact Ht |].
    intros H. rewrite (Hv H). apply asArray_itemsOf.
Qed.

(** The [if]/[else if] chain of the source selects what the design says. *)
Lemma selectJobs_specItems (doc : JsVal) :
  nullish doc = false -> selectJobs doc = Some (specItems doc).
Proof.
  intros Hdoc. unfold selectJobs, specItems, shapePriority.
  destruct (shape_test doc RssChannelItem Hdoc) as (x1 & E1 & T1 & A1).
  destruct (shape_test doc FeedEntry Hdoc) as (x2 & E2 & T2 & A2).
  destruct (shape_test doc JobsJob Hdoc) as (x3 & E3 & T3 & A3).
  destruct (shape_test doc BareJob Hdoc) as (x4 & E4 & T4 & A4).
  cbn [shapePath] in E1, E2, E3, E4.
  rewrite E1. cbn [bind find]. rewrite <- T1.
  destruct (truthy x1); [now rewrite A1|].
  rewrite E2. cbn [bind]. rewrite <- T2.
  destruct (truthy x2); [now rewrite A2|].
  rewrite E3. cbn [bind]. rewrite <- T3.
  destruct (truthy x3); [now rewrite A3|].
  rewrite E4. cbn [bind]. rewrite <- T4.
  destruct (truthy x4); [now rewrite A4|].
  destruct doc; reflexivity.
Qed.

Lemma selectJobs_nullish (doc : JsVal) :
  nullish doc = true -> selectJobs doc = None /\ specItems doc = [].
Proof. destruct doc; try discriminate; intros _; split; reflexivity. Qed.

(** C5. [extractJobs] recognizes the shapes in the order [rss.channel.item],
    [feed.entry], [jobs.job], [job], top-level array: it returns the
    normalized items of the first shape that matches (none when
    [normalizeJob] throws on one of them, the [catch] of the source), so it
    returns no job and no error when no shape matches; and a document that
    is an array and also holds an [rss.channel.item] is read through the RSS
    path. *)
Theorem extractJobs_shape_precedence
    (parseDate timeOfNumber : string -> option Z) (now : Z) (sourceUrl : string) :
  (forall doc,
     extractJobs parseDate timeOfNumber now doc sourceUrl =
     match sequence (map (fun job => normalizeJob parseDate timeOfNumber now job sourceUrl)
                         (specItems doc)) with
     | Some normalized => normalized
     | None => []
     end) /\
  (forall doc,
     find (matchesShape doc) shapePriority = None -> isArray doc = false ->
     extractJobs parseDate timeOfNumber now doc sourceUrl = []) /\
  (forall elems props,
     matchesShape (JArr elems props) RssChannelItem = true ->
     selectJobs (JArr elems props) =
     Some (itemsOf (valueAt (JArr elems props) ["rss"; "channel"; "item"]))) /\
  length (extractJobs parseDate timeOfNumber now rssAndArray sourceUrl) = 1.
Proof.
  assert (Hmain : forall doc,
     extractJobs parseDate timeOfNumber now doc sourceUrl =
     match sequence (map (fun job => normalizeJob parseDate timeOfNumber now job sourceUrl)
                         (specItems doc)) with
     | Some normalized => normalized
     | None => []
     end).
  { intros doc. unfold extractJobs.
    destruct (nullish doc) eqn:Hn.
    - destruct (selectJobs_nullish doc Hn) as [-> ->]. reflexivity.
    - now rewrite (selectJobs_specItems doc Hn). }
  split; [exact Hmain|]. split; [|split].
  - intros doc Hfind Harr. rewrite Hmain. unfold specItems. rewrite Hfind.
    destruct doc; try reflexivity. discriminate Harr.
  - intros elems props Hm. rewrite selectJobs_specItems by reflexivity.
    unfold specItems, shapePriority. cbn [find]. now rewrite Hm.
  - reflexivity.
Qed.

End ExtractFacts.

(* ===================================================================== *)
(** * Properties of the collection *)
(* ===================================================================== *)

Module ModelFacts.
Import Model.

Lemma setAt_length {A : Type} (i : nat) (x : A) (l : list A) :
  length (setAt i x l) = length l.
Proof.
  revert i. induction l as [|y r IH]; intros [|i]; simpl; auto.
Qed.

Lemma nth_error_setAt_eq {A : Type} (i : nat) (x : A) (l : list A) :
  i < length l -> nth_error (setAt i x l) i = Some x.
Proof.
  revert i. induction l as [|y r IH]; intros [|i]; simpl; intros H;
    try lia; auto. apply IH. lia.
Qed.

Lemma nth_error_setAt_ne {A : Type} (i j : nat) (x : A) (l : list A) :
  i <> j -> nth_error (setAt i x l) j = nth_error l j.
Proof.
  revert i j. induction l as [|y r IH]; intros [|i] [|j] H; simpl; auto;
    try congruence.
Qed.

Lemma nth_error_in_range {A : Type} (l : list A) (i : nat) (x : A) :
  nth_error l i = Some x -> i < length l.
Proof. intros H. apply nth_error_Some. congruence. Qed.

Lemma setAt_same {A : Type} (i : nat) (x : A) (l : list A) :
  nth_error l i = Some x -> setAt i x l = l.
Proof.
  revert i. induction l as [|y r IH]; intros [|i]; simpl; intros H;
    try discriminate; [congruence | f_equal; auto].
Qed.

(** ** [findOne] *)

Lemma findOneFrom_Some (k : nat) (eid u : string) (coll : Collection)
    (i : nat) (doc : Job) :
  findOneFrom k eid u coll = Some (i, doc) ->
  exists p, i = k + p /\ nth_error coll p = Some doc /\
            matches eid u doc = true /\
            forall q d, q < p -> nth_error coll q = Some d ->
                        matches eid u d = false.
Proof.
  revert k. induction coll as [|d0 rest IH]; simpl; intros k H; [discriminate|].
  destruct (matches eid u d0) eqn:Hm.
  - injection H as <- <-. exists 0. repeat split; auto; try lia.
  - destruct (IH _ H) as (p & -> & Hn & Hmd & Hbefore).
    exists (S p). repeat split; auto; try lia.
    intros [|q] d Hq Hd; simpl in Hd.
    + now injection Hd as <-.
    + apply (Hbefore q); [lia | exact Hd].
Qed.

Lemma findOneFrom_None (k : nat) (eid u : string) (coll : Collection) :
  findOneFrom k eid u coll = None <->
  forall q d, nth_error coll q = Some d -> matches eid u d = false.
Proof.
  revert k. induction coll as [|d0 rest IH]; simpl; intros k.
  - split; [|reflexivity]. intros _ [|q] d H; discriminate H.
  - destruct (matches eid u d0) eqn:Hm.
    + split; [discriminate|]. intros H. specialize (H 0 d0 eq_refl). congruence.
    + rewrite IH. split.
      * intros H [|q] d Hd; simpl in Hd; [now injection Hd as <- | eauto].
      * intros H q d Hd. apply (H (S q)). exact Hd.
Qed.

Lemma findOne_Some (eid u : string) (coll : Collection) (i : nat) (doc : Job) :
  findOne eid u coll = Some (i, doc) ->
  nth_error coll i = Some doc /\ matches eid u doc = true.
Proof.
  intros H. destruct (findOneFrom_Some _ _ _ _ _ _ H) as (p & -> & Hn & Hm & _).
  now split.
Qed.

(** When one record only matches, [findOne] returns it. *)
Lemma findOne_only (eid u : string) (coll : Collection) (i : nat) (doc : Job) :
  nth_error coll i = Some doc -> matches eid u doc = true ->
  (forall j d, j <> i -> nth_error coll j = Some d -> matches eid u d = false) ->
  findOne eid u coll = Some (i, doc).
Proof.
  intros Hn Hm Hothers.
  destruct (findOne eid u coll) as [[j d]|] eqn:Hf.
  - destruct (findOne_Some _ _ _ _ _ Hf) as [Hj Hmj].
    destruct (Nat.eq_dec j i) as [->|Hne].
    + congruence.
    + rewrite (Hothers j d Hne Hj) in Hmj. discriminate.
  - unfold findOne in Hf. rewrite findOneFrom_None in Hf.
    rewrite (Hf i doc Hn) in Hm. discriminate.
Qed.

(** [findOne] returns the first record that matches. *)
Lemma findOne_first (eid u : string) (coll : Collection) (k : nat) (doc : Job) :
  nth_error coll k = Some doc -> matches eid u doc = true ->
  (forall q d, q < k -> nth_error coll q = Some d -> matches eid u d = false) ->
  findOne eid u coll = Some (k, doc).
Proof.
  intros Hn Hm Hbefore.
  destruct (findOne eid u coll) as [[j d]|] eqn:Hf.
  - destruct (findOneFrom_Some _ _ _ _ _ _ Hf) as (p & -> & Hp & Hmp & Hearlier).
    cbn [Nat.add] in *.
    destruct (Nat.lt_trichotomy p k) as [Hlt|[->|Hgt]].
    + rewrite (Hbefore p d Hlt Hp) in Hmp. discriminate.
    + congruence.
    + rewrite (Hearlier k doc Hgt Hn) in Hm. discriminate.
  - unfold findOne in Hf. rewrite findOneFrom_None in Hf.
    rewrite (Hf k doc Hn) in Hm. discriminate.
Qed.

(** ** The unique indexes *)

Lemma violatedFrom_None (k : nat) (self : option nat) (doc : Job)
    (coll : Collection) :
  violatedFrom k self doc coll = None <->
  forall q d, nth_error coll q = Some d -> selfIs self (k + q) = false ->
              externalId d <> externalId doc /\ url d <> url doc.
Proof.
  revert k. induction coll as [|d0 rest IH]; intros k; cbn [violatedFrom].
  - split; [|reflexivity]. intros _ [|q] d H; discriminate H.
  - destruct (selfIs self k) eqn:Hs; cbn [negb andb].
    + rewrite IH. split.
      * intros H [|q] d Hd Hq; simpl in Hd.
        -- rewrite Nat.add_0_r in Hq. congruence.
        -- apply (H q d Hd). now rewrite Nat.add_succ_comm.
      * intros H q d Hd Hq. apply (H (S q) d Hd). now rewrite <- Nat.add_succ_comm.
    + destruct (String.eqb (externalId d0) (externalId doc)) eqn:He.
      { split; [discriminate|]. intros H.
        apply String.eqb_eq in He.
        destruct (H 0 d0 eq_refl) as [Hx _]; [now rewrite Nat.add_0_r | contradiction]. }
      destruct (String.eqb (url d0) (url doc)) eqn:Hu.
      { split; [discriminate|]. intros H.
        apply String.eqb_eq in Hu.
        destruct (H 0 d0 eq_refl) as [_ Hx]; [now rewrite Nat.add_0_r | contradiction]. }
      apply String.eqb_neq in He, Hu.
      rewrite IH. split.
      * intros H [|q] d Hd Hq; simpl in Hd.
        -- injection Hd as <-. now split.
        -- apply (H q d Hd). now rewrite Nat.add_succ_comm.
      * intros H q d Hd Hq. apply (H (S q) d Hd). now rewrite <- Nat.add_succ_comm.
Qed.

Lemma violated_None (self : option nat) (doc : Job) (coll : Collection) :
  violated self doc coll = None <->
  forall q d, nth_error coll q = Some d -> selfIs self q = false ->
              externalId d <> externalId doc /\ url d <> url doc.
Proof. unfold violated. now rewrite violatedFrom_None. Qed.

(** When one other record only shares a key with the document, the index
    of that key is the one violated. *)
Lemma violatedFrom_one (k self : nat) (doc : Job) (coll : Collection)
    (q : nat) (d : Job) :
  nth_error coll q = Some d -> k + q <> self ->
  externalId d = externalId doc \/ url d = url doc ->
  (forall q' d', q' <> q -> k + q' <> self -> nth_error coll q' = Some d' ->
                 externalId d' <> externalId doc /\ url d' <> url doc) ->
  violatedFrom k (Some self) doc coll =
    Some (if String.eqb (externalId d) (externalId doc)
          then "externalId_1" else "url_1").
Proof.
  revert k q. induction coll as [|d0 rest IH]; intros k q Hq Hself Hkey Hothers.
  - destruct q; discriminate Hq.
  - cbn [violatedFrom selfIs]. destruct q as [|q]; cbn [nth_error] in Hq.
    + injection Hq as ->. rewrite Nat.add_0_r in Hself.
      apply Nat.eqb_neq in Hself. rewrite Hself. cbn [negb andb].
      destruct (String.eqb (externalId d) (externalId doc)) eqn:He; [reflexivity|].
      apply String.eqb_neq in He. destruct Hkey as [Hkey|Hkey]; [contradiction|].
      apply String.eqb_eq in Hkey. now rewrite Hkey.
    + assert (Hstep : (if negb (Nat.eqb k self) &&
                          String.eqb (externalId d0) (externalId doc)
                       then Some "externalId_1"
                       else if negb (Nat.eqb k self) &&
                               String.eqb (url d0) (url doc)
                            then Some "url_1"
                            else violatedFrom (S k) (Some self) doc rest) =
                      violatedFrom (S k) (Some self) doc rest).
      { destruct (Nat.eqb_spec k self) as [Hk|Hk]; [reflexivity|].
        cbn [negb andb].
        destruct (Hothers 0 d0) as [He Hu];
          [discriminate | now rewrite Nat.add_0_r | reflexivity |].
        apply String.eqb_neq in He, Hu. now rewrite He, Hu. }
      rewrite Hstep. apply (IH (S k) q Hq).
      * now rewrite Nat.add_succ_comm.
      * exact Hkey.
      * intros q' d' Hq' Hs' Hd'. apply (Hothers (S q') d').
        -- congruence.
        -- now rewrite <- Nat.add_succ_comm.
        -- exact Hd'.
Qed.

Lemma pick_same_string (loaded edited : string) :
  pick String.eqb loaded edited loaded = edited.
Proof.
  unfold pick. destruct (String.eqb edited loaded) eqn:E; [|reflexivity].
  now apply String.eqb_eq in E.
Qed.

Lemma pick_same_Z (loaded edited : Z) :
  pick Z.eqb loaded edited loaded = edited.
Proof.
  unfold pick. destruct (Z.eqb edited loaded) eqn:E; [|reflexivity].
  now apply Z.eqb_eq in E.
Qed.

(** Saving a document that nobody changed since it was loaded stores the
    edited document. *)
Lemma applyChanges_unchanged (loaded : Job) (jobData : JobData.t) (now : Z) :
  applyChanges loaded (assign loaded jobData now) loaded = assign loaded jobData now.
Proof.
  unfold applyChanges. rewrite !pick_same_string, !pick_same_Z.
  destruct loaded; reflexivity.
Qed.

End ModelFacts.

(* ===================================================================== *)
(** * Properties of the processor *)
(* ===================================================================== *)

Module ProcessJobFacts.
Import Model Processor ModelFacts.

Lemma falsy_false (field : option string) :
  falsy field = false -> exists s, field = Some s /\ isEmpty s = false.
Proof.
  destruct field as [s|]; simpl; [|discriminate]. intros H. now exists s.
Qed.

Lemma missingRequired_false (jobData : JobData.t) :
  missingRequired jobData = false ->
  falsy (JobData.externalId jobData) = false /\
  falsy (JobData.title jobData) = false /\
  falsy (JobData.company jobData) = false /\
  falsy (JobData.url jobData) = false.
Proof.
  unfold missingRequired. intros H.
  repeat (apply orb_false_iff in H; destruct H as [H ?]). auto.
Qed.

Lemma matches_false (eid u : string) (doc : Job) :
  matches eid u doc = false <-> externalId doc <> eid /\ url doc <> u.
Proof.
  unfold matches. rewrite orb_false_iff, !String.eqb_neq. tauto.
Qed.

Lemma matches_true (eid u : string) (doc : Job) :
  matches eid u doc = true <-> externalId doc = eid \/ url doc = u.
Proof.
  unfold matches. rewrite orb_true_iff, !String.eqb_eq. tauto.
Qed.

(** The keys of the documents [processJob] writes are the candidate's. *)
Lemma newJob_keys (jobData : JobData.t) (now : Z) :
  externalId (newJob jobData now) = keyId jobData /\
  url (newJob jobData now) = keyUrl jobData.
Proof. split; reflexivity. Qed.

Lemma assign_keys (loaded : Job) (jobData : JobData.t) (now : Z) :
  missingRequired jobData = false ->
  externalId (assign loaded jobData now) = keyId jobData /\
  url (assign loaded jobData now) = keyUrl jobData.
Proof.
  intros H. destruct (missingRequired_false _ H) as (He & _ & _ & Hu).
  destruct (falsy_false _ He) as (e & Ee & _).
  destruct (falsy_false _ Hu) as (u & Eu & _).
  unfold keyId, keyUrl. cbn [assign externalId url]. rewrite Ee, Eu.
  split; reflexivity.
Qed.

Lemma holds_newJob (jobData : JobData.t) (now : Z) :
  holds (newJob jobData now) jobData.
Proof.
  unfold holds, newJob, carried; cbn.
  destruct jobData as [e t c ca ty lo d u p up]; cbn.
  destruct e, t, c, ca, ty, lo, d, u, p; repeat split.
Qed.

Lemma holds_assign (loaded : Job) (jobData : JobData.t) (now : Z) :
  holds (assign loaded jobData now) jobData.
Proof.
  unfold holds, assign, carried; cbn.
  destruct jobData as [e t c ca ty lo d u p up]; cbn.
  destruct e, t, c, ca, ty, lo, d, u, p; repeat split.
Qed.

(** The schema accepts what an acceptable candidate makes. *)
Lemma acceptable_newJob (jobData : JobData.t) (now : Z) :
  acceptable jobData = true -> validate (newJob jobData now) = [].
Proof.
  unfold acceptable. intros H.
  apply andb_true_iff in H. destruct H as [H Hty].
  apply andb_true_iff in H. destruct H as [Hreq Hd].
  apply negb_true_iff in Hreq, Hd.
  destruct (missingRequired_false _ Hreq) as (He & Ht & Hc & Hu).
  destruct (falsy_false _ He) as (e & Ee & Ne).
  destruct (falsy_false _ Ht) as (t & Et & Nt).
  destruct (falsy_false _ Hc) as (c & Ec & Nc).
  destruct (falsy_false _ Hu) as (u & Eu & Nu).
  destruct (falsy_false _ Hd) as (d & Ed & Nd).
  unfold validate, newJob. cbn [externalId title company type description url].
  rewrite Ee, Et, Ec, Eu, Ed. cbn [orDefault]. rewrite Ne, Nt, Nc, Nu, Nd.
  destruct (JobData.type jobData) as [ty|]; cbn [orDefault].
  - now rewrite Hty.
  - reflexivity.
Qed.

Lemma acceptable_assign (loaded : Job) (jobData : JobData.t) (now : Z) :
  acceptable jobData = true -> Js.mem (type loaded) jobTypes = true ->
  validate (assign loaded jobData now) = [].
Proof.
  unfold acceptable. intros H Hloaded.
  apply andb_true_iff in H. destruct H as [H Hty].
  apply andb_true_iff in H. destruct H as [Hreq Hd].
  apply negb_true_iff in Hreq, Hd.
  destruct (missingRequired_false _ Hreq) as (He & Ht & Hc & Hu).
  destruct (falsy_false _ He) as (e & Ee & Ne).
  destruct (falsy_false _ Ht) as (t & Et & Nt).
  destruct (falsy_false _ Hc) as (c & Ec & Nc).
  destruct (falsy_false _ Hu) as (u & Eu & Nu).
  destruct (falsy_false _ Hd) as (d & Ed & Nd).
  unfold validate, assign. cbn [externalId title company type description url].
  rewrite Ee, Et, Ec, Eu, Ed. cbn [orDefault]. rewrite Ne, Nt, Nc, Nu, Nd.
  destruct (JobData.type jobData) as [ty|]; cbn [orDefault].
  - now rewrite Hty.
  - now rewrite Hloaded.
Qed.

(** A document that passes the validators has a type of the enum. *)
Lemma validate_type (doc : Job) :
  validate doc = [] -> Js.mem (type doc) jobTypes = true.
Proof.
  unfold validate. intros H.
  destruct (Js.mem (type doc) jobTypes); [reflexivity|]. exfalso.
  destruct (isEmpty (externalId doc)); [discriminate|].
  destruct (isEmpty (title doc)); [discriminate|].
  destruct (isEmpty (company doc)); discriminate.
Qed.

(** ** The two branches of [processJob] *)

Lemma savePhase_created (now : Z) (jobData : JobData.t) (coll : Collection) :
  (forall j d, nth_error coll j = Some d ->
               externalId d <> keyId jobData /\ url d <> keyUrl jobData) ->
  validate (newJob jobData now) = [] ->
  savePhase now jobData None coll =
  (resultCreated (newJob jobData now), (coll ++ [newJob jobData now])%list).
Proof.
  intros Hfree Hvalid. unfold savePhase, saveNew. rewrite Hvalid.
  assert (Hv : violated None (newJob jobData now) coll = None).
  { apply violated_None. intros q d Hd _. exact (Hfree q d Hd). }
  now rewrite Hv.
Qed.

Lemma savePhase_updated (now : Z) (jobData : JobData.t) (coll : Collection)
    (i : nat) (loaded : Job) :
  missingRequired jobData = false ->
  nth_error coll i = Some loaded ->
  (forall j d, j <> i -> nth_error coll j = Some d ->
               externalId d <> keyId jobData /\ url d <> keyUrl jobData) ->
  validate (assign loaded jobData now) = [] ->
  savePhase now jobData (Some (i, loaded)) coll =
  (resultUpdated (assign loaded jobData now),
   setAt i (assign loaded jobData now) coll).
Proof.
  intros Hreq Hi Hothers Hvalid. unfold savePhase, saveExisting.
  rewrite Hvalid, Hi, applyChanges_unchanged.
  destruct (assign_keys loaded jobData now Hreq) as [Ke Ku].
  assert (Hv : violated (Some i) (assign loaded jobData now) coll = None).
  { apply violated_None. intros q d Hd Hq. rewrite Ke, Ku.
    apply (Hothers q d); [|exact Hd].
    simpl in Hq. now apply Nat.eqb_neq in Hq. }
  now rewrite Hv.
Qed.

(** C7, first half, and the reason a rejected candidate cannot disturb a
    batch: the validation failure touches nothing. *)
Lemma processJob_missing (now : Z) (jobData : JobData.t) (coll : Collection) :
  missingRequired jobData = true ->
  processJob now jobData coll = (resultFailed missingRequiredError jobData, coll).
Proof. intros H. unfold processJob. now rewrite H. Qed.

(** [processJob] resolves to a structured outcome on every input. *)
Lemma savePhase_structured (now : Z) (jobData : JobData.t)
    (existingJob : option (nat * Job)) (coll : Collection) :
  structured (fst (savePhase now jobData existingJob coll)).
Proof.
  unfold savePhase, structured.
  destruct existingJob as [[i loaded]|].
  - destruct (saveExisting _ _ _ _); cbn; auto.
  - destruct (saveNew _ _); cbn; auto.
Qed.

Lemma processJob_structured (now : Z) (jobData : JobData.t) (coll : Collection) :
  structured (fst (processJob now jobData coll)).
Proof.
  unfold processJob. destruct (missingRequired jobData).
  - right. split; reflexivity.
  - apply savePhase_structured.
Qed.

(** The update branch: exactly one record matches, by either key. *)
Lemma processJob_updates (now : Z) (jobData : JobData.t) (coll : Collection)
    (i : nat) (doc : Job) :
  missingRequired jobData = false ->
  nth_error coll i = Some doc ->
  externalId doc = keyId jobData \/ url doc = keyUrl jobData ->
  (forall j d, j <> i -> nth_error coll j = Some d ->
               externalId d <> keyId jobData /\ url d <> keyUrl jobData) ->
  validate (assign doc jobData now) = [] ->
  processJob now jobData coll =
    (resultUpdated (assign doc jobData now),
     setAt i (assign doc jobData now) coll).
Proof.
  intros Hreq Hi Hmatch Hothers Hvalid.
  assert (Hfind : findOne (keyId jobData) (keyUrl jobData) coll = Some (i, doc)).
  { apply findOne_only; [exact Hi | now apply matches_true |].
    intros j d Hj Hd. apply matches_false. now apply (Hothers j d). }
  unfold processJob. rewrite Hreq. fold (keyId jobData) (keyUrl jobData).
  rewrite Hfind. cbv zeta.
  apply (savePhase_updated now jobData coll i doc Hreq Hi Hothers Hvalid).
Qed.

(** The insert branch: no record matches either key. *)
Lemma processJob_creates (now : Z) (jobData : JobData.t) (coll : Collection) :
  missingRequired jobData = false ->
  (forall j d, nth_error coll j = Some d ->
               externalId d <> keyId jobData /\ url d <> keyUrl jobData) ->
  validate (newJob jobData now) = [] ->
  processJob now jobData coll =
    (resultCreated (newJob jobData now), (coll ++ [newJob jobData now])%list).
Proof.
  intros Hreq Hfree Hvalid.
  assert (Hfind : findOne (keyId jobData) (keyUrl jobData) coll = None).
  { unfold findOne. apply findOneFrom_None. intros q d Hd.
    apply matches_false. now apply (Hfree q d). }
  unfold processJob. rewrite Hreq. fold (keyId jobData) (keyUrl jobData).
  rewrite Hfind. cbv zeta.
  apply (savePhase_created now jobData coll Hfree Hvalid).
Qed.

Lemma acceptable_required (jobData : JobData.t) :
  acceptable jobData = true -> missingRequired jobData = false.
Proof.
  unfold acceptable. intros H. apply andb_true_iff in H. destruct H as [H _].
  apply andb_true_iff in H. destruct H as [H _]. now apply negb_true_iff in H.
Qed.

(** When the externalId of the candidate is the one of a stored record and
    its url the one of another, the record found first is edited to carry
    both, and the unique index of the key it takes from the other refuses
    the write. *)
Lemma processJob_straddles (now : Z) (jobData : JobData.t) (coll : Collection)
    (i j : nat) (a b : Job) :
  missingRequired jobData = false -> uniqueKeys coll -> i <> j ->
  nth_error coll i = Some a -> nth_error coll j = Some b ->
  externalId a = keyId jobData -> url b = keyUrl jobData ->
  validate (assign (if Nat.ltb i j then a else b) jobData now) = [] ->
  processJob now jobData coll =
    (resultFailed (DuplicateKey (if Nat.ltb i j then "url_1" else "externalId_1"))
                  jobData, coll).
Proof.
  intros Hreq U Hij Hi Hj Ha Hb Hvalid.
  assert (Honly : forall q d, nth_error coll q = Some d ->
            externalId d = keyId jobData \/ url d = keyUrl jobData ->
            q = i \/ q = j).
  { intros q d Hq [He|Hu].
    - left. apply (U q i d a Hq Hi). left. congruence.
    - right. apply (U q j d b Hq Hj). right. congruence. }
  assert (Hab : externalId b <> keyId jobData /\ url a <> keyUrl jobData).
  { split; intros E; apply Hij.
    - apply (U i j a b Hi Hj). left. congruence.
    - apply (U i j a b Hi Hj). right. congruence. }
  destruct Hab as [Hbe Hau].
  unfold processJob. rewrite Hreq. fold (keyId jobData) (keyUrl jobData).
  destruct (Nat.ltb_spec i j) as [Hlt|Hge].
  - rewrite (findOne_first (keyId jobData) (keyUrl jobData) coll i a Hi).
    2:{ apply matches_true. now left. }
    2:{ intros q d Hq Hd. apply matches_false.
        split; intros E; destruct (Honly q d Hd) as [->| ->]; auto; lia. }
    cbv zeta. unfold savePhase, saveExisting.
    rewrite Hvalid, Hi, applyChanges_unchanged.
    destruct (assign_keys a jobData now Hreq) as [Ke Ku].
    unfold violated.
    rewrite (violatedFrom_one 0 i (assign a jobData now) coll j b Hj).
    + rewrite Ke. apply String.eqb_neq in Hbe. now rewrite Hbe.
    + cbn. congruence.
    + right. congruence.
    + intros q d Hq Hs Hd. cbn [Nat.add] in Hs. rewrite Ke, Ku.
      split; intros E; destruct (Honly q d Hd) as [->| ->]; auto; congruence.
  - assert (Hji : j < i) by lia.
    rewrite (findOne_first (keyId jobData) (keyUrl jobData) coll j b Hj).
    2:{ apply matches_true. now right. }
    2:{ intros q d Hq Hd. apply matches_false.
        split; intros E; destruct (Honly q d Hd) as [->| ->]; auto; lia. }
    cbv zeta. unfold savePhase, saveExisting.
    rewrite Hvalid, Hj, applyChanges_unchanged.
    destruct (assign_keys b jobData now Hreq) as [Ke Ku].
    unfold violated.
    rewrite (violatedFrom_one 0 j (assign b jobData now) coll i a Hi).
    + rewrite Ke. apply String.eqb_eq in Ha. now rewrite Ha.
    + cbn. congruence.
    + left. congruence.
    + intros q d Hq Hs Hd. cbn [Nat.add] in Hs. rewrite Ke, Ku.
      split; intros E; destruct (Honly q d Hd) as [->| ->]; auto; congruence.
Qed.

(** C3, as amended. With the four identity fields present: when exactly one
    stored record matches the candidate, by its externalId or by its url
    (either suffices), and the edited record passes the validators of the
    schema, [processJob] resolves to [updated] on that record, which then
    holds every field the candidate carries and the new [updatedAt]; when no
    record matches either key and the new record passes the validators, it
    is inserted and the outcome is [created]; and when, in a store whose
    keys are unique, the externalId is the one of a record and the url the
    one of another, the record found first passing the validators once
    edited, the outcome is [failed] with the duplicate-key error of the index
    of the key taken from the other record, and the store is left as it
    was. *)
Theorem processJob_identity_match (now : Z) (jobData : JobData.t)
    (coll : Collection) :
  missingRequired jobData = false ->
  (forall i doc,
     nth_error coll i = Some doc ->
     externalId doc = keyId jobData \/ url doc = keyUrl jobData ->
     (forall j d, j <> i -> nth_error coll j = Some d ->
                  externalId d <> keyId jobData /\ url d <> keyUrl jobData) ->
     validate (assign doc jobData now) = [] ->
     processJob now jobData coll =
       (resultUpdated (assign doc jobData now),
        setAt i (assign doc jobData now) coll) /\
     nth_error (setAt i (assign doc jobData now) coll) i =
       Some (assign doc jobData now) /\
     length (setAt i (assign doc jobData now) coll) = length coll /\
     holds (assign doc jobData now) jobData /\
     updatedAt (assign doc jobData now) = now)
  /\
  ((forall j d, nth_error coll j = Some d ->
                externalId d <> keyId jobData /\ url d <> keyUrl jobData) ->
   validate (newJob jobData now) = [] ->
   processJob now jobData coll =
     (resultCreated (newJob jobData now), (coll ++ [newJob jobData now])%list) /\
   holds (newJob jobData now) jobData)
  /\
  (forall i j a b,
     uniqueKeys coll -> i <> j ->
     nth_error coll i = Some a -> nth_error coll j = Some b ->
     externalId a = keyId jobData -> url b = keyUrl jobData ->
     validate (assign (if Nat.ltb i j then a else b) jobData now) = [] ->
     processJob now jobData coll =
       (resultFailed
          (DuplicateKey (if Nat.ltb i j then "url_1" else "externalId_1"))
          jobData, coll)).
Proof.
  intros Hreq. split; [|split].
  - intros i doc Hi Hmatch Hothers Hvalid.
    split; [now apply processJob_updates|].
    split; [apply nth_error_setAt_eq; eapply nth_error_in_range; eauto|].
    split; [apply setAt_length|].
    split; [apply holds_assign | reflexivity].
  - intros Hfree Hvalid.
    split; [now apply processJob_creates | apply holds_newJob].
  - intros i j a b U Hij Hi Hj Ha Hb Hvalid.
    now apply (processJob_straddles now jobData coll i j a b).
Qed.

Lemma processJob_identity_match_witness :
  missingRequired Samples.straddling = false /\
  processJob 7 Samples.straddling [Samples.stored "b" "https://acme.example/2"] =
    (resultUpdated (assign (Samples.stored "b" "https://acme.example/2") Samples.straddling 7),
     [assign (Samples.stored "b" "https://acme.example/2") Samples.straddling 7]) /\
  processJob 7 Samples.straddling [] =
    (resultCreated (newJob Samples.straddling 7), [newJob Samples.straddling 7]) /\
  processJob 7 Samples.straddling Samples.twoJobs =
    (resultFailed (DuplicateKey "url_1") Samples.straddling, Samples.twoJobs).
Proof.
  split; [reflexivity|].
  destruct (processJob_identity_match 7 Samples.straddling
              [Samples.stored "b" "https://acme.example/2"] eq_refl) as [Hup _].
  destruct (processJob_identity_match 7 Samples.straddling [] eq_refl)
    as (_ & Hnew & _).
  destruct (processJob_identity_match 7 Samples.straddling Samples.twoJobs eq_refl)
    as (_ & _ & Hboth).
  split; [|split].
  - apply (Hup 0 (Samples.stored "b" "https://acme.example/2")).
    + reflexivity.
    + right. reflexivity.
    + intros [|[|j]] d Hj Hd; try congruence; discriminate Hd.
    + reflexivity.
  - apply Hnew.
    + intros [|j] d Hd; discriminate Hd.
    + reflexivity.
  - apply (Hboth 0 1 (Samples.stored "a" "https://acme.example/1")
                     (Samples.stored "b" "https://acme.example/2")).
    + intros [|[|[|i]]] [|[|[|j]]] x y Hx Hy;
        cbn in Hx, Hy; try discriminate; try reflexivity;
        injection Hx as <-; injection Hy as <-; intros [E|E]; discriminate E.
    + discriminate.
    + reflexivity.
    + reflexivity.
    + reflexivity.
    + reflexivity.
    + reflexivity.
Defined.

(** C3, the claim as stated, fails: a record matches the candidate's url
    (and another its externalId), yet the outcome is [failed] and nothing is
    overwritten: the edited first record would take the url of the second,
    which the unique index on [url] refuses. *)
Lemma processJob_identity_match_conflict :
  nth_error Samples.twoJobs 1 = Some (Samples.stored "b" "https://acme.example/2") /\
  matches (keyId Samples.straddling) (keyUrl Samples.straddling)
          (Samples.stored "b" "https://acme.example/2") = true /\
  missingRequired Samples.straddling = false /\
  processJob 7 Samples.straddling Samples.twoJobs =
    (resultFailed (DuplicateKey "url_1") Samples.straddling, Samples.twoJobs).
Proof. repeat split; reflexivity. Qed.

(** C2, as amended. For two submissions of one job (same externalId and
    url), each acceptable to the schema (the four identity fields, a
    description, a type that is absent or of the enum): against the empty
    collection the first call resolves to [created], the second to
    [updated], one record is stored, and it holds every field the second
    submission carries. *)
Theorem reconciliation_idempotent (now1 now2 : Z) (first second : JobData.t) :
  acceptable first = true -> acceptable second = true ->
  keyId second = keyId first -> keyUrl second = keyUrl first ->
  let record := assign (newJob first now1) second now2 in
  processJob now1 first [] = (resultCreated (newJob first now1), [newJob first now1]) /\
  processJob now2 second [newJob first now1] = (resultUpdated record, [record]) /\
  holds record second.
Proof.
  intros H1 H2 Kid Kurl record.
  pose proof (acceptable_required first H1) as R1.
  pose proof (acceptable_required second H2) as R2.
  split; [|split].
  - apply (processJob_creates now1 first [] R1).
    + intros [|j] d Hd; discriminate Hd.
    + now apply acceptable_newJob.
  - apply (processJob_updates now2 second [newJob first now1] 0 (newJob first now1) R2).
    + reflexivity.
    + left. now rewrite Kid.
    + intros [|[|j]] d Hj Hd; try congruence; discriminate Hd.
    + apply acceptable_assign; [exact H2|].
      apply validate_type. now apply acceptable_newJob.
  - apply holds_assign.
Qed.

Lemma reconciliation_idempotent_witness :
  acceptable Samples.posting = true /\ acceptable Samples.reposting = true /\
  processJob 1 Samples.posting [] =
    (resultCreated (newJob Samples.posting 1), [newJob Samples.posting 1]) /\
  processJob 2 Samples.reposting [newJob Samples.posting 1] =
    (resultUpdated (assign (newJob Samples.posting 1) Samples.reposting 2),
     [assign (newJob Samples.posting 1) Samples.reposting 2]) /\
  title (assign (newJob Samples.posting 1) Samples.reposting 2) = "Senior Engineer".
Proof.
  split; [reflexivity|]. split; [reflexivity|].
  destruct (reconciliation_idempotent 1 2 Samples.posting Samples.reposting
              eq_refl eq_refl eq_refl eq_refl) as (Hfirst & Hsecond & _).
  split; [exact Hfirst|]. split; [exact Hsecond | reflexivity].
Defined.

(** C2, the claim as stated, fails: a candidate with the four identity
    fields and no description is refused by the schema ([description] is
    required); both calls resolve to [failed] and no record is stored. *)
Lemma reconciliation_rejected :
  missingRequired Samples.noDescription = false /\
  processJob 1 Samples.noDescription [] =
    (resultFailed (ValidationError ["description"]) Samples.noDescription, []) /\
  processJob 2 Samples.noDescription
    (snd (processJob 1 Samples.noDescription [])) =
    (resultFailed (ValidationError ["description"]) Samples.noDescription, []).
Proof. repeat split; reflexivity. Qed.

End ProcessJobFacts.

(** ** [batchProcessJobs]: every call settles *)

Module BatchFacts.
Import Model Processor ModelFacts ProcessJobFacts.

Lemma lookupPhase_rank (jobData : JobData.t) (coll : Collection) :
  1 <= rank (lookupPhase jobData coll).
Proof.
  unfold lookupPhase. destruct (missingRequired jobData); simpl; lia.
Qed.

Lemma advance_rank (now : Z) (t : Task) (coll : Collection) :
  Nat.min 2 (S (rank t)) <= rank (fst (advance now t coll)).
Proof.
  destruct t as [jobData|jobData existingJob|r]; simpl.
  - pose proof (lookupPhase_rank jobData coll). lia.
  - destruct (savePhase now jobData existingJob coll). simpl. lia.
  - lia.
Qed.

Lemma step_tasks (i : nat) (now : Z) (coll : Collection) (tasks : list Task) :
  length (snd (step (i, now) (coll, tasks))) = length tasks /\
  (forall j, j <> i ->
     nth_error (snd (step (i, now) (coll, tasks))) j = nth_error tasks j) /\
  (forall t, nth_error tasks i = Some t ->
     nth_error (snd (step (i, now) (coll, tasks))) i =
     Some (fst (advance now t coll))).
Proof.
  unfold step. destruct (nth_error tasks i) as [t|] eqn:Ht.
  - destruct (advance now t coll) as [t' coll'] eqn:Ha. cbn [snd].
    split; [apply setAt_length|]. split.
    + intros j Hj. now apply nth_error_setAt_ne.
    + intros t0 [= <-]. rewrite Ha. cbn [fst].
      apply nth_error_setAt_eq. eapply nth_error_in_range; eauto.
  - cbn [snd]. split; [reflexivity|]. split; [reflexivity|]. discriminate.
Qed.

Lemma step_rankAt (ev : nat * Z) (st : BatchState) (i : nat) :
  Nat.min 2 (rankAt (snd st) i + (if Nat.eqb (fst ev) i then 1 else 0))
  <= rankAt (snd (step ev st)) i.
Proof.
  destruct ev as [k now]. destruct st as [coll tasks]. cbn [fst snd].
  destruct (step_tasks k now coll tasks) as (_ & Hother & Hself).
  unfold rankAt.
  destruct (Nat.eqb k i) eqn:Hk.
  - apply Nat.eqb_eq in Hk. subst k.
    destruct (nth_error tasks i) as [t|] eqn:Ht.
    + rewrite (Hself t eq_refl). pose proof (advance_rank now t coll). lia.
    + unfold step. rewrite Ht. cbn [snd]. rewrite Ht. simpl. lia.
  - apply Nat.eqb_neq in Hk. rewrite (Hother i) by congruence.
    destruct (nth_error tasks i); lia.
Qed.

Lemma run_rankAt (schedule : Schedule) (st : BatchState) (i : nat) :
  Nat.min 2 (rankAt (snd st) i + count_occ Nat.eq_dec (map fst schedule) i)
  <= rankAt (snd (run schedule st)) i.
Proof.
  revert st. induction schedule as [|ev rest IH]; intros st.
  - unfold run. cbn [fold_left map count_occ]. lia.
  - cbn [run fold_left map count_occ].
    specialize (IH (step ev st)). fold (run rest (step ev st)) in *.
    pose proof (step_rankAt ev st i) as Hs.
    destruct (Nat.eq_dec (fst ev) i) as [E|E].
    + rewrite <- Nat.eqb_eq in E. rewrite E in Hs. lia.
    + rewrite <- Nat.eqb_neq in E. rewrite E in Hs. lia.
Qed.

Lemma run_length (schedule : Schedule) (st : BatchState) :
  length (snd (run schedule st)) = length (snd st).
Proof.
  revert st. induction schedule as [|[k now] rest IH]; intros [coll tasks].
  - reflexivity.
  - cbn [run fold_left]. fold (run rest (step (k, now) (coll, tasks))).
    rewrite IH. apply step_tasks.
Qed.

(** The results in hand when every call is served twice. *)
Lemma sequence_settled (tasks : list Task) :
  (forall i, i < length tasks -> rankAt tasks i = 2) ->
  exists results,
    Js.sequence (map settledResult tasks) = Some results /\
    length results = length tasks /\
    forall i r, nth_error results i = Some r ->
                exists value, r = Fulfilled value /\
                              nth_error tasks i = Some (Settled value).
Proof.
  induction tasks as [|t rest IH]; intros H.
  - exists []. repeat split; auto. intros [|i] r Hr; discriminate Hr.
  - assert (Ht : rank t = 2) by (apply (H 0); simpl; lia).
    destruct t as [|  |value]; try discriminate Ht.
    destruct IH as (results & Hs & Hl & Hr).
    { intros i Hi. apply (H (S i)). simpl. lia. }
    exists (Fulfilled value :: results). cbn [map settledResult Js.sequence].
    rewrite Hs. split; [reflexivity|]. split; [simpl; lia|].
    intros [|i] r Hi; simpl in Hi.
    + injection Hi as <-. now exists value.
    + apply (Hr i r Hi).
Qed.

Lemma run_settles (schedule : Schedule) (jobs : list JobData.t)
    (coll : Collection) :
  servedTwice (length jobs) schedule ->
  forall i, i < length (snd (run schedule (coll, map Pending jobs))) ->
            rankAt (snd (run schedule (coll, map Pending jobs))) i = 2.
Proof.
  intros Hfair i Hi. rewrite run_length in Hi. cbn [snd] in Hi.
  rewrite length_map in Hi.
  pose proof (run_rankAt schedule (coll, map Pending jobs) i) as Hr.
  specialize (Hfair i Hi).
  assert (Hle : rankAt (snd (run schedule (coll, map Pending jobs))) i <= 2).
  { unfold rankAt. destruct (nth_error _ i) as [[| |]|]; simpl; lia. }
  lia.
Qed.

(** The schedule in call order serves every call twice. *)
Lemma count_occ_seq (n start i : nat) :
  start <= i < start + n ->
  count_occ Nat.eq_dec (seq start n) i = 1.
Proof.
  revert start. induction n as [|n IH]; intros start H; [lia|].
  cbn [seq count_occ]. destruct (Nat.eq_dec start i) as [->|Hne].
  - f_equal. apply count_occ_not_In. rewrite in_seq. lia.
  - apply IH. lia.
Qed.

Lemma servedTwice_inOrder (now : Z) (n : nat) : servedTwice n (inOrder now n).
Proof.
  intros i Hi. unfold inOrder.
  rewrite map_app, count_occ_app, map_map. cbn [fst]. rewrite map_id.
  rewrite count_occ_seq by lia. lia.
Qed.

(** ** The tally *)

Lemma tally_total (results : list SettledResult) (stats : Stats) :
  total (fold_left tally results stats) = total stats.
Proof.
  revert stats. induction results as [|r rest IH]; intros stats; [reflexivity|].
  cbn [fold_left]. rewrite IH.
  destruct r as [value|reason]; cbn [tally]; [|reflexivity].
  destruct (success value); [|reflexivity].
  destruct (String.eqb (action value) "created"); [reflexivity|].
  destruct (String.eqb (action value) "updated"); reflexivity.
Qed.

Lemma tally_counted (results : list SettledResult) (stats : Stats) :
  Forall structuredResult results ->
  counted (fold_left tally results stats) = counted stats + length results.
Proof.
  revert stats. induction results as [|r rest IH]; intros stats H.
  - simpl. lia.
  - inversion H as [|? ? Hr Hrest]; subst. cbn [fold_left length].
    rewrite (IH _ Hrest).
    assert (counted (tally stats r) = S (counted stats)); [|lia].
    destruct r as [value|reason]; cbn [tally]; [|unfold counted; simpl; lia].
    destruct Hr as [[Hs [Ha|Ha]]|[Hs Ha]]; rewrite Hs, ?Ha; unfold counted; simpl; lia.
Qed.

Lemma advance_structured (now : Z) (t : Task) (coll : Collection) (value : Result) :
  (forall v, t = Settled v -> structured v) ->
  fst (advance now t coll) = Settled value -> structured value.
Proof.
  destruct t as [jobData|jobData existingJob|r]; cbn [advance]; intros Hin Ha.
  - unfold lookupPhase in Ha. destruct (missingRequired jobData); [|discriminate Ha].
    injection Ha as <-. right. split; reflexivity.
  - pose proof (savePhase_structured now jobData existingJob coll) as Hs.
    destruct (savePhase now jobData existingJob coll) as [r c].
    injection Ha as <-. exact Hs.
  - cbn [fst] in Ha. apply Hin. exact Ha.
Qed.

Lemma step_structured (ev : nat * Z) (st : BatchState) :
  allStructured (snd st) -> allStructured (snd (step ev st)).
Proof.
  destruct ev as [k now]. destruct st as [coll tasks]. cbn [snd].
  intros Hall i value Hi.
  destruct (step_tasks k now coll tasks) as (_ & Hother & Hself).
  destruct (Nat.eq_dec i k) as [->|Hne].
  - destruct (nth_error tasks k) as [t|] eqn:Ht.
    + rewrite (Hself t eq_refl) in Hi. injection Hi as Hi.
      apply (advance_structured now t coll); [|exact Hi].
      intros v ->. apply (Hall k v Ht).
    + unfold step in Hi. rewrite Ht in Hi. cbn [snd] in Hi. congruence.
  - rewrite (Hother i Hne) in Hi. apply (Hall i value Hi).
Qed.

Lemma run_structured (schedule : Schedule) (st : BatchState) :
  allStructured (snd st) -> allStructured (snd (run schedule st)).
Proof.
  revert st. induction schedule as [|ev rest IH]; intros st H; [exact H|].
  cbn [run fold_left]. apply (IH (step ev st)). now apply step_structured.
Qed.

Lemma pending_structured (jobs : list JobData.t) :
  allStructured (map Pending jobs).
Proof.
  intros i value H. rewrite nth_error_map in H.
  destruct (nth_error jobs i); discriminate H.
Qed.

(** What a batch resolves to under a schedule that serves it to the end. *)
Lemma batch_resolves (schedule : Schedule) (jobs : list JobData.t)
    (coll : Collection) :
  servedTwice (length jobs) schedule ->
  exists results,
    batchProcessJobs schedule jobs coll =
      Some (summarize (length jobs) results,
            fst (run schedule (coll, map Pending jobs))) /\
    length results = length jobs /\
    Forall structuredResult results /\
    forall i r, nth_error results i = Some r ->
      exists value, r = Fulfilled value /\
        nth_error (snd (run schedule (coll, map Pending jobs))) i =
        Some (Settled value).
Proof.
  intros Hfair.
  destruct (sequence_settled _ (run_settles schedule jobs coll Hfair))
    as (results & Hseq & Hlen & Hres).
  exists results. unfold batchProcessJobs.
  destruct (run schedule (coll, map Pending jobs)) as [coll' tasks] eqn:Hrun.
  cbn [fst snd] in *. rewrite Hseq. split; [reflexivity|].
  split.
  { rewrite Hlen. change tasks with (snd (coll', tasks)). rewrite <- Hrun.
    rewrite run_length. cbn [snd]. apply length_map. }
  split; [|exact Hres].
  apply Forall_forall. intros r Hin.
  destruct (In_nth_error _ _ Hin) as (i & Hi).
  destruct (Hres i r Hi) as (value & -> & Ht). cbn [structuredResult].
  pose proof (run_structured schedule (coll, map Pending jobs)
                (pending_structured jobs)) as Hall.
  rewrite Hrun in Hall. apply (Hall i value Ht).
Qed.


(** ** [batchProcessJobs]: a rejected candidate leaves the others alone *)

Lemma nth_error_snoc {A : Type} (l : list A) (x : A) (j : nat) (b : A) :
  nth_error (l ++ [x])%list j = Some b ->
  nth_error l j = Some b \/ (j = length l /\ b = x).
Proof.
  intros H. destruct (Nat.lt_ge_cases j (length l)) as [Hlt|Hge].
  - left. now rewrite nth_error_app1 in H.
  - right. rewrite nth_error_app2 in H by exact Hge.
    destruct (j - length l) as [|k] eqn:E; simpl in H.
    + injection H as <-. split; [lia | reflexivity].
    + destruct k; discriminate H.
Qed.

Lemma nth_error_setAt_cases {A : Type} (l : list A) (p : nat) (x : A)
    (j : nat) (b : A) :
  nth_error (setAt p x l) j = Some b ->
  (j = p /\ b = x) \/ (j <> p /\ nth_error l j = Some b).
Proof.
  intros H. destruct (Nat.eq_dec j p) as [->|Hne].
  - left. split; [reflexivity|].
    assert (Hp : p < length l).
    { rewrite <- (setAt_length p x l). eapply nth_error_in_range; eauto. }
    rewrite (nth_error_setAt_eq p x l Hp) in H. congruence.
  - right. split; [exact Hne|]. now rewrite nth_error_setAt_ne in H by congruence.
Qed.

Lemma uniqueKeys_app (coll : Collection) (x : Job) :
  uniqueKeys coll ->
  (forall q d, nth_error coll q = Some d ->
               externalId d <> externalId x /\ url d <> url x) ->
  uniqueKeys (coll ++ [x])%list.
Proof.
  intros U F i j a b Hi Hj Hk.
  destruct (nth_error_snoc _ _ _ _ Hi) as [Hi'|[-> ->]];
  destruct (nth_error_snoc _ _ _ _ Hj) as [Hj'|[-> ->]].
  - exact (U i j a b Hi' Hj' Hk).
  - destruct (F i a Hi') as [He Hu]. destruct Hk; contradiction.
  - destruct (F j b Hj') as [He Hu]. destruct Hk as [Hk|Hk]; symmetry in Hk; contradiction.
  - reflexivity.
Qed.

Lemma uniqueKeys_setAt (coll : Collection) (p : nat) (old x : Job) :
  uniqueKeys coll -> nth_error coll p = Some old ->
  externalId x = externalId old -> url x = url old ->
  uniqueKeys (setAt p x coll).
Proof.
  intros U Hp He Hu i j a b Hi Hj Hk.
  destruct (nth_error_setAt_cases _ _ _ _ _ Hi) as [[-> ->]|[Hip Hi']];
  destruct (nth_error_setAt_cases _ _ _ _ _ Hj) as [[-> ->]|[Hjp Hj']].
  - reflexivity.
  - apply (U p j old b Hp Hj'). rewrite <- He, <- Hu. exact Hk.
  - apply (U i p a old Hi' Hp). rewrite <- He, <- Hu. exact Hk.
  - exact (U i j a b Hi' Hj' Hk).
Qed.

(** Every write of [processJob] passes the validators, so the types of the
    stored jobs stay in the enum. *)
Lemma savePhase_enumTypes (now : Z) (jobData : JobData.t)
    (existingJob : option (nat * Job)) (coll : Collection) :
  enumTypes coll -> enumTypes (snd (savePhase now jobData existingJob coll)).
Proof.
  intros E. unfold savePhase.
  destruct existingJob as [[i loaded]|].
  - unfold saveExisting.
    destruct (validate (assign loaded jobData now)) eqn:Hv; [|exact E].
    destruct (nth_error coll i) as [stored|] eqn:Hi; [|exact E].
    destruct (violated _ _ coll); [exact E|].
    cbn [snd]. intros q d Hq.
    destruct (nth_error_setAt_cases _ _ _ _ _ Hq) as [[-> ->]|[_ Hq']];
      [|exact (E q d Hq')].
    cbn [applyChanges type]. unfold pick.
    destruct (String.eqb _ _); [exact (E i stored Hi) | now apply validate_type].
  - unfold saveNew.
    destruct (validate (newJob jobData now)) eqn:Hv; [|exact E].
    destruct (violated _ _ coll); [exact E|].
    cbn [snd]. intros q d Hq.
    destruct (nth_error_snoc _ _ _ _ Hq) as [Hq'|[-> ->]];
      [exact (E q d Hq') | now apply validate_type].
Qed.

Lemma advance_enumTypes (now : Z) (t : Task) (coll : Collection) :
  enumTypes coll -> enumTypes (snd (advance now t coll)).
Proof.
  intros E. destruct t as [jobData|jobData existingJob|r]; cbn [advance snd];
    try exact E.
  pose proof (savePhase_enumTypes now jobData existingJob coll E) as H.
  now destruct (savePhase now jobData existingJob coll).
Qed.

Section Isolation.
Variable bad : nat.
Variable jobs : list JobData.t.
Variable rejected : JobData.t.
Hypothesis Hbad : nth_error jobs bad = Some rejected.
Hypothesis Hrejected : missingRequired rejected = true.
Hypothesis Hacceptable : othersAcceptable bad jobs.
Hypothesis Hdistinct : othersDistinct bad jobs.

Lemma coupled_app (coll : Collection) (k : nat) (c : JobData.t) (x : Job) :
  k <> bad -> nth_error jobs k = Some c ->
  externalId x = keyId c -> url x = keyUrl c ->
  coupled bad jobs coll -> coupled bad jobs (coll ++ [x])%list.
Proof.
  intros Hk Hc He Hu C i ci q d Hi Hci Hq.
  destruct (nth_error_snoc _ _ _ _ Hq) as [Hq'|[-> ->]].
  - exact (C i ci q d Hi Hci Hq').
  - rewrite He, Hu. destruct (Nat.eq_dec i k) as [->|Hik].
    + assert (ci = c) by congruence. subst ci. tauto.
    + destruct (Hdistinct i k ci c Hi Hk Hik Hci Hc) as [H1 H2].
      split; intros E; symmetry in E; contradiction.
Qed.

Lemma coupled_setAt (coll : Collection) (p : nat) (old x : Job) :
  nth_error coll p = Some old ->
  externalId x = externalId old -> url x = url old ->
  coupled bad jobs coll -> coupled bad jobs (setAt p x coll).
Proof.
  intros Hp He Hu C i ci q d Hi Hci Hq.
  destruct (nth_error_setAt_cases _ _ _ _ _ Hq) as [[-> ->]|[_ Hq']].
  - rewrite He, Hu. exact (C i ci p old Hi Hci Hp).
  - exact (C i ci q d Hi Hci Hq').
Qed.

(** Another call's insert or update leaves the state of a call valid. *)
Lemma goodTask_app (c : JobData.t) (coll : Collection) (x : Job) (t : Task) :
  externalId x <> keyId c -> url x <> keyUrl c ->
  goodTask c coll t -> goodTask c (coll ++ [x])%list t.
Proof.
  intros He Hu. destruct t as [jobData|jobData [[p loaded]|]|r]; cbn [goodTask].
  - auto.
  - intros (-> & Hp & Hk). split; [reflexivity|]. split; [|exact Hk].
    rewrite nth_error_app1; [exact Hp | eapply nth_error_in_range; eauto].
  - intros (-> & Hfree). split; [reflexivity|]. intros q d Hq.
    destruct (nth_error_snoc _ _ _ _ Hq) as [Hq'|[-> ->]]; [eauto | now split].
  - intros (Hs & Ha & p & d & Hp & Hrest). split; [exact Hs|]. split; [exact Ha|].
    exists p, d. split; [|exact Hrest].
    rewrite nth_error_app1; [exact Hp | eapply nth_error_in_range; eauto].
Qed.

Lemma goodTask_setAt (c : JobData.t) (coll : Collection) (p : nat)
    (old x : Job) (t : Task) :
  nth_error coll p = Some old ->
  externalId x = externalId old -> url x = url old ->
  externalId old <> keyId c -> url old <> keyUrl c ->
  goodTask c coll t -> goodTask c (setAt p x coll) t.
Proof.
  intros Hp He Hu Ne Nu.
  destruct t as [jobData|jobData [[q loaded]|]|r]; cbn [goodTask].
  - auto.
  - intros (-> & Hq & Hke & Hku). split; [reflexivity|]. split; [|now split].
    rewrite nth_error_setAt_ne; [exact Hq|]. intros ->. congruence.
  - intros (-> & Hfree). split; [reflexivity|]. intros q d Hq.
    destruct (nth_error_setAt_cases _ _ _ _ _ Hq) as [[-> ->]|[_ Hq']].
    + rewrite He, Hu. now split.
    + eauto.
  - intros (Hs & Ha & q & d & Hq & Hh & Hke & Hku).
    split; [exact Hs|]. split; [exact Ha|]. exists q, d.
    split; [|split; [exact Hh | split; assumption]].
    rewrite nth_error_setAt_ne; [exact Hq|]. intros ->. congruence.
Qed.

Lemma badTask_advance (now : Z) (t : Task) (coll : Collection) :
  badTask rejected t ->
  badTask rejected (fst (advance now t coll)) /\ snd (advance now t coll) = coll.
Proof.
  intros [->| ->]; cbn [advance fst snd].
  - unfold lookupPhase. rewrite Hrejected. split; [now right | reflexivity].
  - split; [now right | reflexivity].
Qed.

Lemma goodTask_advance (now : Z) (k : nat) (c : JobData.t) (t : Task)
    (coll : Collection) :
  k <> bad -> nth_error jobs k = Some c ->
  uniqueKeys coll -> enumTypes coll -> coupled bad jobs coll ->
  goodTask c coll t ->
  goodTask c (snd (advance now t coll)) (fst (advance now t coll)) /\
  Change c coll (snd (advance now t coll)).
Proof.
  intros Hk Hc U T C Hgood.
  pose proof (Hacceptable k c Hk Hc) as Hacc.
  pose proof (acceptable_required c Hacc) as Hreq.
  destruct t as [jobData|jobData [[p loaded]|]|r]; cbn [goodTask] in Hgood.
  - (* the lookup *)
    subst jobData. cbn [advance fst snd]. split; [|constructor].
    unfold lookupPhase. rewrite Hreq. fold (keyId c) (keyUrl c).
    destruct (findOne (keyId c) (keyUrl c) coll) as [[p loaded]|] eqn:Hf;
      cbn [goodTask].
    + destruct (findOne_Some _ _ _ _ _ Hf) as [Hp Hm].
      apply matches_true in Hm. split; [reflexivity|]. split; [exact Hp|].
      pose proof (C k c p loaded Hk Hc Hp) as Hiff. tauto.
    + split; [reflexivity|]. intros q d Hq.
      unfold findOne in Hf. rewrite findOneFrom_None in Hf.
      apply matches_false. exact (Hf q d Hq).
  - (* the update *)
    destruct Hgood as (-> & Hp & Hke & Hku). cbn [advance].
    assert (Hothers : forall j d, j <> p -> nth_error coll j = Some d ->
                        externalId d <> keyId c /\ url d <> keyUrl c).
    { intros j d Hj Hd. split; intros E; apply Hj.
      - apply (U j p d loaded Hd Hp). left. congruence.
      - apply (U j p d loaded Hd Hp). right. congruence. }
    rewrite (savePhase_updated now c coll p loaded Hreq Hp Hothers
               (acceptable_assign loaded c now Hacc (T p loaded Hp))).
    cbn [fst snd goodTask resultUpdated success action].
    destruct (assign_keys loaded c now Hreq) as [Ke Ku].
    split.
    + split; [reflexivity|]. split; [now right|].
      exists p, (assign loaded c now).
      split; [apply nth_error_setAt_eq; eapply nth_error_in_range; eauto|].
      split; [apply holds_assign | now split].
    + now apply (Replaced c coll p loaded).
  - (* the insert *)
    destruct Hgood as (-> & Hfree). cbn [advance].
    rewrite (savePhase_created now c coll Hfree (acceptable_newJob c now Hacc)).
    cbn [fst snd goodTask resultCreated success action].
    split.
    + split; [reflexivity|]. split; [now left|].
      exists (length coll), (newJob c now).
      split; [rewrite nth_error_app2, Nat.sub_diag by lia; reflexivity|].
      split; [apply holds_newJob | now split].
    + now apply Inserted.
  - cbn [advance fst snd]. split; [exact Hgood | constructor].
Qed.

Lemma goodTask_change (k i : nat) (ck ci : JobData.t) (coll coll' : Collection)
    (t : Task) :
  k <> bad -> i <> bad -> i <> k ->
  nth_error jobs k = Some ck -> nth_error jobs i = Some ci ->
  Change ck coll coll' -> goodTask ci coll t -> goodTask ci coll' t.
Proof.
  intros Hk Hi Hik Hck Hci Hch Hgood.
  destruct (Hdistinct i k ci ck Hi Hk Hik Hci Hck) as [Ne Nu].
  destruct Hch as [|x He Hu _|p old x Hp Hoe Hou He Hu].
  - exact Hgood.
  - apply goodTask_app; [congruence | congruence | exact Hgood].
  - apply (goodTask_setAt ci coll p old x t Hp); congruence || exact Hgood.
Qed.

Lemma change_invariants (k : nat) (c : JobData.t) (coll coll' : Collection) :
  k <> bad -> nth_error jobs k = Some c ->
  Change c coll coll' ->
  uniqueKeys coll -> coupled bad jobs coll ->
  uniqueKeys coll' /\ coupled bad jobs coll'.
Proof.
  intros Hk Hc Hch U C.
  destruct Hch as [|x He Hu Hfree|p old x Hp Hoe Hou He Hu].
  - now split.
  - split.
    + apply uniqueKeys_app; [exact U|]. intros q d Hq. rewrite He, Hu. eauto.
    + now apply (coupled_app coll k c x).
  - split.
    + apply (uniqueKeys_setAt coll p old x U Hp); congruence.
    + apply (coupled_setAt coll p old x Hp); congruence || exact C.
Qed.

Lemma step_invariant (ev : nat * Z) (st : BatchState) :
  batchInvariant bad jobs st -> batchInvariant bad jobs (step ev st).
Proof.
  destruct ev as [k now]. destruct st as [coll tasks].
  intros (Hlen & U & T & C & Htasks). cbn [fst snd] in *.
  destruct (nth_error tasks k) as [t|] eqn:Ht.
  2:{ unfold step. rewrite Ht.
      split; [exact Hlen|]. split; [exact U|]. split; [exact T|].
      split; [exact C | exact Htasks]. }
  assert (Hkc : exists c, nth_error jobs k = Some c).
  { destruct (nth_error jobs k) as [c|] eqn:E; [now exists c|].
    apply nth_error_None in E. apply nth_error_in_range in Ht. lia. }
  destruct Hkc as (c & Hc).
  pose proof (Htasks k c t Hc Ht) as Hk.
  destruct (step_tasks k now coll tasks) as (Hl & Hother & Hself).
  specialize (Hself t Ht).
  assert (Hcoll : fst (step (k, now) (coll, tasks)) = snd (advance now t coll)).
  { unfold step. rewrite Ht. now destruct (advance now t coll). }
  unfold batchInvariant. rewrite Hcoll, Hl.
  destruct (Nat.eqb k bad) eqn:Ekb.
  - (* the rejected candidate *)
    apply Nat.eqb_eq in Ekb. subst k.
    assert (c = rejected) by congruence. subst c.
    destruct (badTask_advance now t coll Hk) as [Hb Hsame]. rewrite Hsame.
    split; [exact Hlen|]. split; [exact U|]. split; [exact T|]. split; [exact C|].
    intros i ci ti Hci Hti.
    destruct (Nat.eq_dec i bad) as [->|Hne].
    + rewrite Nat.eqb_refl. rewrite Hself in Hti.
      injection Hti as <-. assert (ci = rejected) by congruence. now subst ci.
    + rewrite (Hother i Hne) in Hti. exact (Htasks i ci ti Hci Hti).
  - apply Nat.eqb_neq in Ekb.
    destruct (goodTask_advance now k c t coll Ekb Hc U T C Hk) as [Hg Hch].
    destruct (change_invariants k c coll _ Ekb Hc Hch U C) as [U' C'].
    split; [exact Hlen|]. split; [exact U'|].
    split; [now apply advance_enumTypes|]. split; [exact C'|].
    intros i ci ti Hci Hti.
    destruct (Nat.eq_dec i k) as [->|Hne].
    + apply Nat.eqb_neq in Ekb. rewrite Ekb. rewrite Hself in Hti.
      injection Hti as <-. assert (ci = c) by congruence. now subst ci.
    + rewrite (Hother i Hne) in Hti. pose proof (Htasks i ci ti Hci Hti) as Hi.
      destruct (Nat.eqb i bad) eqn:Eib; [exact Hi|].
      apply Nat.eqb_neq in Eib.
      exact (goodTask_change k i c ci coll _ ti Ekb Eib Hne Hc Hci Hch Hi).
Qed.

Lemma run_invariant (schedule : Schedule) (st : BatchState) :
  batchInvariant bad jobs st -> batchInvariant bad jobs (run schedule st).
Proof.
  revert st. induction schedule as [|ev rest IH]; intros st H; [exact H|].
  cbn [run fold_left]. apply (IH (step ev st)). now apply step_invariant.
Qed.

Lemma initial_invariant (coll : Collection) :
  uniqueKeys coll -> enumTypes coll -> coupled bad jobs coll ->
  batchInvariant bad jobs (coll, map Pending jobs).
Proof.
  intros U T C. split; [apply length_map|]. split; [exact U|]. split; [exact T|].
  split; [exact C|].
  cbn [fst snd]. intros i c t Hc Ht. rewrite nth_error_map, Hc in Ht.
  injection Ht as <-. destruct (Nat.eqb i bad); [now left | reflexivity].
Qed.

End Isolation.

(** ** The tally of a batch with one failure *)

Lemma tally_breakdown (results : list SettledResult) (stats : Stats) :
  Forall structuredResult results ->
  created (fold_left tally results stats) + updated (fold_left tally results stats) =
    created stats + updated stats + length (filter isSuccess results) /\
  failed (fold_left tally results stats) =
    failed stats + length (filter isFailure results) /\
  errors (fold_left tally results stats) =
    (errors stats ++ map reasonOf (filter isFailure results))%list.
Proof.
  revert stats. induction results as [|r rest IH]; intros stats H.
  - cbn. rewrite app_nil_r. repeat split; lia.
  - inversion H as [|? ? Hr Hrest]; subst. cbn [fold_left].
    destruct (IH (tally stats r) Hrest) as (E1 & E2 & E3).
    rewrite E1, E2, E3. clear E1 E2 E3 IH.
    unfold isFailure. cbn [filter].
    destruct r as [value|reason]; cbn [tally isSuccess reasonOf structuredResult] in *.
    + destruct Hr as [[Hs [Ha|Ha]]|[Hs Ha]]; rewrite Hs, ?Ha; cbn;
        rewrite <- ?app_assoc; cbn; repeat split; lia || reflexivity.
    + cbn. rewrite <- app_assoc. cbn. repeat split; lia || reflexivity.
Qed.

Lemma filter_only {A : Type} (p : A -> bool) (l : list A) (k : nat) (x : A) :
  nth_error l k = Some x -> p x = true ->
  (forall i y, i <> k -> nth_error l i = Some y -> p y = false) ->
  filter p l = [x].
Proof.
  revert k. induction l as [|a rest IH]; intros k Hk Hx Hothers.
  - destruct k; discriminate Hk.
  - destruct k as [|k]; cbn [filter].
    + injection Hk as ->. rewrite Hx. f_equal.
      clear IH. induction rest as [|b rest IH]; [reflexivity|].
      cbn [filter]. rewrite (Hothers 1 b) by (discriminate || reflexivity).
      apply IH. intros [|i] y Hi Hy; [congruence|].
      destruct i; [simpl in Hy; apply (Hothers 2 y); [discriminate | exact Hy]|].
      apply (Hothers (S (S (S i))) y); [discriminate | exact Hy].
    + rewrite (Hothers 0 a) by (discriminate || reflexivity).
      apply (IH k Hk Hx). intros i y Hi Hy.
      apply (Hothers (S i) y); [congruence | exact Hy].
Qed.

(** The batch of any size: one candidate misses a required field, the others
    are acceptable and distinct. *)
Lemma batch_isolation (schedule : Schedule) (jobs : list JobData.t)
    (coll : Collection) (bad : nat) (rejected : JobData.t) :
  nth_error jobs bad = Some rejected ->
  missingRequired rejected = true ->
  othersAcceptable bad jobs -> othersDistinct bad jobs ->
  uniqueKeys coll -> enumTypes coll -> coupled bad jobs coll ->
  servedTwice (length jobs) schedule ->
  exists stats coll',
    batchProcessJobs schedule jobs coll = Some (stats, coll') /\
    created stats + updated stats + 1 = length jobs /\
    failed stats = 1 /\
    errors stats = [Message missingRequiredError] /\
    forall i c, i <> bad -> nth_error jobs i = Some c ->
                exists p d, nth_error coll' p = Some d /\ holds d c.
Proof.
  intros Hbad Hrej Hacc Hdist U T C Hfair.
  destruct (batch_resolves schedule jobs coll Hfair)
    as (results & Hbatch & Hlen & Hstruct & Hres).
  pose proof (run_invariant bad jobs rejected Hbad Hrej Hacc Hdist schedule
                (coll, map Pending jobs) (initial_invariant bad jobs coll U T C))
    as (Hlt & _ & _ & _ & Htasks).
  set (final := run schedule (coll, map Pending jobs)) in *.
  exists (summarize (length jobs) results), (fst final).
  split; [exact Hbatch|].
  (* what each result is *)
  assert (Hat : forall i c r, nth_error jobs i = Some c -> nth_error results i = Some r ->
            exists value, r = Fulfilled value /\
              if Nat.eqb i bad then value = resultFailed missingRequiredError c
              else goodTask c (fst final) (Settled value)).
  { intros i c r Hc Hr. destruct (Hres i r Hr) as (value & -> & Ht).
    exists value. split; [reflexivity|].
    pose proof (Htasks i c _ Hc Ht) as Hi.
    destruct (Nat.eqb i bad); [|exact Hi].
    destruct Hi as [Hi|Hi]; [discriminate Hi | now injection Hi]. }
  assert (Hbr : nth_error results bad =
                Some (Fulfilled (resultFailed missingRequiredError rejected))).
  { destruct (nth_error results bad) as [r|] eqn:Hr.
    - destruct (Hat bad rejected r Hbad Hr) as (value & -> & Hv).
      rewrite Nat.eqb_refl in Hv. now subst value.
    - apply nth_error_None in Hr. apply nth_error_in_range in Hbad. lia. }
  assert (Hfail : filter isFailure results =
                  [Fulfilled (resultFailed missingRequiredError rejected)]).
  { apply (filter_only isFailure results bad _ Hbr); [reflexivity|].
    intros i r Hi Hr.
    assert (Hc : exists c, nth_error jobs i = Some c).
    { destruct (nth_error jobs i) as [c|] eqn:E; [now exists c|].
      apply nth_error_None in E. apply nth_error_in_range in Hr. lia. }
    destruct Hc as (c & Hc).
    destruct (Hat i c r Hc Hr) as (value & -> & Hv).
    apply Nat.eqb_neq in Hi. rewrite Hi in Hv.
    destruct Hv as (Hs & _). unfold isFailure. cbn [isSuccess]. now rewrite Hs. }
  destruct (tally_breakdown results (initialStats (length jobs)) Hstruct)
    as (E1 & E2 & E3).
  fold (summarize (length jobs) results) in E1, E2, E3.
  pose proof (filter_length isSuccess results) as Hfl.
  fold isFailure in Hfl.
  change (fun x => negb (isSuccess x)) with isFailure in Hfl.
  rewrite Hfail in Hfl, E2, E3. cbn in E1, E2, E3, Hfl.
  split; [lia|]. split; [exact E2|]. split; [exact E3|].
  intros i c Hi Hc.
  assert (Hr : exists r, nth_error results i = Some r).
  { destruct (nth_error results i) as [r|] eqn:E; [now exists r|].
    apply nth_error_None in E. apply nth_error_in_range in Hc. lia. }
  destruct Hr as (r & Hr).
  destruct (Hat i c r Hc Hr) as (value & -> & Hv).
  apply Nat.eqb_neq in Hi. rewrite Hi in Hv.
  destruct Hv as (_ & _ & p & d & Hp & Hh & _). now exists p, d.
Qed.

Lemma othersAcceptableb_sound (bad : nat) (jobs : list JobData.t) :
  othersAcceptableb bad jobs = true -> othersAcceptable bad jobs.
Proof.
  unfold othersAcceptableb. rewrite forallb_forall.
  intros H i c Hi Hc.
  specialize (H i). rewrite in_seq in H.
  pose proof (nth_error_in_range _ _ _ Hc) as Hlt.
  specialize (H (conj (Nat.le_0_l i) Hlt)).
  apply Nat.eqb_neq in Hi. now rewrite Hi, Hc in H.
Qed.

Lemma othersDistinctb_sound (bad : nat) (jobs : list JobData.t) :
  othersDistinctb bad jobs = true -> othersDistinct bad jobs.
Proof.
  unfold othersDistinctb. rewrite forallb_forall.
  intros H i j ci cj Hi Hj Hij Hci Hcj.
  specialize (H i). rewrite in_seq in H.
  pose proof (nth_error_in_range _ _ _ Hci) as Hilt.
  pose proof (nth_error_in_range _ _ _ Hcj) as Hjlt.
  specialize (H (conj (Nat.le_0_l i) Hilt)).
  rewrite forallb_forall in H. specialize (H j). rewrite in_seq in H.
  specialize (H (conj (Nat.le_0_l j) Hjlt)).
  apply Nat.eqb_neq in Hi, Hj, Hij. rewrite Hi, Hj, Hij, Hci, Hcj in H.
  cbn [orb keysApart] in H. apply andb_true_iff in H. destruct H as [H1 H2].
  apply negb_true_iff in H1, H2. now rewrite String.eqb_neq in H1, H2.
Qed.

(** C7, as amended. A candidate that misses one of the four
    identity-bearing fields makes [processJob] resolve to [failed], with the
    validation message, and leaves the collection as it was. In a batch of
    ten candidates of which one misses its company, the nine others being
    acceptable to the schema and distinct jobs, against a store whose keys
    are unique, whose types are of the enum and whose records share both
    keys with such a candidate or none, under every order in which the store
    serves the calls: nine successes (created or updated), one failure, its
    reason the validation message, and a stored record for each of the
    nine. *)
Theorem rejected_candidate_isolated :
  (forall now jobData coll,
     missingRequired jobData = true ->
     processJob now jobData coll =
       (resultFailed missingRequiredError jobData, coll)) /\
  (forall schedule jobs coll bad rejected,
     length jobs = 10 ->
     nth_error jobs bad = Some rejected ->
     falsy (JobData.company rejected) = true ->
     othersAcceptable bad jobs -> othersDistinct bad jobs ->
     uniqueKeys coll -> enumTypes coll -> coupled bad jobs coll ->
     servedTwice 10 schedule ->
     exists stats coll',
       batchProcessJobs schedule jobs coll = Some (stats, coll') /\
       created stats + updated stats = 9 /\
       failed stats = 1 /\
       errors stats = [Message missingRequiredError] /\
       forall i c, i <> bad -> nth_error jobs i = Some c ->
                   exists p d, nth_error coll' p = Some d /\ holds d c).
Proof.
  split; [exact processJob_missing|].
  intros schedule jobs coll bad rejected Hlen Hbad Hcompany Hacc Hdist U T C Hfair.
  assert (Hrej : missingRequired rejected = true).
  { unfold missingRequired. rewrite Hcompany.
    now rewrite !orb_true_r. }
  rewrite <- Hlen in Hfair.
  destruct (batch_isolation schedule jobs coll bad rejected Hbad Hrej Hacc Hdist U T C Hfair)
    as (stats & coll' & Hb & Hs & Hf & He & Hw).
  exists stats, coll'. repeat split; try assumption. lia.
Qed.

Lemma tenJobs_acceptable : othersAcceptable 3 Samples.tenJobs.
Proof. apply othersAcceptableb_sound. reflexivity. Qed.

Lemma tenJobs_distinct : othersDistinct 3 Samples.tenJobs.
Proof. apply othersDistinctb_sound. reflexivity. Qed.

Lemma rejected_candidate_isolated_witness :
  exists stats coll',
    batchProcessJobs (inOrder 0 10) Samples.tenJobs [] = Some (stats, coll') /\
    created stats + updated stats = 9 /\
    failed stats = 1 /\
    errors stats = [Message missingRequiredError] /\
    forall i c, i <> 3 -> nth_error Samples.tenJobs i = Some c ->
                exists p d, nth_error coll' p = Some d /\ holds d c.
Proof.
  apply (proj2 rejected_candidate_isolated (inOrder 0 10) Samples.tenJobs []
           3 Samples.noCompany).
  - reflexivity.
  - reflexivity.
  - reflexivity.
  - exact tenJobs_acceptable.
  - exact tenJobs_distinct.
  - intros i j a b Hi. destruct i; discriminate Hi.
  - intros i d Hi. destruct i; discriminate Hi.
  - intros i c q d _ _ Hq. destruct q; discriminate Hq.
  - apply servedTwice_inOrder.
Defined.

(** C7, the claim as stated, fails. Of these ten candidates exactly one
    misses its company, and it is the only one that misses any of the four
    identity-bearing fields; another has no description, which the schema
    requires. Against the empty store the batch reports eight successes and
    two failures, and eight records are stored. *)
Lemma rejected_candidate_not_alone :
  length Samples.tenJobsOneUndescribed = 10 /\
  filter (fun c => falsy (JobData.company c)) Samples.tenJobsOneUndescribed =
    [Samples.noCompany] /\
  filter missingRequired Samples.tenJobsOneUndescribed = [Samples.noCompany] /\
  exists stats coll',
    batchProcessJobs (inOrder 0 10) Samples.tenJobsOneUndescribed [] =
      Some (stats, coll') /\
    created stats = 8 /\ updated stats = 0 /\ failed stats = 2 /\
    errors stats = [Message missingRequiredError;
                    Message (ValidationError ["description"])] /\
    length coll' = 8.
Proof.
  split; [reflexivity|]. split; [reflexivity|]. split; [reflexivity|].
  eexists; eexists. split; [vm_compute; reflexivity|].
  repeat split; reflexivity.
Qed.

(** C10. [processJob] resolves to a structured outcome on every input; a
    batch can always be served to the end; and whenever it is,
    [batchProcessJobs] resolves to stats whose [total] is the number of
    candidates and whose three counts add up to it. *)
Theorem batchProcessJobs_accounts (schedule : Schedule)
    (jobs : list JobData.t) (coll : Collection) :
  servedTwice (length jobs) schedule ->
  (exists stats coll',
     batchProcessJobs schedule jobs coll = Some (stats, coll') /\
     total stats = length jobs /\
     created stats + updated stats + failed stats = total stats) /\
  (forall now jobData c, structured (fst (processJob now jobData c))) /\
  (forall now, servedTwice (length jobs) (inOrder now (length jobs))).
Proof.
  intros Hfair. split; [|split].
  - destruct (batch_resolves schedule jobs coll Hfair)
      as (results & Hbatch & Hlen & Hstruct & _).
    exists (summarize (length jobs) results),
           (fst (run schedule (coll, map Pending jobs))).
    split; [exact Hbatch|]. unfold summarize.
    rewrite tally_total. split; [reflexivity|].
    pose proof (tally_counted results (initialStats (length jobs)) Hstruct) as Hc.
    unfold counted in Hc. cbn [initialStats created updated failed total] in *. lia.
  - exact processJob_structured.
  - intros now. apply servedTwice_inOrder.
Qed.

Lemma batchProcessJobs_accounts_witness :
  servedTwice (length Samples.tenJobs) (inOrder 0 10) /\
  exists stats coll',
    batchProcessJobs (inOrder 0 10) Samples.tenJobs [] = Some (stats, coll') /\
    total stats = 10 /\
    created stats + updated stats + failed stats = total stats.
Proof.
  split; [apply servedTwice_inOrder|].
  exact (proj1 (batchProcessJobs_accounts (inOrder 0 10) Samples.tenJobs []
                  (servedTwice_inOrder 0 10))).
Defined.

End BatchFacts.

(* ===================================================================== *)
(** * Properties of the queue *)
(* ===================================================================== *)

Module QueueFacts.
Import JobQueue.

Lemma hasJobId_app (id : string) (q1 q2 : Queue) :
  hasJobId id (q1 ++ q2)%list = hasJobId id q1 || hasJobId id q2.
Proof. unfold hasJobId. apply existsb_app. Qed.

Lemma add_keeps (id : string) (queue : Queue) (j : QueueJob) :
  hasJobId id queue = true -> hasJobId id (add queue j) = true.
Proof.
  intros H. unfold add. destruct (hasJobId (jobId j) queue); [exact H|].
  rewrite hasJobId_app, H. reflexivity.
Qed.

Lemma add_holds (queue : Queue) (j : QueueJob) :
  hasJobId (jobId j) (add queue j) = true.
Proof.
  unfold add. destruct (hasJobId (jobId j) queue) eqn:E; [exact E|].
  rewrite hasJobId_app. cbn. rewrite String.eqb_refl. apply orb_true_r.
Qed.

Lemma addBulk_keeps (id : string) (bulk : list QueueJob) (queue : Queue) :
  hasJobId id queue = true -> hasJobId id (addBulk bulk queue) = true.
Proof.
  revert queue. induction bulk as [|j rest IH]; intros queue H; [exact H|].
  cbn [addBulk fold_left]. apply IH. now apply add_keeps.
Qed.

Lemma addBulk_holds (bulk : list QueueJob) (queue : Queue) (j : QueueJob) :
  In j bulk -> hasJobId (jobId j) (addBulk bulk queue) = true.
Proof.
  revert queue. induction bulk as [|k rest IH]; intros queue H; [contradiction|].
  cbn [addBulk fold_left]. destruct H as [->|H].
  - apply addBulk_keeps, add_holds.
  - now apply IH.
Qed.





End QueueFacts.

(* ===================================================================== *)
(** * Properties of the entry points *)
(* ===================================================================== *)

Module PipelineFacts.
Import Logger Pipeline.

Lemma setAt_last {A : Type} (l : list A) (x y : A) :
  Model.setAt (length l) y (l ++ [x]) = (l ++ [y])%list.
Proof.
  induction l as [|a r IH]; [reflexivity|]. cbn. now rewrite IH.
Qed.

Lemma nth_error_last {A : Type} (l : list A) (x : A) :
  nth_error (l ++ [x]) (length l) = Some x.
Proof. rewrite nth_error_app2, Nat.sub_diag by lia. reflexivity. Qed.

Ltac crank :=
  repeat (cbn -[Nat.eqb Z.add Z.sub];
          rewrite ?nth_error_last, ?setAt_last).

Ltac settle :=
  crank; unfold enqueueFirst; cbn -[Z.add Z.sub];
  split;
  [ intros j Hj;
    first [ discriminate Hj
          | injection Hj as <-; eexists; split; [reflexivity | lia] ]
  | intros Hn;
    first [ discriminate Hn
          | split; [reflexivity|];
            intros l Hl; rewrite ?nth_error_last in Hl;
            first [ injection Hl as <-; reflexivity
                  | apply ModelFacts.nth_error_in_range in Hl; lia ] ] ].

Ltac explore :=
  unfold updateImportLog, addBulkJobsToQueue, markImportFailed, respond, ret,
         effect, JobQueue.addBulkJobsToQueue, Logger.updateImportLog,
         Logger.markImportFailed;
  crank;
  match goal with
  | |- context [match ?f with _ => _ end] =>
      is_var f;
      match type of f with nat => idtac end;
      destruct f; explore
  | |- context [brokerError ?e] =>
      destruct (brokerError e); explore
  | |- _ => settle
  end.

Lemma importFrom_order (env : Env) (startTime : Z) (label : string)
    (feedUrls : list string) (reply : nat -> M unit) (fuel : nat) (w0 : World) :
  (reply = respond \/ reply = fun _ => ret tt) ->
  enqueueFirst w0 (observe (importFrom env startTime label feedUrls reply) fuel w0).
Proof.
  intros Hreply.
  unfold observe, importFrom, tryAssigning, createImportLog, Logger.createImportLog,
         fetchFromMultipleURLs, tryCatch, bind, effect.
  destruct fuel as [|fuel]; [settle|].
  destruct (String.eqb label "").
  { destruct Hreply as [-> | ->]; explore. }
  destruct fuel as [|fuel]; [settle|].
  crank.
  destruct (collect env (clock w0 + latency env + latency env) feedUrls) as [jobs errors].
  destruct jobs as [|job jobs]; cbn [length Nat.eqb];
    destruct Hreply as [-> | ->]; explore.
Qed.

Lemma startImport_order (env : Env) (bodyUrls : option (list string))
    (fuel : nat) (w0 : World) :
  enqueueFirst w0 (observe (startImport env bodyUrls) fuel w0).
Proof.
  unfold observe, startImport, bind at 1, dateNow.
  match goal with
  | |- context [if Nat.eqb (length ?urls) 0 then _ else _] =>
      destruct (Nat.eqb (length urls) 0)
  end.
  - unfold respond, effect. destruct fuel; settle.
  - apply importFrom_order. now left.
Qed.

Lemma automatedImport_order (env : Env) (fuel : nat) (w0 : World) :
  enqueueFirst w0 (observe (automatedImport env) fuel w0).
Proof.
  unfold observe, automatedImport, bind at 1, dateNow.
  match goal with
  | |- context [if Nat.eqb (length ?urls) 0 then _ else _] =>
      destruct (Nat.eqb (length urls) 0)
  end.
  - unfold ret. settle.
  - apply importFrom_order. now right.
Qed.

Lemma orZ_some (z : Z) : orZ (Some z) 0 = z.
Proof. unfold orZ. destruct (Z.eqb_spec z 0); congruence. Qed.

Lemma label_not_empty (label : string) :
  label <> "" -> String.eqb label "" = false.
Proof. intros H. now apply String.eqb_neq. Qed.

Ltac crank' :=
  repeat (cbn -[Nat.eqb Nat.ltb Z.add Z.sub orZ orString];
          rewrite ?nth_error_last, ?setAt_last).

(** Runs one more operation of a run whose label and fetch are known. *)
Ltac proceed Hlabel Hfetched :=
  unfold observe, importFrom, tryAssigning, createImportLog, Logger.createImportLog,
         fetchFromMultipleURLs, addBulkJobsToQueue, updateImportLog,
         markImportFailed, respond, ret, dateNow, tryCatch, bind, effect,
         JobQueue.addBulkJobsToQueue, Logger.updateImportLog,
         Logger.markImportFailed;
  rewrite ?Hlabel; crank'; rewrite ?Hfetched; cbn [length Nat.eqb]; crank'.

(** Follows the process as far as it lives. *)
Ltac lives :=
  repeat match goal with
         | |- context [match ?f with O => _ | S _ => _ end] =>
             is_var f; destruct f; crank'
         end.

(** The stages of a run that fetched candidates. *)
Lemma importFrom_stages (env : Env) (label : string) (feedUrls : list string)
    (reply : nat -> M unit) (w0 : World)
    (jobs : list Fetcher.NormalizedJob) (errors : list FetchError) :
  label <> "" ->
  collect env (clock w0 + latency env + latency env) feedUrls = (jobs, errors) ->
  jobs <> [] ->
  (reply = respond \/ reply = fun _ => ret tt) ->
  enqueueThenAccount env w0 label jobs
    (fun fuel => observe (importFrom env (clock w0) label feedUrls reply) fuel w0).
Proof.
  intros Hlabel Hfetched Hjobs Hreply.
  apply label_not_empty in Hlabel.
  destruct jobs as [|job jobs]; [now elim Hjobs|]. clear Hjobs.
  assert (Hd : (clock w0 + latency env + latency env + latency env - clock w0 =
                latency env + latency env + latency env)%Z) by lia.
  unfold enqueueThenAccount. cbv zeta.
  split; [|split; [|split; [|split]]].
  - proceed Hlabel Hfetched. repeat split; reflexivity.
  - intros fuel Hfuel. do 3 (destruct fuel as [|fuel]; [lia|]). clear Hfuel.
    destruct Hreply as [-> | ->]; proceed Hlabel Hfetched;
      destruct (brokerError env); proceed Hlabel Hfetched; lives;
      split; reflexivity.
  - intros Hbroker. split; [|split].
    + proceed Hlabel Hfetched. rewrite Hbroker. crank'. reflexivity.
    + proceed Hlabel Hfetched. rewrite Hbroker. crank'. reflexivity.
    + intros fuel Hfuel. do 4 (destruct fuel as [|fuel]; [lia|]). clear Hfuel.
      destruct Hreply as [-> | ->]; proceed Hlabel Hfetched;
        rewrite Hbroker; proceed Hlabel Hfetched; rewrite ?orZ_some, ?Hd; lives;
        repeat split; reflexivity.
  - intros fuel j.
    destruct Hreply as [-> | ->]; proceed Hlabel Hfetched; lives;
      try discriminate;
      destruct (brokerError env); proceed Hlabel Hfetched; lives;
      try discriminate;
      intros [= <-]; repeat split; reflexivity.
  - intros message fuel Hbroker.
    destruct Hreply as [-> | ->]; proceed Hlabel Hfetched; lives;
      rewrite ?Hbroker; proceed Hlabel Hfetched; lives;
      (split; [reflexivity|]; split; [reflexivity|]);
      intros l Hl; rewrite ?nth_error_last in Hl;
      first [ injection Hl as <-; reflexivity
            | apply ModelFacts.nth_error_in_range in Hl; lia ].
Qed.

Lemma splitComma_cons (s : string) : exists x xs, splitComma s = x :: xs.
Proof.
  induction s as [|c r (x & xs & IH)]; cbn.
  - now exists "", [].
  - destruct (Ascii.eqb c ","); [now exists "", (splitComma r)|].
    rewrite IH. now exists (String c x), xs.
Qed.

(** What [startImport] reads its URLs from and labels the run with. *)
Lemma startImport_importFrom (env : Env) (url : string) (urls : list string)
    (fuel : nat) (w0 : World) :
  observe (startImport env (Some (url :: urls))) fuel w0 =
  observe (importFrom env (clock w0) (Js.join ", " (url :: urls)) (url :: urls)
             respond) fuel w0.
Proof. reflexivity. Qed.

Lemma startImport_env_importFrom (env : Env) (s : string) (fuel : nat)
    (w0 : World) :
  JOB_FEED_URLS env = Some s ->
  observe (startImport env None) fuel w0 =
  observe (importFrom env (clock w0) (Js.join ", " (splitComma s)) (splitComma s)
             respond) fuel w0.
Proof.
  intros Hs. unfold observe, startImport, bind at 1, dateNow.
  rewrite Hs. destruct (splitComma_cons s) as (x & xs & ->). reflexivity.
Qed.

Lemma automatedImport_importFrom (env : Env) (s : string) (fuel : nat)
    (w0 : World) :
  JOB_FEED_URLS env = Some s ->
  let urls := map Js.trim (splitComma s) in
  observe (automatedImport env) fuel w0 =
  observe (importFrom env (clock w0) ("Automated: " ++ Js.join ", " urls) urls
             (fun _ => ret tt)) fuel w0.
Proof.
  intros Hs urls. subst urls. unfold observe, automatedImport, bind at 1, dateNow.
  rewrite Hs. destruct (splitComma_cons s) as (x & xs & ->). reflexivity.
Qed.

(** The label of a manual run is empty for the list [[""]] only; the one
    of an automated run never is. *)
Lemma join_not_empty (url : string) (urls : list string) :
  url :: urls <> [""] -> Js.join ", " (url :: urls) <> "".
Proof.
  intros H. destruct urls as [|u rest]; cbn [Js.join].
  - intros ->. now apply H.
  - destruct url; discriminate.
Qed.

Lemma enqueueThenAccount_ext (env : Env) (w0 : World) (label : string)
    (jobs : list Fetcher.NormalizedJob) (left left' : nat -> World) :
  (forall fuel, left' fuel = left fuel) ->
  enqueueThenAccount env w0 label jobs left ->
  enqueueThenAccount env w0 label jobs left'.
Proof.
  intros E. unfold enqueueThenAccount. cbv zeta.
  intros (H2 & H3 & Hup & Honly & Hdown).
  rewrite !E. split; [exact H2|].
  split; [intros fuel; rewrite E; apply H3|].
  split.
  { intros Hbroker. destruct (Hup Hbroker) as (Hl & Hq & Hlater).
    split; [exact Hl|]. split; [exact Hq|]. intros fuel. rewrite E. apply Hlater. }
  split; [intros fuel j; rewrite E; apply Honly|].
  intros message fuel. rewrite E. apply Hdown.
Qed.

(** C1, as amended. In both entry points, on a run that fetches at least one
    candidate, the bulk enqueue comes before the accounting of the fetch.
    For [startImport] on the URLs of the request or, without, of
    [JOB_FEED_URLS] (a list other than [[""]], for which no log can be
    created) and for [automatedImport] on the URLs of [JOB_FEED_URLS], the
    run goes through the stages of [enqueueThenAccount]: a process that
    dies between the fetch and the enqueue leaves the run in progress with
    [totalFetched] zero and nothing queued; the enqueue is the third
    operation; with the broker up, a process that dies between the enqueue
    and the update leaves the candidates queued and the run in progress
    with [totalFetched] still zero, and one that lives on records
    [totalFetched] as its fourth operation, the run staying in progress;
    wherever the run stops, [totalFetched] is recorded only with the
    candidates queued, and never when the broker refuses them. And whatever
    the input and wherever the run stops, an update that records
    [totalFetched] is preceded by an enqueue. *)
Theorem enqueue_precedes_fetch_accounting (env : Env) (w0 : World) :
  (forall url urls jobs errors,
     url :: urls <> [""] ->
     collect env (clock w0 + latency env + latency env) (url :: urls) =
       (jobs, errors) ->
     jobs <> [] ->
     enqueueThenAccount env w0 (Js.join ", " (url :: urls)) jobs
       (fun fuel => observe (startImport env (Some (url :: urls))) fuel w0)) /\
  (forall s jobs errors,
     JOB_FEED_URLS env = Some s -> splitComma s <> [""] ->
     collect env (clock w0 + latency env + latency env) (splitComma s) =
       (jobs, errors) ->
     jobs <> [] ->
     enqueueThenAccount env w0 (Js.join ", " (splitComma s)) jobs
       (fun fuel => observe (startImport env None) fuel w0)) /\
  (forall s jobs errors,
     JOB_FEED_URLS env = Some s ->
     collect env (clock w0 + latency env + latency env)
       (map Js.trim (splitComma s)) = (jobs, errors) ->
     jobs <> [] ->
     enqueueThenAccount env w0
       ("Automated: " ++ Js.join ", " (map Js.trim (splitComma s))) jobs
       (fun fuel => observe (automatedImport env) fuel w0)) /\
  (forall bodyUrls fuel,
     enqueueFirst w0 (observe (startImport env bodyUrls) fuel w0) /\
     enqueueFirst w0 (observe (automatedImport env) fuel w0)).
Proof.
  split; [|split; [|split]].
  - intros url urls jobs errors Hurls Hfetched Hjobs.
    apply (enqueueThenAccount_ext env w0 _ jobs
             (fun fuel => observe (importFrom env (clock w0)
                                     (Js.join ", " (url :: urls)) (url :: urls)
                                     respond) fuel w0)).
    + intros fuel. apply startImport_importFrom.
    + apply (importFrom_stages env _ (url :: urls) respond w0 jobs errors);
        [now apply join_not_empty | exact Hfetched | exact Hjobs | now left].
  - intros s jobs errors Hs Hurls Hfetched Hjobs.
    apply (enqueueThenAccount_ext env w0 _ jobs
             (fun fuel => observe (importFrom env (clock w0)
                                     (Js.join ", " (splitComma s)) (splitComma s)
                                     respond) fuel w0)).
    + intros fuel. now apply startImport_env_importFrom.
    + apply (importFrom_stages env _ (splitComma s) respond w0 jobs errors);
        [|exact Hfetched | exact Hjobs | now left].
      destruct (splitComma_cons s) as (x & xs & E). rewrite E in *.
      now apply join_not_empty.
  - intros s jobs errors Hs Hfetched Hjobs.
    apply (enqueueThenAccount_ext env w0 _ jobs
             (fun fuel => observe (importFrom env (clock w0)
                                     ("Automated: " ++
                                      Js.join ", " (map Js.trim (splitComma s)))
                                     (map Js.trim (splitComma s))
                                     (fun _ => ret tt)) fuel w0)).
    + intros fuel. now apply automatedImport_importFrom.
    + apply (importFrom_stages env _ _ (fun _ => ret tt) w0 jobs errors);
        [discriminate | exact Hfetched | exact Hjobs | now right].
  - intros bodyUrls fuel.
    split; [apply startImport_order | apply automatedImport_order].
Qed.

Lemma enqueue_precedes_fetch_accounting_witness :
  let left := fun fuel =>
    observe (startImport Samples.env (Some ["https://jobs.example/feed"]))
            fuel emptyWorld in
  (map totalFetched (logs (left 2)) = [0] /\ queue (left 2) = []) /\
  (map totalFetched (logs (left 3)) = [0] /\ length (queue (left 3)) = 1) /\
  (map totalFetched (logs (left 4)) = [1] /\ map status (logs (left 4)) = ["in-progress"]).
Proof.
  cbv zeta.
  destruct (enqueue_precedes_fetch_accounting Samples.env emptyWorld) as [H _].
  destruct (H "https://jobs.example/feed" []
              (fst (collect Samples.env 2 ["https://jobs.example/feed"]))
              (snd (collect Samples.env 2 ["https://jobs.example/feed"])))
    as ((Hl2 & Hq2 & _) & _ & Hup & _).
  - discriminate.
  - reflexivity.
  - discriminate.
  - destruct (Hup eq_refl) as (Hl3 & Hq3 & Hlater).
    destruct (Hlater 4 (le_n 4)) as (_ & Hl4 & _).
    rewrite Hl2, Hq2, Hl3, Hq3, Hl4. repeat split; reflexivity.
Defined.

(** C1, the claim as stated, fails. One candidate is fetched; in the full
    run the enqueue is the third operation and the update that records
    [totalFetched] the fourth, so the accounting does not happen before the
    enqueue; and a process that dies after three operations leaves the
    candidate queued and [totalFetched] zero. The same holds of
    [automatedImport]. *)
Lemma fetch_accounting_after_enqueue :
  length Samples.fetched = 1 /\
  (let w := observe (startImport Samples.env None) 5 emptyWorld in
   firstIndex isAddBulk (trace w) = Some 2 /\
   firstIndex isFetchAccounting (trace w) = Some 3 /\
   ~ happensBefore isFetchAccounting isAddBulk (trace w) /\
   map totalFetched (logs w) = [1] /\ length (queue w) = 1) /\
  (let w := observe (startImport Samples.env None) 3 emptyWorld in
   map totalFetched (logs w) = [0] /\ length (queue w) = 1) /\
  (let w := observe (automatedImport Samples.env) 3 emptyWorld in
   firstIndex isAddBulk (trace w) = Some 2 /\
   firstIndex isFetchAccounting (trace w) = None /\
   map totalFetched (logs w) = [0] /\ length (queue w) = 1).
Proof.
  split; [reflexivity|]. split; [|split].
  - cbv zeta. split; [reflexivity|]. split; [reflexivity|].
    split; [|split; reflexivity].
    intros (i & Hi & Hbefore).
    assert (E : firstIndex isFetchAccounting
                  (trace (observe (startImport Samples.env None) 5 emptyWorld)) = Some 3)
      by reflexivity.
    rewrite E in Hi. injection Hi as <-.
    specialize (Hbefore 2 eq_refl). lia.
  - cbv zeta. split; reflexivity.
  - cbv zeta. repeat split; reflexivity.
Qed.

End PipelineFacts.

(* ===================================================================== *)
(** * Properties of double arithmetic *)
(* ===================================================================== *)

Module FloatFacts.
Import Double.
#[local] Open Scope Z_scope.

(** ** Binary digits *)

Lemma digits2_size (p : positive) : digits2_pos p = Pos.size p.
Proof. induction p; simpl; congruence. Qed.

Lemma digits_bounds (p : positive) :
  2 ^ (Zpos (digits2_pos p) - 1) <= Zpos p < 2 ^ Zpos (digits2_pos p).
Proof.
  rewrite digits2_size. split.
  - pose proof (Pos.size_le p) as H.
    apply Pos2Z.pos_le_pos in H. rewrite Pos2Z.inj_pow in H.
    change (Zpos p~0) with (2 * Zpos p) in H.
    replace (Zpos (Pos.size p)) with (1 + (Zpos (Pos.size p) - 1)) in H by lia.
    rewrite Z.pow_add_r, Z.pow_1_r in H by lia. lia.
  - pose proof (Pos.size_gt p) as H.
    apply Pos2Z.pos_lt_pos in H. now rewrite Pos2Z.inj_pow in H.
Qed.

Lemma digits_unique (p : positive) (d : Z) :
  2 ^ (d - 1) <= Zpos p < 2 ^ d -> Zpos (digits2_pos p) = d.
Proof.
  intros [Hlo Hhi]. pose proof (digits_bounds p) as [Blo Bhi].
  assert (0 < d).
  { destruct (Z_lt_le_dec 0 d); [assumption|].
    assert (2 ^ d <= 1); [|lia].
    destruct (Z.eq_dec d 0) as [->|]; [simpl; lia|].
    rewrite Z.pow_neg_r; lia. }
  assert (Zpos (digits2_pos p) - 1 < d).
  { apply (Z.pow_lt_mono_r_iff 2); lia. }
  assert (d - 1 < Zpos (digits2_pos p)).
  { apply (Z.pow_lt_mono_r_iff 2); lia. }
  lia.
Qed.

(** ** Shifting right *)

Lemma shr_1_m (r : shr_record) :
  0 <= shr_m r -> shr_m (shr_1 r) = shr_m r / 2 /\ 0 <= shr_m (shr_1 r).
Proof.
  destruct r as [m rb sb]. cbn [shr_m]. intros H.
  destruct m as [|[p|p|]|p]; cbn [shr_1 shr_m]; try lia.
  all: split; [|lia].
  - reflexivity.
  - apply (Z.div_unique _ _ _ 1); lia.
  - apply (Z.div_unique _ _ _ 0); lia.
  - reflexivity.
Qed.

Lemma pow2_pos (k : Z) : 0 <= k -> 0 < 2 ^ k.
Proof. intros H. apply Z.pow_pos_nonneg; lia. Qed.

Lemma div_pow2_twice (a k : Z) :
  0 < k -> a / 2 ^ k / 2 ^ k = a / 2 ^ (2 * k).
Proof.
  intros H. pose proof (pow2_pos k ltac:(lia)).
  rewrite Z.div_div by lia. f_equal.
  replace (2 * k) with (k + k) by lia. rewrite Z.pow_add_r by lia. reflexivity.
Qed.

Lemma iter_shr_m (k : positive) (r : shr_record) :
  0 <= shr_m r ->
  shr_m (SpecFloat.iter_pos shr_1 k r) = shr_m r / 2 ^ Zpos k /\
  0 <= shr_m (SpecFloat.iter_pos shr_1 k r).
Proof.
  revert r. induction k as [k IH|k IH|]; intros r H; cbn [SpecFloat.iter_pos].
  - destruct (shr_1_m r H) as [E1 P1].
    destruct (IH _ P1) as [E2 P2]. destruct (IH _ P2) as [E3 P3].
    split; [|exact P3]. rewrite E3, E2, E1.
    rewrite div_pow2_twice by lia.
    pose proof (pow2_pos (2 * Zpos k) ltac:(lia)).
    rewrite Z.div_div by lia. f_equal.
  - destruct (IH _ H) as [E2 P2]. destruct (IH _ P2) as [E3 P3].
    split; [|exact P3]. rewrite E3, E2.
    rewrite div_pow2_twice by lia. reflexivity.
  - destruct (shr_1_m r H) as [E1 P1]. split; [|exact P1].
    rewrite E1. reflexivity.
Qed.

(** ** Rounding to 53 bits *)

Lemma fexp_normal (e : Z) : -1021 <= e -> fexp prec emax e = e - 53.
Proof. unfold fexp, emin, prec, emax. lia. Qed.

Lemma shr_record_of_loc_m (m : Z) (l : location) :
  shr_m (shr_record_of_loc m l) = m.
Proof. destruct l as [|[]]; reflexivity. Qed.

Lemma shr_spec (r : shr_record) (e n : Z) :
  0 <= shr_m r -> 0 <= n ->
  shr_m (fst (shr r e n)) = shr_m r / 2 ^ n /\ snd (shr r e n) = e + n.
Proof.
  intros Hr Hn. destruct n as [|p|p]; cbn [shr fst snd]; try lia.
  - rewrite Z.div_1_r. lia.
  - destruct (iter_shr_m p r Hr) as [E _]. split; [exact E | reflexivity].
Qed.

Lemma round_nearest_even_cases (m : Z) (l : location) :
  round_nearest_even m l = m \/ round_nearest_even m l = m + 1.
Proof.
  destruct l as [|[]]; cbn; auto. destruct (Z.even m); auto.
Qed.

Lemma div_pow2_bounds (m d k : Z) :
  0 <= k -> k < d -> 2 ^ (d - 1) <= m < 2 ^ d ->
  2 ^ (d - k - 1) <= m / 2 ^ k < 2 ^ (d - k).
Proof.
  intros Hk Hd [Hlo Hhi]. pose proof (pow2_pos k Hk).
  split.
  - apply Z.div_le_lower_bound; [lia|].
    rewrite <- Z.pow_add_r by lia. now replace (k + (d - k - 1)) with (d - 1) by lia.
  - apply Z.div_lt_upper_bound; [lia|].
    rewrite <- Z.pow_add_r by lia. now replace (k + (d - k)) with d by lia.
Qed.

(** The result of rounding a mantissa of at least 53 bits: the mantissa cut
    to 53 bits or its successor, which may carry into the next binade. *)
Lemma round_bracket (p : positive) (ex : Z) (lx : location) :
  let d := Zpos (digits2_pos p) in
  let k := d - 53 in
  53 <= d -> -1021 <= d + ex <= 1000 ->
  exists M E,
    binary_round_aux prec emax false (Zpos p) ex lx = S754_finite false M E /\
    Zpos (digits2_pos M) = 53 /\
    (((Zpos M = Zpos p / 2 ^ k \/ Zpos M = Zpos p / 2 ^ k + 1) /\ E = ex + k) \/
     (Zpos M = 2 ^ 52 /\ Zpos p / 2 ^ k + 1 = 2 ^ 53 /\ E = ex + k + 1)).
Proof.
  intros d k Hd Hrange.
  pose proof (digits_bounds p) as Hp. fold d in Hp.
  assert (Hm' : 2 ^ 52 <= Zpos p / 2 ^ k < 2 ^ 53).
  { pose proof (div_pow2_bounds (Zpos p) d k ltac:(lia) ltac:(lia) Hp) as H.
    replace (d - k - 1) with 52 in H by lia.
    now replace (d - k) with 53 in H by lia. }
  set (m' := Zpos p / 2 ^ k) in *.
  unfold binary_round_aux.
  destruct (shr_fexp prec emax (Zpos p) ex lx) as [mrs' e'] eqn:E1.
  assert (H1 : shr_m mrs' = m' /\ e' = ex + k).
  { unfold shr_fexp in E1. cbn [Zdigits2] in E1. fold d in E1.
    rewrite fexp_normal in E1 by lia.
    replace (d + ex - 53 - ex) with k in E1 by lia.
    pose proof (shr_spec (shr_record_of_loc (Zpos p) lx) ex k) as Hs.
    rewrite shr_record_of_loc_m, E1 in Hs. cbn [fst snd] in Hs.
    apply Hs; lia. }
  destruct H1 as [Hm He]. subst e'.
  set (m'' := round_nearest_even (shr_m mrs') (loc_of_shr_record mrs')).
  assert (Hm'' : m'' = m' \/ m'' = m' + 1).
  { unfold m''. rewrite <- Hm. apply round_nearest_even_cases. }
  assert (Hpos : 0 < m'') by lia.
  destruct m'' as [|q|q] eqn:Eq; try lia.
  destruct (Z.eq_dec (Zpos q) (2 ^ 53)) as [Hcarry|Hno].
  - (* the successor is 2^53 *)
    assert (Hq : q = 9007199254740992%positive).
    { apply Pos2Z.inj. rewrite Hcarry. reflexivity. }
    subst q.
    unfold shr_fexp. cbn [Zdigits2 shr_record_of_loc].
    change (Zpos (digits2_pos 9007199254740992)) with 54.
    rewrite fexp_normal by lia.
    replace (54 + (ex + k) - 53 - (ex + k)) with 1 by lia.
    cbn [shr SpecFloat.iter_pos shr_1 shr_m].
    assert (Hle : (ex + k + 1 <=? emax - prec) = true).
    { apply Z.leb_le. unfold emax, prec. lia. }
    rewrite Hle.
    exists (4503599627370496%positive), (ex + k + 1).
    split; [reflexivity|]. split; [reflexivity|].
    right. split; [reflexivity|]. split; [|reflexivity].
    change (2 ^ 53) with 9007199254740992. lia.
  - assert (Hdq : Zpos (digits2_pos q) = 53).
    { apply digits_unique. change (53 - 1) with 52. lia. }
    unfold shr_fexp. cbn [Zdigits2 shr_record_of_loc]. rewrite Hdq.
    rewrite fexp_normal by lia.
    replace (53 + (ex + k) - 53 - (ex + k)) with 0 by lia.
    cbn [shr shr_m].
    assert (Hle : (ex + k <=? emax - prec) = true).
    { apply Z.leb_le. unfold emax, prec. lia. }
    rewrite Hle. exists q, (ex + k). split; [reflexivity|]. split; [exact Hdq|].
    left. split; [lia | reflexivity].
Qed.

Lemma round_exact (m : positive) (e : Z) :
  Zpos (digits2_pos m) = 53 -> -1021 <= 53 + e <= 1000 ->
  binary_round_aux prec emax false (Zpos m) e loc_Exact = S754_finite false m e.
Proof.
  intros Hd He. unfold binary_round_aux, shr_fexp.
  cbn [Zdigits2 shr_record_of_loc]. rewrite Hd, fexp_normal by lia.
  replace (53 + e - 53 - e) with 0 by lia.
  cbn [shr shr_m loc_of_shr_record round_nearest_even Zdigits2 shr_record_of_loc].
  rewrite Hd, fexp_normal by lia.
  replace (53 + e - 53 - e) with 0 by lia. cbn [shr shr_m].
  assert (Hle : (e <=? emax - prec) = true).
  { apply Z.leb_le. unfold emax, prec. lia. }
  now rewrite Hle.
Qed.

Lemma iter_xO (p n : positive) : Zpos (Pos.iter xO p n) = Zpos p * 2 ^ Zpos n.
Proof.
  induction n as [|n IH] using Pos.peano_ind.
  - cbn [Pos.iter]. rewrite Pos2Z.inj_xO. change (2 ^ 1) with 2. lia.
  - rewrite Pos.iter_succ, Pos2Z.inj_xO, IH, Pos2Z.inj_succ.
    rewrite Z.pow_succ_r by lia. lia.
Qed.

(** An integer below [2^53] is a double: its mantissa is the integer
    shifted to 53 bits. *)
Lemma binary_normalize_exact (p : positive) :
  let d := Zpos (digits2_pos p) in
  d <= 53 ->
  exists M,
    binary_normalize prec emax (Zpos p) 0 false = S754_finite false M (d - 53) /\
    Zpos (digits2_pos M) = 53 /\
    Zpos M = Zpos p * 2 ^ (53 - d).
Proof.
  intros d Hd. cbn [binary_normalize]. unfold binary_round.
  pose proof (digits_bounds p) as Hp. fold d in Hp.
  assert (0 < d) by (unfold d; lia).
  rewrite Z.add_0_r. fold d. rewrite fexp_normal by lia.
  unfold shl_align. rewrite Z.sub_0_r.
  destruct (d - 53) as [|n|n] eqn:En; try lia.
  - exists p. assert (d = 53) by lia.
    rewrite round_exact by lia.
    split; [reflexivity|]. split; [assumption|].
    replace (53 - d) with 0 by lia. lia.
  - assert (Hn : Zpos n = 53 - d) by lia.
    assert (Hv : Zpos (Pos.iter xO p n) = Zpos p * 2 ^ (53 - d)).
    { rewrite iter_xO. now rewrite Hn. }
    assert (Hdig : Zpos (digits2_pos (Pos.iter xO p n)) = 53).
    { apply digits_unique. rewrite Hv. change (53 - 1) with 52.
      pose proof (pow2_pos (53 - d) ltac:(lia)).
      assert (E52 : 2 ^ 52 = 2 ^ (d - 1) * 2 ^ (53 - d)).
      { rewrite <- Z.pow_add_r by lia. f_equal. lia. }
      assert (E53 : 2 ^ 53 = 2 ^ d * 2 ^ (53 - d)).
      { rewrite <- Z.pow_add_r by lia. f_equal. lia. }
      rewrite E52, E53. split; nia. }
    exists (Pos.iter xO p n).
    rewrite round_exact by lia.
    split; [reflexivity|]. split; assumption.
Qed.

(** ** Division and multiplication of two doubles *)

Lemma SFdiv_bracket (m1 m2 : positive) (e1 e2 : Z) :
  Zpos (digits2_pos m1) = 53 -> Zpos (digits2_pos m2) = 53 ->
  -60 <= e1 <= 0 -> -60 <= e2 <= 0 ->
  exists q M E,
    SFdiv prec emax (S754_finite false m1 e1) (S754_finite false m2 e2) =
      S754_finite false M E /\
    Zpos m2 * Zpos q <= Zpos m1 * 2 ^ 53 < Zpos m2 * (Zpos q + 1) /\
    Zpos (digits2_pos M) = 53 /\
    53 <= Zpos (digits2_pos q) /\
    let k := Zpos (digits2_pos q) - 53 in
    let ex := e1 - e2 - 53 in
    (((Zpos M = Zpos q / 2 ^ k \/ Zpos M = Zpos q / 2 ^ k + 1) /\ E = ex + k) \/
     (Zpos M = 2 ^ 52 /\ Zpos q / 2 ^ k + 1 = 2 ^ 53 /\ E = ex + k + 1)).
Proof.
  intros H1 H2 He1 He2.
  pose proof (digits_bounds m1) as B1. pose proof (digits_bounds m2) as B2.
  rewrite H1 in B1. rewrite H2 in B2. change (53 - 1) with 52 in B1, B2.
  cbn [SFdiv xorb]. unfold SFdiv_core_binary. cbn [Zdigits2].
  rewrite H1, H2. rewrite fexp_normal by lia.
  replace (Z.min (53 + e1 - (53 + e2) - 53) (e1 - e2)) with (e1 - e2 - 53) by lia.
  replace (e1 - e2 - (e1 - e2 - 53)) with 53 by lia.
  rewrite Z.shiftl_mul_pow2 by lia.
  pose proof (Z_div_mod (Zpos m1 * 2 ^ 53) (Zpos m2) ltac:(lia)) as Hdiv.
  destruct (Z.div_eucl (Zpos m1 * 2 ^ 53) (Zpos m2)) as [q r].
  destruct Hdiv as [Hq Hr].
  assert (Hqlo : 2 ^ 52 <= q).
  { assert (Zpos m2 * 2 ^ 52 < Zpos m2 * (q + 1)); [|nia].
    change (2 ^ 53) with (2 * 2 ^ 52) in *. nia. }
  destruct q as [|q|q]; try (change (2 ^ 52) with 4503599627370496 in Hqlo; lia).
  assert (Hdq : 53 <= Zpos (digits2_pos q)).
  { pose proof (digits_bounds q) as Bq.
    destruct (Z_lt_le_dec (Zpos (digits2_pos q)) 53) as [Hlt|]; [|assumption].
    assert (2 ^ Zpos (digits2_pos q) <= 2 ^ 52); [|lia].
    apply Z.pow_le_mono_r; lia. }
  assert (Hqhi : Zpos q < 2 ^ 54).
  { change (2 ^ 54) with (2 * 2 ^ 53). change (2 ^ 53) with (2 * 2 ^ 52) in *. nia. }
  assert (Hdq' : Zpos (digits2_pos q) <= 54).
  { pose proof (digits_bounds q) as Bq.
    destruct (Z_lt_le_dec 54 (Zpos (digits2_pos q))) as [Hlt|]; [|lia].
    assert (2 ^ 54 <= 2 ^ (Zpos (digits2_pos q) - 1)); [|lia].
    apply Z.pow_le_mono_r; lia. }
  destruct (round_bracket q (e1 - e2 - 53) (new_location (Zpos m2) r) Hdq ltac:(lia))
    as (M & E & HR & HdM & Hcases).
  exists q, M, E. rewrite HR. split; [reflexivity|].
  split; [lia|]. split; [exact HdM|]. split; [exact Hdq | exact Hcases].
Qed.


(** ** The value of a double, and the error of one rounding *)

Lemma powerRZ_2_pos (e : Z) : (0 < powerRZ 2 e)%R.
Proof. apply powerRZ_lt. lra. Qed.

Lemma IZR_pow2 (k : Z) : 0 <= k -> IZR (2 ^ k) = powerRZ 2 k.
Proof.
  intros H. rewrite <- (Z2Nat.id k H), <- pow_powerRZ, <- pow_IZR. reflexivity.
Qed.

Lemma powerRZ_2_add (a b : Z) : (powerRZ 2 (a + b) = powerRZ 2 a * powerRZ 2 b)%R.
Proof. apply powerRZ_add. lra. Qed.

Lemma Rabs_bound (a b : R) : (Rabs a <= b)%R -> (- b <= a <= b)%R.
Proof. unfold Rabs. destruct (Rcase_abs a); lra. Qed.

Lemma round_error (p M : positive) (ex E : Z) (x : R) :
  let d := Zpos (digits2_pos p) in
  let k := d - 53 in
  53 <= d ->
  (((Zpos M = Zpos p / 2 ^ k \/ Zpos M = Zpos p / 2 ^ k + 1) /\ E = ex + k) \/
   (Zpos M = 2 ^ 52 /\ Zpos p / 2 ^ k + 1 = 2 ^ 53 /\ E = ex + k + 1)) ->
  (IZR (Zpos p) * powerRZ 2 ex <= x <= (IZR (Zpos p) + 1) * powerRZ 2 ex)%R ->
  (Rabs (value M E - x) <= x * ulp52)%R.
Proof.
  intros d k Hd Hcases Hx.
  pose proof (digits_bounds p) as Hp. fold d in Hp.
  pose proof (pow2_pos k ltac:(lia)) as Hk.
  set (a := Zpos p / 2 ^ k) in *.
  assert (Ha : 2 ^ 52 <= a < 2 ^ 53).
  { pose proof (div_pow2_bounds (Zpos p) d k ltac:(lia) ltac:(lia) Hp) as H.
    replace (d - k - 1) with 52 in H by lia.
    now replace (d - k) with 53 in H by lia. }
  assert (Hdiv : a * 2 ^ k <= Zpos p < (a + 1) * 2 ^ k).
  { unfold a. pose proof (Z.div_mod (Zpos p) (2 ^ k) ltac:(lia)).
    pose proof (Z.mod_pos_bound (Zpos p) (2 ^ k) Hk). nia. }
  set (u := powerRZ 2 (ex + k)).
  assert (Hu : (0 < u)%R) by apply powerRZ_2_pos.
  assert (Hex : (powerRZ 2 ex * IZR (2 ^ k) = u)%R).
  { unfold u. rewrite powerRZ_2_add, IZR_pow2 by lia. reflexivity. }
  (* the bracket of x *)
  assert (Hlo : (IZR a * u <= x)%R).
  { apply Rle_trans with (IZR (Zpos p) * powerRZ 2 ex)%R; [|apply Hx].
    rewrite <- Hex.
    replace (IZR a * (powerRZ 2 ex * IZR (2 ^ k)))%R
      with (IZR (a * 2 ^ k) * powerRZ 2 ex)%R by (rewrite mult_IZR; ring).
    apply Rmult_le_compat_r; [apply Rlt_le, powerRZ_2_pos|].
    apply IZR_le. lia. }
  assert (Hhi : (x <= (IZR a + 1) * u)%R).
  { apply Rle_trans with ((IZR (Zpos p) + 1) * powerRZ 2 ex)%R; [apply Hx|].
    rewrite <- Hex.
    replace ((IZR a + 1) * (powerRZ 2 ex * IZR (2 ^ k)))%R
      with (IZR ((a + 1) * 2 ^ k) * powerRZ 2 ex)%R
      by (rewrite mult_IZR, plus_IZR; ring).
    apply Rmult_le_compat_r; [apply Rlt_le, powerRZ_2_pos|].
    rewrite <- (plus_IZR _ 1). apply IZR_le. lia. }
  (* the value of the result *)
  assert (Hv : (value M E = IZR a * u \/ value M E = (IZR a + 1) * u)%R).
  { unfold value. destruct Hcases as [[[HM|HM] ->]|(HM & Hc & ->)]; rewrite HM.
    - now left.
    - right. now rewrite plus_IZR.
    - right. replace (ex + k + 1) with ((ex + k) + 1) by lia.
      rewrite powerRZ_2_add. fold u. rewrite powerRZ_1.
      rewrite <- (plus_IZR a 1), Hc.
      change (2 ^ 53) with (2 ^ 52 * 2). rewrite mult_IZR. ring. }
  assert (Ha52 : (4503599627370496 <= IZR a)%R).
  { apply IZR_le. change (2 ^ 52) with 4503599627370496 in Ha. lia. }
  assert (Hux : (u <= x * ulp52)%R).
  { unfold ulp52.
    assert (4503599627370496 * u <= x)%R by nra.
    lra. }
  apply Rabs_le. destruct Hv as [-> | ->]; lra.
Qed.

Lemma pow2_lt_inv (a b : Z) : 0 <= b -> 2 ^ a < 2 ^ b -> a < b.
Proof. intros Hb H. apply (Z.pow_lt_mono_r_iff 2); lia. Qed.

Lemma digits_range (p : positive) (lo hi : Z) :
  0 <= lo -> 0 <= hi -> 2 ^ lo <= Zpos p < 2 ^ hi ->
  lo + 1 <= Zpos (digits2_pos p) <= hi.
Proof.
  intros Hlo Hhi H. pose proof (digits_bounds p) as Hp.
  assert (Zpos (digits2_pos p) - 1 < hi) by (apply pow2_lt_inv; lia).
  assert (lo < Zpos (digits2_pos p)) by (apply pow2_lt_inv; lia).
  lia.
Qed.

Lemma div_error (m1 m2 : positive) (e1 e2 : Z) :
  Zpos (digits2_pos m1) = 53 -> Zpos (digits2_pos m2) = 53 ->
  -60 <= e1 <= 0 -> -60 <= e2 <= 0 ->
  exists M E,
    SFdiv prec emax (S754_finite false m1 e1) (S754_finite false m2 e2) =
      S754_finite false M E /\
    Zpos (digits2_pos M) = 53 /\
    e1 - e2 - 53 <= E <= e1 - e2 - 51 /\
    (Rabs (value M E - value m1 e1 / value m2 e2) <=
       value m1 e1 / value m2 e2 * ulp52)%R.
Proof.
  intros H1 H2 He1 He2.
  destruct (SFdiv_bracket m1 m2 e1 e2 H1 H2 He1 He2)
    as (q & M & E & Hdiv & Hq & HM & Hdq & Hcases).
  cbv zeta in Hcases.
  pose proof (digits_bounds m1) as B1. rewrite H1 in B1.
  pose proof (digits_bounds m2) as B2. rewrite H2 in B2.
  change (2 ^ (53 - 1)) with 4503599627370496 in B1, B2.
  change (2 ^ 53) with 9007199254740992 in B1, B2, Hq.
  assert (Hdq' : 53 <= Zpos (digits2_pos q) <= 54).
  { split; [exact Hdq|]. apply (digits_range q 0 54); [lia|lia|].
    change (2 ^ 0) with 1. change (2 ^ 54) with 18014398509481984. nia. }
  exists M, E. split; [exact Hdiv|]. split; [exact HM|]. split.
  { destruct Hcases as [[_ ->]|(_ & _ & ->)]; lia. }
  apply (round_error q M (e1 - e2 - 53) E); [exact Hdq|exact Hcases|].
  set (x := (value m1 e1 / value m2 e2)%R).
  set (P := powerRZ 2 (e1 - e2 - 53)).
  set (T := powerRZ 2 e2).
  assert (HP : (0 < P)%R) by apply powerRZ_2_pos.
  assert (HT : (0 < T)%R) by apply powerRZ_2_pos.
  assert (HB : (0 < IZR (Zpos m2))%R) by (apply IZR_lt; lia).
  assert (H53 : powerRZ 2 53 = 9007199254740992%R).
  { rewrite <- IZR_pow2 by lia. reflexivity. }
  assert (He : (powerRZ 2 e1 = P * T * 9007199254740992)%R).
  { rewrite <- H53. unfold P, T. rewrite <- !powerRZ_2_add. f_equal. lia. }
  assert (Hx : (x * IZR (Zpos m2) = IZR (Zpos m1) * 9007199254740992 * P)%R).
  { unfold x, value. fold T. rewrite He. field. split; lra. }
  assert (Hq1 : (IZR (Zpos m2) * IZR (Zpos q) <= IZR (Zpos m1) * 9007199254740992)%R).
  { rewrite <- !mult_IZR. apply IZR_le. lia. }
  assert (Hq2 : (IZR (Zpos m1) * 9007199254740992 <= IZR (Zpos m2) * (IZR (Zpos q) + 1))%R).
  { rewrite <- (plus_IZR _ 1), <- !mult_IZR. apply IZR_le. lia. }
  split; apply Rmult_le_reg_r with (IZR (Zpos m2)); try exact HB; rewrite Hx; nra.
Qed.


(** ** Counts as doubles *)

Lemma number_zero : Prim2SF (Logger.number 0) = S754_zero false.
Proof. reflexivity. Qed.

Lemma number_positive (n : nat) :
  0 < Z.of_nat n < 2 ^ 31 ->
  exists M e,
    Prim2SF (Logger.number n) = S754_finite false M e /\
    Zpos (digits2_pos M) = 53 /\
    -52 <= e <= -22 /\
    value M e = IZR (Z.of_nat n).
Proof.
  intros Hn. unfold Logger.number.
  rewrite of_uint63_spec, Uint63.of_Z_spec.
  rewrite Z.mod_small
    by (change Uint63.wB with 9223372036854775808;
        change (2 ^ 31) with 2147483648 in Hn; lia).
  destruct (Z.of_nat n) as [|p|p]; try lia.
  assert (Hd : 1 <= Zpos (digits2_pos p) <= 31).
  { apply (digits_range p 0 31); [lia|lia|]. change (2 ^ 0) with 1. lia. }
  destruct (binary_normalize_exact p ltac:(lia)) as (M & HM & HdM & HvM).
  exists M, (Zpos (digits2_pos p) - 53).
  split; [exact HM|]. split; [exact HdM|]. split; [lia|].
  unfold value. rewrite HvM, mult_IZR, IZR_pow2 by lia.
  rewrite Rmult_assoc, <- powerRZ_2_add.
  replace (53 - Zpos (digits2_pos p) + (Zpos (digits2_pos p) - 53)) with 0 by lia.
  simpl. ring.
Qed.



(** ** The ratio, in percent *)




End FloatFacts.

(* ===================================================================== *)
(** * Properties of the import log service *)
(* ===================================================================== *)

Module LoggerFacts.
Import Logger.
#[local] Open Scope Z_scope.


Lemma successRate_none (completed : nat) :
  successRate completed 0 = RateNumber 0.
Proof. reflexivity. Qed.





End LoggerFacts.

(* ===================================================================== *)
(** * Further properties of [processJob] *)
(* ===================================================================== *)

Module StoreFacts.
Import Model Processor ModelFacts ProcessJobFacts BatchFacts Terms.

Lemma processJob_outcome (now : Z) (c : JobData.t) (coll : Collection) :
  Outcome now c coll (fst (processJob now c coll)) (snd (processJob now c coll)).
Proof.
  unfold processJob. destruct (missingRequired c) eqn:Hreq; [apply Failed|].
  fold (keyId c) (keyUrl c).
  destruct (findOne (keyId c) (keyUrl c) coll) as [[i loaded]|] eqn:Hfind;
    unfold savePhase.
  - unfold saveExisting.
    destruct (validate (assign loaded c now)) eqn:Hval; [|apply Failed].
    destruct (findOne_Some _ _ _ _ _ Hfind) as [Hnth _]. rewrite Hnth.
    rewrite applyChanges_unchanged.
    destruct (violated (Some i) (assign loaded c now) coll) eqn:Hviol;
      [apply Failed|].
    now apply Updated.
  - unfold saveNew.
    destruct (validate (newJob c now)) eqn:Hval; [|apply Failed].
    destruct (violated None (newJob c now) coll) eqn:Hviol; [apply Failed|].
    now apply Created.
Qed.


Lemma uniqueKeys_replace (coll : Collection) (i : nat) (x : Job) :
  uniqueKeys coll ->
  (forall q d, nth_error coll q = Some d -> q <> i ->
               externalId d <> externalId x /\ url d <> url x) ->
  uniqueKeys (setAt i x coll).
Proof.
  intros Huniq Hfresh p q a b Ha Hb Hkey.
  apply nth_error_setAt_cases in Ha, Hb.
  destruct Ha as [[-> ->]|[Hp Ha]], Hb as [[-> ->]|[Hq Hb]].
  - reflexivity.
  - destruct (Hfresh q b Hb Hq) as [H1 H2]. destruct Hkey; congruence.
  - destruct (Hfresh p a Ha Hp) as [H1 H2]. destruct Hkey; congruence.
  - exact (Huniq p q a b Ha Hb Hkey).
Qed.

Lemma violated_others (i : nat) (doc : Job) (coll : Collection) :
  violated (Some i) doc coll = None ->
  forall q d, nth_error coll q = Some d -> q <> i ->
              externalId d <> externalId doc /\ url d <> url doc.
Proof.
  intros H q d Hd Hq. apply (proj1 (violated_None (Some i) doc coll) H q d Hd).
  simpl. now apply Nat.eqb_neq.
Qed.

Lemma violated_all (doc : Job) (coll : Collection) :
  violated None doc coll = None ->
  forall q d, nth_error coll q = Some d ->
              externalId d <> externalId doc /\ url d <> url doc.
Proof.
  intros H q d Hd. now apply (proj1 (violated_None None doc coll) H q d Hd).
Qed.

Lemma uniqueKeys_one (x : Job) : uniqueKeys [x].
Proof.
  intros i j a b Ha Hb _.
  apply nth_error_in_range in Ha, Hb. simpl in Ha, Hb. lia.
Qed.

(** X1. A call of [processJob] never removes or reorders a document: when it
    fails the collection is as before; when it reports [created] the reported
    job was appended; when it reports [updated] the reported job replaced the
    document at one position, and nothing else changed. *)
Theorem processJob_frame (now : Z) (c : JobData.t) (coll : Collection) :
  let r := fst (processJob now c coll) in
  let coll' := snd (processJob now c coll) in
  (success r = false -> coll' = coll) /\
  (action r = "created" ->
   exists doc, job r = Some doc /\ coll' = (coll ++ [doc])%list) /\
  (action r = "updated" ->
   exists i doc, job r = Some doc /\ i < length coll /\ coll' = setAt i doc coll /\
                 nth_error coll' i = Some doc /\
                 forall j, j <> i -> nth_error coll' j = nth_error coll j).
Proof.
  cbv zeta. destruct (processJob_outcome now c coll) as [e| |i loaded Hreq Hfind].
  - repeat split; try discriminate; reflexivity.
  - split; [discriminate|]. split; [|discriminate].
    intros _. now exists (newJob c now).
  - split; [discriminate|]. split; [discriminate|].
    intros _. exists i, (assign loaded c now).
    destruct (findOne_Some _ _ _ _ _ Hfind) as [Hnth _].
    pose proof (nth_error_in_range _ _ _ Hnth) as Hi.
    split; [reflexivity|]. split; [exact Hi|]. split; [reflexivity|].
    split; [now apply nth_error_setAt_eq|].
    intros j Hj. apply nth_error_setAt_ne. congruence.
Qed.

(** X2. [processJob] keeps the unique indexes: if no two stored jobs share an
    externalId or a url before the call, none do after it, whatever the
    candidate and the outcome. *)
Theorem processJob_keeps_unique_keys (now : Z) (c : JobData.t)
    (coll : Collection) :
  uniqueKeys coll -> uniqueKeys (snd (processJob now c coll)).
Proof.
  intros Huniq.
  destruct (processJob_outcome now c coll) as [e|Hreq Hfind Hval Hviol|i loaded Hreq Hfind Hval Hviol].
  - exact Huniq.
  - apply uniqueKeys_app; [exact Huniq|]. now apply violated_all.
  - apply uniqueKeys_replace; [exact Huniq|]. now apply violated_others.
Qed.

Lemma processJob_keeps_unique_keys_witness :
  uniqueKeys (snd (processJob 7 Samples.straddling
                     [Samples.stored "b" "https://acme.example/2"])).
Proof.
  apply (processJob_keeps_unique_keys 7 Samples.straddling
           [Samples.stored "b" "https://acme.example/2"]).
  apply uniqueKeys_one.
Defined.

Lemma findOne_last (eid u : string) (coll : Collection) (x : Job) :
  findOne eid u coll = None -> matches eid u x = true ->
  findOne eid u (coll ++ [x])%list = Some (length coll, x).
Proof.
  intros Hnone Hx. apply findOne_only.
  - apply PipelineFacts.nth_error_last.
  - exact Hx.
  - intros j d Hj Hd. apply nth_error_snoc in Hd. destruct Hd as [Hd|[-> _]].
    + now apply (proj1 (findOneFrom_None 0 eid u coll) Hnone j d).
    + congruence.
Qed.

Lemma orDefault_twice {A : Type} (o : option A) (d : A) :
  orDefault o (orDefault o d) = orDefault o d.
Proof. now destruct o. Qed.

Lemma assign_newJob (c : JobData.t) (t1 t2 : Z) :
  assign (newJob c t1) c t2 = touch (newJob c t1) t2.
Proof.
  unfold assign, newJob, touch; cbn. now rewrite !orDefault_twice.
Qed.

Lemma assign_assign (loaded : Job) (c : JobData.t) (t1 t2 : Z) :
  assign (assign loaded c t1) c t2 = touch (assign loaded c t1) t2.
Proof.
  unfold assign, touch; cbn. now rewrite !orDefault_twice.
Qed.

Lemma validate_touch (doc : Job) (now : Z) :
  validate doc = [] -> validate (touch doc now) = [].
Proof. intros H. exact H. Qed.

(** What a successful call leaves behind: the reported job is stored at one
    position, a lookup by the keys of the candidate finds it there, no other
    document has one of its keys, and assigning the candidate again changes
    its [updatedAt] only. *)
Lemma processJob_stored (now : Z) (c : JobData.t) (coll : Collection) :
  success (fst (processJob now c coll)) = true ->
  exists i doc,
    job (fst (processJob now c coll)) = Some doc /\
    findOne (keyId c) (keyUrl c) (snd (processJob now c coll)) = Some (i, doc) /\
    holds doc c /\
    missingRequired c = false /\
    externalId doc = keyId c /\ url doc = keyUrl c /\
    (forall q d, nth_error (snd (processJob now c coll)) q = Some d -> q <> i ->
                 externalId d <> keyId c /\ url d <> keyUrl c) /\
    (forall t, assign doc c t = touch doc t) /\
    (forall t, validate (touch doc t) = []).
Proof.
  destruct (processJob_outcome now c coll)
    as [e|Hreq Hfind Hval Hviol|i loaded Hreq Hfind Hval Hviol];
    [discriminate| |]; intros _.
  - exists (length coll), (newJob c now). split; [reflexivity|].
    split; [|split; [apply holds_newJob|]].
    { apply findOne_last; [exact Hfind|].
      apply matches_true. left. reflexivity. }
    split; [exact Hreq|]. split; [reflexivity|]. split; [reflexivity|].
    split; [|split].
    + intros q d Hd Hq. apply nth_error_snoc in Hd.
      destruct Hd as [Hd|[-> _]]; [|congruence].
      exact (violated_all _ _ Hviol q d Hd).
    + intros t. apply assign_newJob.
    + intros t. exact (validate_touch _ t Hval).
  - exists i, (assign loaded c now). split; [reflexivity|].
    destruct (findOne_Some _ _ _ _ _ Hfind) as [Hnth _].
    pose proof (nth_error_in_range _ _ _ Hnth) as Hi.
    destruct (assign_keys loaded c now Hreq) as [Kid Kurl].
    assert (Hothers : forall q d,
               nth_error (setAt i (assign loaded c now) coll) q = Some d -> q <> i ->
               externalId d <> keyId c /\ url d <> keyUrl c).
    { intros q d Hd Hq. rewrite nth_error_setAt_ne in Hd by congruence.
      rewrite <- Kid, <- Kurl. exact (violated_others i _ coll Hviol q d Hd Hq). }
    split; [|split; [apply holds_assign|]].
    { apply findOne_only.
      - now apply nth_error_setAt_eq.
      - apply matches_true. now left.
      - intros j d Hj Hd. apply matches_false. now apply (Hothers j d). }
    split; [exact Hreq|]. split; [exact Kid|]. split; [exact Kurl|].
    split; [exact Hothers|]. split.
    + intros t. apply assign_assign.
    + intros t. exact (validate_touch _ t Hval).
Qed.

(** X3. What [processJob] stored is what a lookup by the candidate's keys
    finds: after a successful call, [findOne] on the candidate's externalId
    and url returns the job the call reported, and that job holds every field
    the candidate carried. *)
Theorem processJob_then_findOne (now : Z) (c : JobData.t) (coll : Collection) :
  success (fst (processJob now c coll)) = true ->
  exists i doc,
    job (fst (processJob now c coll)) = Some doc /\
    findOne (keyId c) (keyUrl c) (snd (processJob now c coll)) = Some (i, doc) /\
    holds doc c.
Proof.
  intros Hok.
  destruct (processJob_stored now c coll Hok) as (i & doc & Hjob & Hfind & Hholds & _).
  now exists i, doc.
Qed.

Lemma processJob_then_findOne_witness :
  exists i doc,
    job (fst (processJob 7 Samples.posting [])) = Some doc /\
    findOne (keyId Samples.posting) (keyUrl Samples.posting)
            (snd (processJob 7 Samples.posting [])) = Some (i, doc) /\
    holds doc Samples.posting.
Proof.
  apply (processJob_then_findOne 7 Samples.posting []). reflexivity.
Defined.


(** X4. Processing an accepted candidate once more is an update that changes
    nothing but [updatedAt]: after a successful call, a second call for the
    same candidate, at any later time and in the collection the first call
    left, reports [updated] and rewrites the stored job with the new
    [updatedAt] and every other field as it was. *)
Theorem processJob_again (t1 t2 : Z) (c : JobData.t) (coll : Collection) :
  success (fst (processJob t1 c coll)) = true ->
  let coll1 := snd (processJob t1 c coll) in
  exists i stored,
    job (fst (processJob t1 c coll)) = Some stored /\
    nth_error coll1 i = Some stored /\
    processJob t2 c coll1 =
      (resultUpdated (touch stored t2), setAt i (touch stored t2) coll1) /\
    length (snd (processJob t2 c coll1)) = length coll1.
Proof.
  intros Hok coll1.
  destruct (processJob_stored t1 c coll Hok)
    as (i & doc & Hjob & Hfind & _ & Hreq & Kid & Kurl & Hothers & Hassign & Hval).
  fold coll1 in Hfind, Hothers.
  destruct (findOne_Some _ _ _ _ _ Hfind) as [Hnth _].
  exists i, doc. split; [exact Hjob|]. split; [exact Hnth|].
  assert (E : processJob t2 c coll1 =
              (resultUpdated (assign doc c t2), setAt i (assign doc c t2) coll1)).
  { apply processJob_updates.
    - exact Hreq.
    - exact Hnth.
    - now left.
    - intros j d Hj Hd. now apply (Hothers j d).
    - rewrite Hassign. apply Hval. }
  rewrite Hassign in E. split; [exact E|].
  rewrite E. cbn [snd]. apply setAt_length.
Qed.

Lemma processJob_again_witness :
  exists i stored,
    job (fst (processJob 1 Samples.posting [])) = Some stored /\
    nth_error (snd (processJob 1 Samples.posting [])) i = Some stored /\
    processJob 2 Samples.posting (snd (processJob 1 Samples.posting [])) =
      (resultUpdated (touch stored 2),
       setAt i (touch stored 2) (snd (processJob 1 Samples.posting []))) /\
    length (snd (processJob 2 Samples.posting (snd (processJob 1 Samples.posting [])))) =
      length (snd (processJob 1 Samples.posting [])).
Proof.
  apply (processJob_again 1 2 Samples.posting []). reflexivity.
Defined.

End StoreFacts.

(* ===================================================================== *)
(** * Further properties of [batchProcessJobs] *)
(* ===================================================================== *)

Module BatchOutcomeFacts.
Import Model Processor ModelFacts ProcessJobFacts BatchFacts.

Lemma tally_errors (results : list SettledResult) (stats : Stats) :
  length (errors stats) = failed stats ->
  length (errors (fold_left tally results stats)) =
  failed (fold_left tally results stats).
Proof.
  revert stats. induction results as [|r rest IH]; intros stats H; [exact H|].
  cbn [fold_left]. apply IH.
  destruct r as [value|reason]; cbn [tally].
  - destruct (success value).
    + destruct (String.eqb (action value) "created"); [exact H|].
      destruct (String.eqb (action value) "updated"); exact H.
    + cbn. rewrite length_app. cbn. lia.
  - cbn. rewrite length_app. cbn. lia.
Qed.

(** X5. The statistics of a batch list one reason per failure: whenever
    [batchProcessJobs] resolves, under any order in which the calls were
    served, [stats.errors] has exactly [stats.failed] entries and
    [stats.total] is the number of candidates. *)
Theorem batch_errors_match_failed (schedule : Schedule) (jobs : list JobData.t)
    (coll : Collection) (stats : Stats) (coll' : Collection) :
  batchProcessJobs schedule jobs coll = Some (stats, coll') ->
  length (errors stats) = failed stats /\ total stats = length jobs.
Proof.
  unfold batchProcessJobs.
  destruct (run schedule (coll, map Pending jobs)) as [c tasks].
  destruct (Js.sequence (map settledResult tasks)) as [results|]; [|discriminate].
  intros [= <- _]. unfold summarize. split.
  - now apply tally_errors.
  - now rewrite tally_total.
Qed.

Lemma batch_errors_match_failed_witness :
  exists stats coll',
    batchProcessJobs (inOrder 0 10) Samples.tenJobs [] = Some (stats, coll') /\
    length (errors stats) = failed stats /\ total stats = 10.
Proof.
  eexists; eexists. split; [reflexivity|].
  eapply (batch_errors_match_failed (inOrder 0 10) Samples.tenJobs []).
  reflexivity.
Defined.

Lemma violatedFrom_last (k : nat) (x : Job) (coll : Collection) :
  (forall q d, nth_error coll q = Some d ->
               externalId d <> externalId x /\ url d <> url x) ->
  violatedFrom k None x (coll ++ [x])%list = Some "externalId_1".
Proof.
  revert k. induction coll as [|d rest IH]; intros k H.
  - cbn. now rewrite String.eqb_refl.
  - cbn. destruct (H 0 d eq_refl) as [H1 H2].
    apply String.eqb_neq in H1, H2. rewrite H1, H2.
    apply IH. intros q d' Hd'. exact (H (S q) d' Hd').
Qed.

(** X6. Two candidates with the same keys in one batch race: when both
    lookups are served before either write, as the calls of a batch are
    started together, and no stored job has these keys, the first call
    creates the job and the second fails on a unique index;
    the batch counts one created and one failed and stores the job once. *)
Theorem batch_duplicate_pair (now : Z) (c : JobData.t) (coll : Collection) :
  acceptable c = true ->
  (forall q d, nth_error coll q = Some d ->
               externalId d <> keyId c /\ url d <> keyUrl c) ->
  exists index,
    batchProcessJobs (inOrder now 2) [c; c] coll =
      Some ({| total := 2; created := 1; updated := 0; failed := 1;
               errors := [Message (DuplicateKey index)] |},
            (coll ++ [newJob c now])%list).
Proof.
  intros Hacc Hfresh. exists "externalId_1".
  pose proof (acceptable_required c Hacc) as Hreq.
  pose proof (acceptable_newJob c now Hacc) as Hval.
  assert (Hfind : findOne (keyId c) (keyUrl c) coll = None).
  { apply findOneFrom_None. intros q d Hd. apply matches_false. exact (Hfresh q d Hd). }
  unfold batchProcessJobs, inOrder, run.
  cbn [seq map app fold_left step nth_error advance setAt].
  unfold lookupPhase. rewrite Hreq. fold (keyId c) (keyUrl c). rewrite Hfind.
  cbn [nth_error advance setAt].
  rewrite (savePhase_created now c coll Hfresh Hval).
  cbn [nth_error advance setAt].
  unfold savePhase at 1, saveNew. rewrite Hval.
  unfold violated. rewrite violatedFrom_last by exact Hfresh.
  reflexivity.
Qed.

Lemma batch_duplicate_pair_witness :
  exists index,
    batchProcessJobs (inOrder 5 2) [Samples.posting; Samples.posting] [] =
      Some ({| total := 2; created := 1; updated := 0; failed := 1;
               errors := [Message (DuplicateKey index)] |},
            [newJob Samples.posting 5]).
Proof.
  apply (batch_duplicate_pair 5 Samples.posting []).
  - reflexivity.
  - intros q d Hd. destruct q; discriminate Hd.
Defined.

End BatchOutcomeFacts.

(* ===================================================================== *)
(** * Further properties of the fetcher *)
(* ===================================================================== *)

Module FeedFacts.
Import Js Fetcher FetcherFacts ExtractFacts Scenarios.

Lemma substring_length (n : nat) (s : string) :
  String.length (substring 0 n s) <= n.
Proof.
  revert s. induction n as [|n IH]; intros s.
  - destruct s; simpl; lia.
  - destruct s as [|c r]; simpl; [lia|]. specialize (IH r). lia.
Qed.

Lemma substring0_length (n : N) (s : string) :
  (N.of_nat (String.length (substring0 n s)) <= n)%N.
Proof.
  unfold substring0. pose proof (substring_length (N.to_nat n) s). lia.
Qed.

Section WithDates.
Variable parseDate : string -> option Z.
Variable timeOfNumber : string -> option Z.
Variable now : Z.

Ltac step H :=
  match type of H with
  | bind ?m _ = Some _ =>
      let E := fresh "E" in
      destruct m eqn:E; [cbn [bind] in H | discriminate H]
  end.

(** X7. Every field of a normalized job respects the bound the fetcher cuts
    it to: externalId, title, company and location have at most 200 code
    units, category at most 100, url at most 500 and description at most
    5000. *)
Theorem normalizeJob_bounds (job : JsVal) (sourceUrl : string) (r : NormalizedJob) :
  normalizeJob parseDate timeOfNumber now job sourceUrl = Some r ->
  (N.of_nat (String.length (externalId r)) <= 200)%N /\
  (N.of_nat (String.length (title r)) <= 200)%N /\
  (N.of_nat (String.length (company r)) <= 200)%N /\
  (N.of_nat (String.length (category r)) <= 100)%N /\
  (N.of_nat (String.length (location r)) <= 200)%N /\
  (N.of_nat (String.length (description r)) <= 5000)%N /\
  (N.of_nat (String.length (url r)) <= 500)%N.
Proof.
  intros H. unfold normalizeJob in H.
  repeat step H.
  match goal with
  | Hx : match ?x with Own _ => _ | Proto _ => _ end = Some _ |- _ =>
      destruct x as [[]|]; try discriminate Hx; injection Hx as <-
  end.
  injection H as <-. cbn.
  repeat split; apply substring0_length.
Qed.


Lemma normalizeJob_id_not_string (job : JsVal) (sourceUrl : string) (x : Looked) :
  probe job idKeys = Some (Some x) ->
  (forall s, x <> Own (JStr s)) ->
  normalizeJob parseDate timeOfNumber now job sourceUrl = None.
Proof.
  intros Hid Hx.
  destruct (normalizeJob parseDate timeOfNumber now job sourceUrl) as [r|] eqn:H;
    [|reflexivity].
  exfalso. unfold normalizeJob in H. rewrite Hid in H.
  repeat step H.
  match goal with
  | Hx' : match ?y with Own _ => _ | Proto _ => _ end = Some _ |- _ =>
      destruct y as [[]|]; try discriminate Hx'
  end.
  eapply Hx. reflexivity.
Qed.

Lemma sequence_None {A : Type} (l : list (option A)) :
  In None l -> sequence l = None.
Proof.
  induction l as [|[a|] r IH]; intros Hin.
  - destruct Hin.
  - cbn. destruct Hin as [Hin|Hin]; [discriminate|]. now rewrite IH.
  - reflexivity.
Qed.

(** X8. One item with an identifier that is not a string voids its whole
    feed: if, for some item of the document, the first truthy of [id], [guid]
    and [@_id] is a number, an object or any value other than a string, then
    [extractJobs] returns the empty array, whatever the other items are. *)
Theorem extractJobs_id_not_string (doc : JsVal) (sourceUrl : string)
    (job : JsVal) (x : Looked) :
  In job (specItems doc) ->
  probe job idKeys = Some (Some x) ->
  (forall s, x <> Own (JStr s)) ->
  extractJobs parseDate timeOfNumber now doc sourceUrl = [].
Proof.
  intros Hin Hid Hx. unfold extractJobs.
  destruct (nullish doc) eqn:Hnull.
  - now rewrite (proj1 (selectJobs_nullish doc Hnull)).
  - rewrite (selectJobs_specItems doc Hnull).
    rewrite sequence_None; [reflexivity|].
    apply in_map_iff. exists job. split; [|exact Hin].
    now apply normalizeJob_id_not_string with (x := x).
Qed.

End WithDates.

Lemma normalizeJob_bounds_witness :
  exists r,
    normalizeJob (fun _ => None) (fun _ => None) 0 sampleItem
      "https://jobs.example/feed" = Some r /\
    (N.of_nat (String.length (externalId r)) <= 200)%N /\
    (N.of_nat (String.length (description r)) <= 5000)%N.
Proof.
  eexists. split; [reflexivity|].
  pose proof (normalizeJob_bounds (fun _ => None) (fun _ => None) 0 sampleItem
                "https://jobs.example/feed" _ eq_refl)
    as (H1 & _ & _ & _ & _ & H6 & _).
  exact (conj H1 H6).
Defined.

Lemma extractJobs_id_not_string_witness :
  extractJobs (fun _ => None) (fun _ => None) 0 numericIdFeed
    "https://jobs.example/feed" = [].
Proof.
  apply (extractJobs_id_not_string (fun _ => None) (fun _ => None) 0
           numericIdFeed "https://jobs.example/feed"
           (JObj [("id", JNum "42"); ("title", JStr "Designer")])
           (Own (JNum "42"))).
  - right. left. reflexivity.
  - reflexivity.
  - discriminate.
Defined.


Lemma typeMap_values (k : string) (v : JsVal) :
  assoc k typeMap = Some v ->
  exists s, v = JStr s /\ In s Model.jobTypes /\ s <> "Other".
Proof.
  unfold typeMap. cbn [assoc].
  repeat (destruct (String.eqb k _);
          [intros [= <-]; eexists; split; [reflexivity|];
           split; [cbn; tauto | discriminate]|]).
  discriminate.
Qed.

Lemma jobTypes_fixed (s : string) :
  In s Model.jobTypes -> normalizeJobType s = Own (JStr s).
Proof.
  intros H. cbn in H.
  repeat (destruct H as [<-|H]; [reflexivity|]). destruct H.
Qed.

(** X9. [normalizeJobType] maps into the enum of the Job schema and leaves the
    enum fixed: for every text that does not read [constructor] or
    [__proto__] once trimmed and lower-cased, the result is one of the six
    values the schema accepts; and whenever the result is a text, normalizing
    that text again returns it. *)
Theorem normalizeJobType_range (type : string) :
  let normalized := trim (toLowerCase type) in
  (normalized <> "constructor" -> normalized <> "__proto__" ->
   exists s, normalizeJobType type = Own (JStr s) /\ In s Model.jobTypes) /\
  (forall s, normalizeJobType type = Own (JStr s) ->
             In s Model.jobTypes /\ normalizeJobType s = Own (JStr s)) /\
  (forall s, In s Model.jobTypes -> normalizeJobType s = Own (JStr s)).
Proof.
  intros normalized.
  destruct (normalizeJobType_table type) as [Hown Hother].
  fold normalized in Hown, Hother.
  assert (Hcases :
    (exists s, normalizeJobType type = Own (JStr s) /\ In s Model.jobTypes) \/
    ((normalized = "constructor" \/ normalized = "__proto__") /\
     normalizeJobType type = Proto normalized)).
  { destruct (assoc normalized typeMap) as [v|] eqn:Ha.
    - left. destruct (typeMap_values _ _ Ha) as (s & -> & Hin & _).
      exists s. split; [now apply Hown|exact Hin].
    - destruct (String.eqb_spec normalized "constructor") as [Hc|Hc].
      + right. split; [now left|].
        unfold normalizeJobType. fold normalized. now rewrite Hc.
      + destruct (String.eqb_spec normalized "__proto__") as [Hp|Hp].
        * right. split; [now right|].
          unfold normalizeJobType. fold normalized. now rewrite Hp.
        * left. exists "Other". split; [now apply Hother|]. cbn. tauto. }
  split; [|split].
  - intros Hc Hp. destruct Hcases as [H|[[H|H] _]]; [exact H| |]; contradiction.
  - intros s Hs. destruct Hcases as [(s' & Hs' & Hin)|[_ Hproto]].
    + rewrite Hs' in Hs. injection Hs as <-.
      split; [exact Hin|now apply jobTypes_fixed].
    + rewrite Hproto in Hs. discriminate.
  - apply jobTypes_fixed.
Qed.

End FeedFacts.

(* ===================================================================== *)
(** * Further properties of the queue *)
(* ===================================================================== *)

Module QueueInvariantFacts.
Import JobQueue QueueFacts Scenarios.

Lemma append_same_length (a b x y : string) :
  String.length a = String.length b -> (a ++ x = b ++ y)%string -> a = b /\ x = y.
Proof.
  revert b. induction a as [|c a IH]; intros [|d b] Hlen H; try discriminate Hlen.
  - now split.
  - cbn in H. injection H as -> H. injection Hlen as Hlen.
    destruct (IH b Hlen H) as [-> ->]. now split.
Qed.

(** X10. The queue id of a bulk job determines the import and the candidate:
    for import ids of the same length, as the ids of import logs are, two
    bulk jobs with the same [jobId] belong to the same import and carry the
    same externalId. *)
Theorem bulk_jobId_injective (jobs1 jobs2 : list Fetcher.NormalizedJob)
    (id1 id2 : string) (q1 q2 : QueueJob) :
  In q1 (bulkJobs jobs1 id1) -> In q2 (bulkJobs jobs2 id2) ->
  String.length id1 = String.length id2 ->
  jobId q1 = jobId q2 ->
  importLogId q1 = importLogId q2 /\
  Fetcher.externalId (jobData q1) = Fetcher.externalId (jobData q2).
Proof.
  unfold bulkJobs. intros H1 H2 Hlen Hid.
  apply in_map_iff in H1, H2.
  destruct H1 as (j1 & <- & _), H2 as (j2 & <- & _). cbn in *.
  destruct (append_same_length _ _ _ _ Hlen Hid) as [-> H].
  split; [reflexivity|]. now injection H.
Qed.

Lemma bulk_jobId_injective_witness :
  let q1 := {| name := "process-job"; jobData := normalized;
               importLogId := "65f0c0ffee";
               jobId := "65f0c0ffee-acme-1" |} in
  let q2 := {| name := "process-job"; jobData := normalized;
               importLogId := "65f0c0ffee";
               jobId := "65f0c0ffee-acme-1" |} in
  importLogId q1 = importLogId q2 /\
  Fetcher.externalId (jobData q1) = Fetcher.externalId (jobData q2).
Proof.
  cbv zeta.
  apply (bulk_jobId_injective [normalized] [normalized]
           "65f0c0ffee" "65f0c0ffee").
  - left. reflexivity.
  - left. reflexivity.
  - reflexivity.
  - reflexivity.
Defined.

Lemma hasJobId_In (id : string) (queue : Queue) :
  hasJobId id queue = true <-> In id (map jobId queue).
Proof.
  unfold hasJobId. rewrite existsb_exists, in_map_iff. split.
  - intros (j & Hj & Heq). apply String.eqb_eq in Heq. now exists j.
  - intros (j & Heq & Hj). exists j. split; [exact Hj|]. now apply String.eqb_eq.
Qed.

Lemma add_NoDup (queue : Queue) (j : QueueJob) :
  NoDup (map jobId queue) -> NoDup (map jobId (add queue j)).
Proof.
  intros H. unfold add. destruct (hasJobId (jobId j) queue) eqn:Hhas; [exact H|].
  rewrite map_app. cbn. apply NoDup_app; [exact H|repeat constructor; auto|].
  intros id Hin [<-|[]]. apply hasJobId_In in Hin. congruence.
Qed.

Lemma addBulk_NoDup (bulk : list QueueJob) (queue : Queue) :
  NoDup (map jobId queue) -> NoDup (map jobId (addBulk bulk queue)).
Proof.
  revert queue. induction bulk as [|j rest IH]; intros queue H; [exact H|].
  cbn. apply IH. now apply add_NoDup.
Qed.

Lemma addBulk_extends (bulk : list QueueJob) (queue : Queue) :
  exists fresh, addBulk bulk queue = (queue ++ fresh)%list /\
                forall q, In q fresh -> In q bulk.
Proof.
  revert queue. induction bulk as [|j rest IH]; intros queue.
  - exists []. split; [now rewrite app_nil_r|]. intros q [].
  - cbn [addBulk fold_left]. unfold add at 2.
    destruct (hasJobId (jobId j) queue).
    + destruct (IH queue) as (fresh & E & Hin). exists fresh.
      split; [exact E|]. intros q Hq. right. now apply Hin.
    + destruct (IH (queue ++ [j])%list) as (fresh & E & Hin).
      exists (j :: fresh). split.
      * unfold addBulk in E. rewrite E, <- app_assoc. reflexivity.
      * intros q [<-|Hq]; [now left|]. right. now apply Hin.
Qed.

(** X11. A bulk enqueue keeps the queue free of duplicate ids and only adds at
    its end: if no two queued jobs share a [jobId], then after
    [addBulkJobsToQueue] none do, the jobs queued before are still there in
    the same order, what was added comes from this bulk, and the id of every
    candidate of the bulk is in the queue. *)
Theorem addBulkJobsToQueue_invariant (jobs : list Fetcher.NormalizedJob)
    (importLogId : string) (queue : Queue) (added : list QueueJob)
    (queue' : Queue) :
  NoDup (map jobId queue) ->
  addBulkJobsToQueue None jobs importLogId queue = inr (added, queue') ->
  NoDup (map jobId queue') /\
  (exists fresh, queue' = (queue ++ fresh)%list /\
                 forall q, In q fresh -> In q added) /\
  (forall jobData, In jobData jobs ->
     hasJobId (importLogId ++ "-" ++ Fetcher.externalId jobData) queue' = true).
Proof.
  intros Hnodup [= <- <-]. split; [now apply addBulk_NoDup|].
  split; [apply addBulk_extends|].
  intros jobData Hin.
  apply (addBulk_holds (bulkJobs jobs importLogId) queue
           {| name := "process-job"; jobData := jobData;
              importLogId := importLogId;
              jobId := importLogId ++ "-" ++ Fetcher.externalId jobData |}).
  unfold bulkJobs. apply in_map_iff. now exists jobData.
Qed.

Lemma addBulkJobsToQueue_invariant_witness :
  NoDup (map jobId (addBulk (bulkJobs Samples.fetched "run7") [])).
Proof.
  apply (addBulkJobsToQueue_invariant Samples.fetched "run7" []
           (bulkJobs Samples.fetched "run7")
           (addBulk (bulkJobs Samples.fetched "run7") [])).
  - constructor.
  - reflexivity.
Defined.

End QueueInvariantFacts.

(* ===================================================================== *)
(** * The outcomes of the entry points *)
(* ===================================================================== *)

Module OutcomeFacts.
Import Logger Pipeline PipelineFacts Terms.

Lemma orString_status (b : bool) :
  orString (Some (if b then "failed" else "completed")) "completed" =
  if b then "failed" else "completed".
Proof. now destruct b. Qed.

Lemma Extends_ret {A : Type} (a : A) : Extends (ret a).
Proof. intros fuel w. exists []. cbn. now rewrite app_nil_r. Qed.

Lemma Extends_dateNow : Extends dateNow.
Proof. intros fuel w. exists []. cbn. now rewrite app_nil_r. Qed.

Lemma Extends_bind {A B : Type} (m : M A) (k : A -> M B) :
  Extends m -> (forall a, Extends (k a)) -> Extends (bind m k).
Proof.
  intros Hm Hk fuel w. unfold bind. specialize (Hm fuel w).
  destruct (m fuel w) as [a fuel' w'|e fuel' w'|w']; cbn in Hm; try exact Hm.
  destruct Hm as (r1 & E1). destruct (Hk a fuel' w') as (r2 & E2).
  exists (r1 ++ r2)%list. now rewrite E2, E1, app_assoc.
Qed.

Lemma Extends_tryCatch {A : Type} (body : M A) (handler : string -> M A) :
  Extends body -> (forall e, Extends (handler e)) -> Extends (tryCatch body handler).
Proof.
  intros Hb Hh fuel w. unfold tryCatch. specialize (Hb fuel w).
  destruct (body fuel w) as [a fuel' w'|e fuel' w'|w']; cbn in Hb; try exact Hb.
  destruct Hb as (r1 & E1). destruct (Hh e fuel' w') as (r2 & E2).
  exists (r1 ++ r2)%list. now rewrite E2, E1, app_assoc.
Qed.

Lemma Extends_tryAssigning {A B : Type} (first : M A) (body : A -> M B)
    (handler : option A -> string -> M B) :
  Extends first -> (forall a, Extends (body a)) ->
  (forall o e, Extends (handler o e)) ->
  Extends (tryAssigning first body handler).
Proof.
  intros Hf Hb Hh fuel w. unfold tryAssigning. specialize (Hf fuel w).
  destruct (first fuel w) as [a fuel' w'|e fuel' w'|w']; cbn in Hf; try exact Hf.
  - destruct Hf as (r1 & E1).
    destruct (Extends_tryCatch (body a) (handler (Some a)) (Hb a) (Hh (Some a))
                fuel' w') as (r2 & E2).
    exists (r1 ++ r2)%list. now rewrite E2, E1, app_assoc.
  - destruct Hf as (r1 & E1). destruct (Hh None e fuel' w') as (r2 & E2).
    exists (r1 ++ r2)%list. now rewrite E2, E1, app_assoc.
Qed.

Lemma Extends_effect {A : Type} (lat : Z) (ev : Event)
    (act : World -> (string + A) * World) :
  (forall w, trace (snd (act w)) = trace w) -> Extends (effect lat ev act).
Proof.
  intros Hact fuel w. unfold effect. destruct fuel as [|fuel].
  - exists []. cbn. now rewrite app_nil_r.
  - match goal with |- context [act ?w1] => specialize (Hact w1); destruct (act w1) as [[e|a] w2] end;
      cbn in *; exists [ev]; exact Hact.
Qed.

Ltac extends :=
  unfold createImportLog, updateImportLog, markImportFailed, addBulkJobsToQueue,
         fetchFromMultipleURLs, respond;
  repeat first
    [ apply Extends_ret
    | apply Extends_dateNow
    | assumption
    | apply Extends_bind; [|intros ?]
    | apply Extends_tryCatch; [|intros ?]
    | apply Extends_tryAssigning; [|intros ?|intros ? ?]
    | apply Extends_effect; intros ?;
      repeat match goal with
             | |- context [match ?x with _ => _ end] => destruct x
             end; reflexivity
    | match goal with
      | |- Extends (if ?b then _ else _) => destruct b
      | |- Extends (let (_, _) := ?p in _) => destruct p
      | |- Extends (match ?o with Some _ => _ | None => _ end) => destruct o
      | H : forall code, Extends (?reply code) |- Extends (?reply _) => apply H
      end ].

Lemma Extends_importFrom (env : Env) (startTime : Z) (label : string)
    (feedUrls : list string) (reply : nat -> M unit) :
  (forall code, Extends (reply code)) ->
  Extends (importFrom env startTime label feedUrls reply).
Proof. intros Hreply. unfold importFrom. extends. Qed.

(** The first operation of a run. *)
Lemma importFrom_first (env : Env) (startTime : Z) (label : string)
    (feedUrls : list string) (reply : nat -> M unit) (fuel : nat) (w0 : World) :
  (forall code, Extends (reply code)) ->
  nth_error (trace (observe (importFrom env startTime label feedUrls reply)
                            (S fuel) w0)) 0 =
  Some (EvCreateImportLog label).
Proof.
  intros Hreply. unfold observe, importFrom, tryAssigning.
  unfold createImportLog at 1, effect at 1.
  cbn [logs queue trace clock withLogs app].
  destruct (Logger.createImportLog label _ _) as [e|[logId logs']].
  - match goal with
    | |- context [worldOf (?m ?f ?w)] =>
        let H := fresh in
        assert (H : Extends m) by extends;
        destruct (H f w) as (rest & ->)
    end.
    reflexivity.
  - match goal with
    | |- context [tryCatch ?b ?h ?f ?w] =>
        let H := fresh in
        assert (H : Extends (tryCatch b h)) by extends;
        destruct (H f w) as (rest & ->)
    end.
    reflexivity.
Qed.

(** X12. Without feed URLs nothing is started. [startImport] answers 400, and
    [automatedImport] returns, without creating an import log, fetching or
    enqueueing, when the request carries an empty list, or carries none and
    [JOB_FEED_URLS] is unset. When [JOB_FEED_URLS] is set, even to the empty
    text, [automatedImport] does not take that exit: its first operation
    creates an import log. *)
Theorem no_feed_urls (env : Env) (fuel : nat) (w0 : World) :
  let answered :=
    {| logs := logs w0; queue := queue w0;
       trace := (trace w0 ++ [EvRespond 400])%list; clock := clock w0 |} in
  startImport env (Some []) (S fuel) w0 = Returned tt fuel answered /\
  (JOB_FEED_URLS env = None ->
   startImport env None (S fuel) w0 = Returned tt fuel answered /\
   automatedImport env fuel w0 = Returned tt fuel w0) /\
  (forall s, JOB_FEED_URLS env = Some s ->
     nth_error (trace (observe (automatedImport env) (S fuel) w0)) 0 =
     Some (EvCreateImportLog
             ("Automated: " ++ Js.join ", " (map Js.trim (splitComma s))))).
Proof.
  cbv zeta. split; [|split].
  - unfold startImport, bind, dateNow, respond, effect. cbn.
    now rewrite Z.add_0_r.
  - intros Hnone. unfold startImport, automatedImport, bind, dateNow, respond,
      effect, ret. rewrite Hnone. cbn. rewrite Z.add_0_r. now destruct w0.
  - intros s Hs. unfold observe, automatedImport, bind at 1, dateNow.
    rewrite Hs. destruct (splitComma_cons s) as (x & xs & E). rewrite E.
    cbn [map length Nat.eqb].
    apply importFrom_first. intros code. apply Extends_ret.
Qed.


Lemma respond_answers : Answers respond (fun code => [EvRespond code]).
Proof.
  intros code [|fuel] w H; [lia|]. exists fuel. unfold respond, effect. cbn.
  now rewrite Z.add_0_r.
Qed.

Lemma ret_answers : Answers (fun _ => ret tt) (fun _ => []).
Proof.
  intros code fuel w _. exists fuel. unfold ret. rewrite app_nil_r. now destruct w.
Qed.

Section Outcomes.
Variable env : Env.
Variable startTime : Z.
Variable label : string.
Variable feedUrls : list string.
Variable reply : nat -> M unit.
Variable tail : nat -> list Event.
Hypothesis Hreply : Answers reply tail.
Hypothesis Hlabel : label <> "".
Variable w0 : World.

Let lat := latency env.
Let id := length (logs w0).
Let fetched := collect env (clock w0 + lat + lat) feedUrls.

Lemma importFrom_no_jobs (fuel : nat) :
  4 <= fuel -> fst fetched = [] ->
  let w := observe (importFrom env startTime label feedUrls reply) fuel w0 in
  let d := (clock w0 + lat + lat - startTime)%Z in
  logs w = (logs w0 ++
            [runLog label (clock w0 + lat) 0 (reasons (snd fetched)) d
               (if Nat.ltb 0 (length (snd fetched)) then "failed" else "completed")])%list /\
  queue w = queue w0 /\
  trace w = ([EvCreateImportLog label; EvFetch feedUrls;
              EvUpdateImportLog id (noJobsStats (snd fetched) d)] ++ tail 200)%list.
Proof.
  intros Hfuel Hjobs w d. subst w fetched lat id d.
  do 4 (destruct fuel as [|fuel]; [lia|]). clear Hfuel.
  unfold observe, importFrom, tryAssigning, createImportLog,
         Logger.createImportLog, fetchFromMultipleURLs, tryCatch, bind, effect.
  rewrite (label_not_empty label Hlabel).
  crank.
  destruct (collect env (clock w0 + latency env + latency env) feedUrls)
    as [jobs errors].
  cbn [fst snd] in *. subst jobs. cbn [length Nat.eqb].
  unfold updateImportLog, effect, Logger.updateImportLog, dateNow. crank'.
  rewrite orZ_some, orString_status.
  match goal with
  | |- context [reply 200 ?f ?w1] =>
      destruct (Hreply 200 f w1 ltac:(lia)) as (fuel' & ->)
  end.
  cbn. repeat split; reflexivity.
Qed.


Lemma importFrom_queued (fuel : nat) :
  5 <= fuel -> brokerError env = None -> fst fetched <> [] ->
  let w := observe (importFrom env startTime label feedUrls reply) fuel w0 in
  let n := length (fst fetched) in
  let d := (clock w0 + lat + lat + lat - startTime)%Z in
  logs w = (logs w0 ++ [runLog label (clock w0 + lat) n [] d "in-progress"])%list /\
  queue w = JobQueue.addBulk (JobQueue.bulkJobs (fst fetched) (objectId env id))
                             (queue w0) /\
  trace w = ([EvCreateImportLog label; EvFetch feedUrls;
              EvAddBulk (objectId env id) n;
              EvUpdateImportLog id (queuedStats n d)] ++ tail 202)%list.
Proof.
  intros Hfuel Hbroker Hjobs w n d. subst w n fetched lat id d.
  do 5 (destruct fuel as [|fuel]; [lia|]). clear Hfuel.
  unfold observe, importFrom, tryAssigning, createImportLog,
         Logger.createImportLog, fetchFromMultipleURLs, tryCatch, bind, effect.
  rewrite (label_not_empty label Hlabel).
  crank.
  destruct (collect env (clock w0 + latency env + latency env) feedUrls)
    as [jobs errors].
  cbn [fst snd] in *. destruct jobs as [|job jobs]; [now elim Hjobs|].
  cbn [length Nat.eqb].
  unfold addBulkJobsToQueue, updateImportLog, effect, Logger.updateImportLog,
         dateNow, JobQueue.addBulkJobsToQueue.
  rewrite Hbroker. crank'.
  rewrite orZ_some.
  match goal with
  | |- context [reply 202 ?f ?w1] =>
      destruct (Hreply 202 f w1 ltac:(lia)) as (fuel' & ->)
  end.
  cbn. repeat split; reflexivity.
Qed.

Lemma importFrom_broker_down (fuel : nat) (message : string) :
  5 <= fuel -> brokerError env = Some message -> fst fetched <> [] ->
  let w := observe (importFrom env startTime label feedUrls reply) fuel w0 in
  let n := length (fst fetched) in
  let d := (clock w0 + lat + lat + lat - startTime)%Z in
  logs w = (logs w0 ++ [runLog label (clock w0 + lat) 0 [message] d "failed"])%list /\
  queue w = queue w0 /\
  trace w = ([EvCreateImportLog label; EvFetch feedUrls;
              EvAddBulk (objectId env id) n;
              EvMarkImportFailed id message] ++ tail 500)%list.
Proof.
  intros Hfuel Hbroker Hjobs w n d. subst w n fetched lat id d.
  do 5 (destruct fuel as [|fuel]; [lia|]). clear Hfuel.
  unfold observe, importFrom, tryAssigning, createImportLog,
         Logger.createImportLog, fetchFromMultipleURLs, tryCatch, bind, effect.
  rewrite (label_not_empty label Hlabel).
  crank.
  destruct (collect env (clock w0 + latency env + latency env) feedUrls)
    as [jobs errors].
  cbn [fst snd] in *. destruct jobs as [|job jobs]; [now elim Hjobs|].
  cbn [length Nat.eqb].
  unfold addBulkJobsToQueue, markImportFailed, effect, Logger.markImportFailed,
         dateNow, JobQueue.addBulkJobsToQueue.
  rewrite Hbroker. crank'.
  match goal with
  | |- context [reply 500 ?f ?w1] =>
      destruct (Hreply 500 f w1 ltac:(lia)) as (fuel' & ->)
  end.
  cbn. repeat split; reflexivity.
Qed.

End Outcomes.

(** A run whose label is the empty text: [createImportLog] throws, the
    [catch] finds no log to mark, and the answer is 500. *)
Lemma importFrom_unlabelled (env : Env) (startTime : Z) (feedUrls : list string)
    (fuel : nat) (w0 : World) :
  2 <= fuel ->
  let w := observe (importFrom env startTime "" feedUrls respond) fuel w0 in
  logs w = logs w0 /\ queue w = queue w0 /\
  trace w = [EvCreateImportLog ""; EvRespond 500].
Proof.
  intros Hfuel. do 2 (destruct fuel as [|fuel]; [lia|]).
  cbv zeta. repeat split; reflexivity.
Qed.

(** X13. When no candidate is fetched the run ends without enqueueing.
    [startImport] on a non-empty list of URLs other than [[""]], alive for
    four operations, records the run with [totalFetched] zero, the fetch
    errors as [failedReasons] and status [failed] if a feed failed and
    [completed] otherwise, leaves the queue untouched, and answers 200 in
    either case; [automatedImport] records the same. On the list [[""]] the
    label of the run is empty, which the schema of the log refuses:
    [startImport] creates no log, fetches nothing and answers 500. *)
Theorem import_without_jobs (env : Env) (fuel : nat) (w0 : World) :
  4 <= fuel ->
  let lat := latency env in
  let id := length (logs w0) in
  let outcome (urls : list string) (label : string) (tail : list Event) (w : World) :=
    let errors := snd (collect env (clock w0 + lat + lat) urls) in
    let status := if Nat.ltb 0 (length errors) then "failed" else "completed" in
    logs w = (logs w0 ++
              [runLog label (clock w0 + lat) 0 (reasons errors) (lat + lat) status])%list /\
    queue w = queue w0 /\
    trace w = ([EvCreateImportLog label; EvFetch urls;
                EvUpdateImportLog id (noJobsStats errors (lat + lat))] ++ tail)%list in
  (forall url urls,
     url :: urls <> [""] ->
     fst (collect env (clock w0 + lat + lat) (url :: urls)) = [] ->
     outcome (url :: urls) (Js.join ", " (url :: urls)) [EvRespond 200]
             (observe (startImport env (Some (url :: urls))) fuel w0)) /\
  (forall s,
     JOB_FEED_URLS env = Some s ->
     let urls := map Js.trim (splitComma s) in
     fst (collect env (clock w0 + lat + lat) urls) = [] ->
     outcome urls ("Automated: " ++ Js.join ", " urls) []
             (observe (automatedImport env) fuel w0)) /\
  (let w := observe (startImport env (Some [""])) fuel w0 in
   logs w = logs w0 /\ queue w = queue w0 /\
   trace w = [EvCreateImportLog ""; EvRespond 500]).
Proof.
  intros Hfuel lat id outcome. subst outcome lat id. cbv beta zeta.
  split; [|split].
  - intros url urls Hurls Hjobs. rewrite startImport_importFrom.
    pose proof (importFrom_no_jobs env (clock w0) (Js.join ", " (url :: urls))
                  (url :: urls) respond _ respond_answers
                  (join_not_empty url urls Hurls) w0 fuel Hfuel Hjobs) as H.
    cbv zeta in H.
    replace (clock w0 + latency env + latency env - clock w0)%Z
      with (latency env + latency env)%Z in H by lia.
    exact H.
  - intros s Hs Hjobs. rewrite (automatedImport_importFrom env s fuel w0 Hs).
    cbv zeta.
    pose proof (importFrom_no_jobs env (clock w0)
                  ("Automated: " ++ Js.join ", " (map Js.trim (splitComma s)))
                  (map Js.trim (splitComma s)) (fun _ => ret tt) _ ret_answers
                  ltac:(discriminate) w0 fuel Hfuel Hjobs) as H.
    cbv zeta in H.
    replace (clock w0 + latency env + latency env - clock w0)%Z
      with (latency env + latency env)%Z in H by lia.
    exact H.
  - rewrite startImport_importFrom.
    apply (importFrom_unlabelled env (clock w0) [""] fuel w0). lia.
Qed.


Lemma import_without_jobs_witness :
  let w := observe (startImport Scenarios.offline (Some ["https://jobs.example/feed"]))
             4 emptyWorld in
  map status (logs w) = ["failed"] /\
  map failedReasons (logs w) = [["connect ETIMEDOUT"]] /\
  queue w = [] /\ nth_error (trace w) 3 = Some (EvRespond 200).
Proof.
  cbv zeta.
  destruct (import_without_jobs Scenarios.offline 4 emptyWorld (le_n 4)) as [H _].
  destruct (H "https://jobs.example/feed" [] ltac:(discriminate) eq_refl)
    as (Hlogs & Hqueue & Htrace).
  rewrite Hlogs, Hqueue, Htrace. repeat split; reflexivity.
Defined.

(** X14. When candidates are fetched and the broker is up, the run is left in
    progress. [startImport], on a list of URLs other than [[""]] and alive
    for five operations, enqueues one bulk under the id of the new import
    log, records that log with [totalFetched] the number of candidates,
    every other counter zero and status [in-progress], and answers 202;
    [automatedImport] does the same without answering. *)
Theorem import_queued (env : Env) (fuel : nat) (w0 : World) :
  5 <= fuel -> brokerError env = None ->
  let lat := latency env in
  let id := length (logs w0) in
  let outcome (urls : list string) (label : string) (tail : list Event) (w : World) :=
    let jobs := fst (collect env (clock w0 + lat + lat) urls) in
    let n := length jobs in
    logs w = (logs w0 ++
              [runLog label (clock w0 + lat) n [] (lat + lat + lat) "in-progress"])%list /\
    queue w = JobQueue.addBulk (JobQueue.bulkJobs jobs (objectId env id)) (queue w0) /\
    trace w = ([EvCreateImportLog label; EvFetch urls;
                EvAddBulk (objectId env id) n;
                EvUpdateImportLog id (queuedStats n (lat + lat + lat))] ++ tail)%list in
  (forall url urls,
     url :: urls <> [""] ->
     fst (collect env (clock w0 + lat + lat) (url :: urls)) <> [] ->
     outcome (url :: urls) (Js.join ", " (url :: urls)) [EvRespond 202]
             (observe (startImport env (Some (url :: urls))) fuel w0)) /\
  (forall s,
     JOB_FEED_URLS env = Some s ->
     let urls := map Js.trim (splitComma s) in
     fst (collect env (clock w0 + lat + lat) urls) <> [] ->
     outcome urls ("Automated: " ++ Js.join ", " urls) []
             (observe (automatedImport env) fuel w0)).
Proof.
  intros Hfuel Hbroker lat id outcome. subst outcome lat id. cbv beta zeta. split.
  - intros url urls Hurls Hjobs. rewrite startImport_importFrom.
    pose proof (importFrom_queued env (clock w0) (Js.join ", " (url :: urls))
                  (url :: urls) respond _ respond_answers
                  (join_not_empty url urls Hurls) w0 fuel Hfuel Hbroker
                  Hjobs) as H.
    cbv zeta in H.
    replace (clock w0 + latency env + latency env + latency env - clock w0)%Z
      with (latency env + latency env + latency env)%Z in H by lia.
    exact H.
  - intros s Hs Hjobs. rewrite (automatedImport_importFrom env s fuel w0 Hs).
    cbv zeta.
    pose proof (importFrom_queued env (clock w0)
                  ("Automated: " ++ Js.join ", " (map Js.trim (splitComma s)))
                  (map Js.trim (splitComma s)) (fun _ => ret tt) _ ret_answers
                  ltac:(discriminate) w0 fuel Hfuel Hbroker Hjobs) as H.
    cbv zeta in H.
    replace (clock w0 + latency env + latency env + latency env - clock w0)%Z
      with (latency env + latency env + latency env)%Z in H by lia.
    exact H.
Qed.

Lemma import_queued_witness :
  let w := observe (startImport Samples.env (Some ["https://jobs.example/feed"]))
             5 emptyWorld in
  map status (logs w) = ["in-progress"] /\
  map totalFetched (logs w) = [1] /\
  length (queue w) = 1 /\ nth_error (trace w) 4 = Some (EvRespond 202).
Proof.
  cbv zeta.
  destruct (import_queued Samples.env 5 emptyWorld (le_n 5) eq_refl) as [H _].
  destruct (H "https://jobs.example/feed" [] ltac:(discriminate)
              ltac:(discriminate))
    as (Hlogs & Hqueue & Htrace).
  rewrite Hlogs, Hqueue, Htrace. repeat split; reflexivity.
Defined.

(** X15. When the broker refuses the bulk the run is recorded as failed.
    [startImport], on a list of URLs other than [[""]] and alive for five
    operations, leaves the queue as it was, marks the new import log
    [failed] with the broker's message as its only reason and [totalFetched]
    still zero, and answers 500; [automatedImport] marks the log the same
    way. *)
Theorem import_broker_down (env : Env) (fuel : nat) (w0 : World)
    (message : string) :
  5 <= fuel -> brokerError env = Some message ->
  let lat := latency env in
  let id := length (logs w0) in
  let outcome (urls : list string) (label : string) (tail : list Event) (w : World) :=
    let n := length (fst (collect env (clock w0 + lat + lat) urls)) in
    logs w = (logs w0 ++
              [runLog label (clock w0 + lat) 0 [message] (lat + lat + lat) "failed"])%list /\
    queue w = queue w0 /\
    trace w = ([EvCreateImportLog label; EvFetch urls;
                EvAddBulk (objectId env id) n;
                EvMarkImportFailed id message] ++ tail)%list in
  (forall url urls,
     url :: urls <> [""] ->
     fst (collect env (clock w0 + lat + lat) (url :: urls)) <> [] ->
     outcome (url :: urls) (Js.join ", " (url :: urls)) [EvRespond 500]
             (observe (startImport env (Some (url :: urls))) fuel w0)) /\
  (forall s,
     JOB_FEED_URLS env = Some s ->
     let urls := map Js.trim (splitComma s) in
     fst (collect env (clock w0 + lat + lat) urls) <> [] ->
     outcome urls ("Automated: " ++ Js.join ", " urls) []
             (observe (automatedImport env) fuel w0)).
Proof.
  intros Hfuel Hbroker lat id outcome. subst outcome lat id. cbv beta zeta. split.
  - intros url urls Hurls Hjobs. rewrite startImport_importFrom.
    pose proof (importFrom_broker_down env (clock w0) (Js.join ", " (url :: urls))
                  (url :: urls) respond _ respond_answers
                  (join_not_empty url urls Hurls) w0 fuel message Hfuel
                  Hbroker Hjobs) as H.
    cbv zeta in H.
    replace (clock w0 + latency env + latency env + latency env - clock w0)%Z
      with (latency env + latency env + latency env)%Z in H by lia.
    exact H.
  - intros s Hs Hjobs. rewrite (automatedImport_importFrom env s fuel w0 Hs).
    cbv zeta.
    pose proof (importFrom_broker_down env (clock w0)
                  ("Automated: " ++ Js.join ", " (map Js.trim (splitComma s)))
                  (map Js.trim (splitComma s)) (fun _ => ret tt) _ ret_answers
                  ltac:(discriminate) w0 fuel message Hfuel Hbroker Hjobs) as H.
    cbv zeta in H.
    replace (clock w0 + latency env + latency env + latency env - clock w0)%Z
      with (latency env + latency env + latency env)%Z in H by lia.
    exact H.
Qed.

Lemma import_broker_down_witness :
  let w := observe (startImport Scenarios.brokerDown (Some ["https://jobs.example/feed"]))
             5 emptyWorld in
  map status (logs w) = ["failed"] /\
  map failedReasons (logs w) = [["Connection is closed."]] /\
  queue w = [] /\ nth_error (trace w) 4 = Some (EvRespond 500).
Proof.
  cbv zeta.
  destruct (import_broker_down Scenarios.brokerDown 5 emptyWorld
              "Connection is closed." (le_n 5) eq_refl) as [H _].
  destruct (H "https://jobs.example/feed" [] ltac:(discriminate)
              ltac:(discriminate))
    as (Hlogs & Hqueue & Htrace).
  rewrite Hlogs, Hqueue, Htrace. repeat split; reflexivity.
Defined.

End OutcomeFacts.

(* ===================================================================== *)
(** * Properties of the cron helper *)
(* ===================================================================== *)

Module CronFacts.
Import Js Cron.

Lemma append_empty_r (s : string) : s ++ "" = s.
Proof. induction s as [|c r IH]; cbn; congruence. Qed.

Lemma append_assoc (a b c : string) : (a ++ b) ++ c = a ++ (b ++ c).
Proof. induction a as [|x a IH]; cbn; congruence. Qed.

Lemma between_range (lo hi : ascii) (c : ascii) :
  between (code lo) (code hi) c = true <->
  In (String c "") (language (Range lo hi)).
Proof.
  unfold between, code. cbn [language]. rewrite in_map_iff, andb_true_iff.
  rewrite !Nat.leb_le. split.
  - intros [H1 H2]. exists (nat_of_ascii c). rewrite ascii_nat_embedding.
    split; [reflexivity|]. apply in_seq. unfold code. lia.
  - intros (n & E & Hn). apply in_seq in Hn. unfold code in Hn.
    injection E as <-.
    rewrite nat_ascii_embedding.
    + lia.
    + pose proof (nat_ascii_bounded hi). lia.
Qed.

Lemma language_Seq (a b : Regex) (s : string) :
  In s (language (Seq a b)) <->
  exists x y, s = x ++ y /\ In x (language a) /\ In y (language b).
Proof.
  cbn [language]. rewrite in_flat_map. split.
  - intros (x & Hx & Hs). apply in_map_iff in Hs. destruct Hs as (y & <- & Hy).
    now exists x, y.
  - intros (x & y & -> & Hx & Hy). exists x. split; [exact Hx|].
    apply in_map_iff. now exists y.
Qed.

(** The matcher accepts the strings of the pattern. *)
Lemma matchFrom_language (r : Regex) (s : string) (k : string -> bool) :
  matchFrom r s k = true <->
  exists x y, s = x ++ y /\ In x (language r) /\ k y = true.
Proof.
  revert s k. induction r as [c|lo hi|a IHa b IHb|a IHa b IHb]; intros s k.
  - cbn [matchFrom language]. destruct s as [|c' rest].
    + split; [discriminate|]. intros (x & y & E & [<-|[]] & _). discriminate E.
    + rewrite andb_true_iff. split.
      * intros [Hc Hk]. apply Ascii.eqb_eq in Hc. subst c'.
        exists (String c ""), rest. cbn. auto.
      * intros (x & y & E & [<-|[]] & Hk). cbn in E. injection E as <- <-.
        split; [apply Ascii.eqb_refl|exact Hk].
  - cbn [matchFrom]. destruct s as [|c' rest].
    + split; [discriminate|]. intros (x & y & E & Hx & _).
      cbn [language] in Hx. apply in_map_iff in Hx.
      destruct Hx as (n & <- & _). discriminate E.
    + rewrite andb_true_iff, between_range. split.
      * intros [Hc Hk]. exists (String c' ""), rest. cbn. auto.
      * intros (x & y & E & Hx & Hk).
        pose proof Hx as Hx'. cbn [language] in Hx'. apply in_map_iff in Hx'.
        destruct Hx' as (n & <- & _). cbn in E. injection E as E1 E2. subst.
        split; [exact Hx|exact Hk].
  - cbn [matchFrom]. rewrite IHa. split.
    + intros (x & y & -> & Hx & Hb). apply IHb in Hb.
      destruct Hb as (x' & y' & -> & Hx' & Hk).
      exists (x ++ x'), y'. rewrite append_assoc. split; [reflexivity|].
      split; [|exact Hk]. apply language_Seq. now exists x, x'.
    + intros (x & y & -> & Hx & Hk). apply language_Seq in Hx.
      destruct Hx as (xa & xb & -> & Ha & Hb).
      exists xa, (xb ++ y). rewrite append_assoc. split; [reflexivity|].
      split; [exact Ha|]. apply IHb. now exists xb, y.
  - cbn [matchFrom language]. rewrite orb_true_iff, IHa, IHb. split.
    + intros [(x & y & E & Hx & Hk)|(x & y & E & Hx & Hk)];
        exists x, y; (split; [exact E|]); (split; [|exact Hk]);
        apply in_or_app; auto.
    + intros (x & y & E & Hx & Hk). apply in_app_or in Hx.
      destruct Hx as [Hx|Hx]; [left|right]; now exists x, y.
Qed.

Lemma test_language (r : Regex) (s : string) :
  test r s = true <-> In s (language r).
Proof.
  unfold test. rewrite matchFrom_language. split.
  - intros (x & y & -> & Hx & Hy). apply String.eqb_eq in Hy. subst y.
    now rewrite append_empty_r.
  - intros H. exists s, "". rewrite append_empty_r. auto.
Qed.

Lemma mem_In (x : string) (l : list string) : mem x l = true <-> In x l.
Proof.
  unfold mem. rewrite existsb_exists. split.
  - intros (y & Hy & E). apply String.eqb_eq in E. now subst.
  - intros H. exists x. split; [exact H|apply String.eqb_refl].
Qed.

Lemma sameStrings_sound (a b : list string) :
  sameStrings a b = true -> forall x, In x a <-> In x b.
Proof.
  unfold sameStrings. rewrite andb_true_iff, !forallb_forall.
  intros [Hab Hba] x. split; intros H; apply mem_In; auto.
Qed.

Lemma fieldList_cronField (lo hi : nat) (f : string) :
  In f (fieldList lo hi) <-> cronField lo hi f.
Proof.
  unfold fieldList, cronField. cbn [In]. rewrite in_app_iff, !in_map_iff. split.
  - intros [<-|[(n & <- & Hn)|(n & <- & Hn)]]; [now left| |];
      apply in_seq in Hn; right; exists n; (split; [lia|]); auto.
  - intros [->|(n & Hn & [->| ->])]; [now left| |]; right; [left|right];
      exists n; (split; [reflexivity|]); apply in_seq; lia.
Qed.

Lemma field_language (number : Regex) (lo hi : nat) :
  sameStrings (language (field number)) (fieldList lo hi) = true ->
  forall f, In f (language (field number)) <-> cronField lo hi f.
Proof.
  intros H f. rewrite (sameStrings_sound _ _ H f). apply fieldList_cronField.
Qed.

Lemma minute_language (f : string) :
  In f (language (field minuteNumber)) <-> cronField 0 59 f.
Proof. apply field_language. vm_compute. reflexivity. Qed.

Lemma hour_language (f : string) :
  In f (language (field hourNumber)) <-> cronField 0 23 f.
Proof. apply field_language. vm_compute. reflexivity. Qed.

Lemma day_language (f : string) :
  In f (language (field dayNumber)) <-> cronField 1 31 f.
Proof. apply field_language. vm_compute. reflexivity. Qed.

Lemma month_language (f : string) :
  In f (language (field monthNumber)) <-> cronField 1 12 f.
Proof. apply field_language. vm_compute. reflexivity. Qed.

Lemma weekday_language (f : string) :
  In f (language (field weekdayNumber)) <-> cronField 0 6 f.
Proof. apply field_language. vm_compute. reflexivity. Qed.

Lemma language_then_space (a rest : Regex) (s : string) :
  In s (language (Seq a (Seq (Chr " ") rest))) <->
  exists f r, s = f ++ " " ++ r /\ In f (language a) /\ In r (language rest).
Proof.
  rewrite language_Seq. split.
  - intros (x & y & -> & Hx & Hy). apply language_Seq in Hy.
    destruct Hy as (sp & r & -> & [<-|[]] & Hr). now exists x, r.
  - intros (f & r & -> & Hf & Hr). exists f, (" " ++ r).
    split; [reflexivity|]. split; [exact Hf|].
    apply language_Seq. exists " ", r. cbn. auto.
Qed.

(** X16. [isValidCronExpression] accepts exactly the expressions of five
    fields separated by single spaces, each field the star, a number or a
    step [*/n], the number written in decimal without leading zeros and taken
    from 0..59 for the minute, 0..23 for the hour, 1..31 for the day of the
    month, 1..12 for the month and 0..6 for the day of the week. Lists,
    ranges, names and surrounding white space are refused. *)
Theorem isValidCronExpression_fields (expression : string) :
  isValidCronExpression expression = true <->
  exists minute hour day month weekday,
    expression =
      minute ++ " " ++ hour ++ " " ++ day ++ " " ++ month ++ " " ++ weekday /\
    cronField 0 59 minute /\ cronField 0 23 hour /\ cronField 1 31 day /\
    cronField 1 12 month /\ cronField 0 6 weekday.
Proof.
  unfold isValidCronExpression. rewrite test_language.
  unfold cronRegex. cbn [seqs].
  rewrite language_then_space. split.
  - intros (minute & r1 & -> & Hm & H1).
    apply language_then_space in H1. destruct H1 as (hour & r2 & -> & Hh & H2).
    apply language_then_space in H2. destruct H2 as (day & r3 & -> & Hd & H3).
    apply language_then_space in H3. destruct H3 as (month & weekday & -> & Hmo & Hw).
    exists minute, hour, day, month, weekday. split; [reflexivity|].
    split; [now apply minute_language|]. split; [now apply hour_language|].
    split; [now apply day_language|]. split; [now apply month_language|].
    now apply weekday_language.
  - intros (minute & hour & day & month & weekday & -> & Hm & Hh & Hd & Hmo & Hw).
    exists minute, (hour ++ " " ++ day ++ " " ++ month ++ " " ++ weekday).
    split; [reflexivity|]. split; [now apply minute_language|].
    apply language_then_space.
    exists hour, (day ++ " " ++ month ++ " " ++ weekday).
    split; [reflexivity|]. split; [now apply hour_language|].
    apply language_then_space. exists day, (month ++ " " ++ weekday).
    split; [reflexivity|]. split; [now apply day_language|].
    apply language_then_space. exists month, weekday.
    split; [reflexivity|]. split; [now apply month_language|].
    now apply weekday_language.
Qed.


Lemma isValidCronExpression_fields_example :
  isValidCronExpression "*/15 0 1 */3 6" = true /\
  isValidCronExpression "0 6,18 * * *" = false /\
  isValidCronExpression "05 * * * *" = false /\
  isValidCronExpression "* * * * 7" = false.
Proof. repeat split; reflexivity. Qed.

(** X17. The named patterns agree with the validator and the describer: each
    of the thirteen entries of [cronPatterns] is accepted by
    [isValidCronExpression] and has a description of its own in
    [describeCronSchedule], not the fallback [Custom schedule]. *)
Theorem cronPatterns_valid_described (name pattern : string) :
  In (name, pattern) cronPatterns ->
  isValidCronExpression pattern = true /\
  exists text, describeCronSchedule pattern = Own (JStr text) /\
               text <> "Custom schedule".
Proof.
  intros H. unfold cronPatterns in H. cbn [In] in H.
  repeat (destruct H as [[= <- <-]|H];
          [split; [reflexivity|]; eexists; split; [reflexivity|discriminate]|]).
  destruct H.
Qed.

Lemma cronPatterns_valid_described_witness :
  isValidCronExpression "0 */6 * * *" = true /\
  exists text, describeCronSchedule "0 */6 * * *" = Own (JStr text) /\
               text <> "Custom schedule".
Proof.
  apply (cronPatterns_valid_described "EVERY_6_HOURS" "0 */6 * * *").
  cbn. tauto.
Defined.

Lemma descriptions_text (k : string) (v : JsVal) :
  assoc k descriptions = Some v -> exists text, v = JStr text /\ text <> "".
Proof.
  unfold descriptions. cbn [assoc].
  repeat (destruct (String.eqb k _);
          [intros [= <-]; eexists; split; [reflexivity|discriminate]|]).
  discriminate.
Qed.

Lemma inherited_not_valid (expression : string) :
  mem expression objectProto = true -> isValidCronExpression expression = false.
Proof.
  intros H. apply mem_In in H. unfold objectProto in H. cbn [In] in H.
  repeat (destruct H as [<-|H]; [reflexivity|]). destruct H.
Qed.

(** X18. For every expression the validator accepts, [describeCronSchedule]
    returns a text: one of the thirteen descriptions or [Custom schedule]. A
    valid expression never reads a member inherited from [Object.prototype]
    out of [descriptions]; an expression such as [constructor] does. *)
Theorem describeCronSchedule_valid (expression : string) :
  isValidCronExpression expression = true ->
  exists text,
    describeCronSchedule expression = Own (JStr text) /\
    (text = "Custom schedule" \/ assoc expression descriptions = Some (JStr text)).
Proof.
  intros Hvalid. unfold describeCronSchedule, own_or.
  destruct (assoc expression descriptions) as [v|] eqn:Ha.
  - destruct (descriptions_text _ _ Ha) as (text & -> & Htext).
    exists text. split; [|now right].
    unfold or_else. cbn. apply String.eqb_neq in Htext. now rewrite Htext.
  - unfold inherited.
    destruct (mem expression objectProto) eqn:Hmem.
    + rewrite (inherited_not_valid _ Hmem) in Hvalid. discriminate.
    + exists "Custom schedule". split; [reflexivity|now left].
Qed.

Lemma describeCronSchedule_valid_witness :
  exists text,
    describeCronSchedule "*/10 * * * *" = Own (JStr text) /\
    (text = "Custom schedule" \/
     assoc "*/10 * * * *" descriptions = Some (JStr text)).
Proof. apply (describeCronSchedule_valid "*/10 * * * *"). reflexivity. Defined.

End CronFacts.

(* ===================================================================== *)
(** * Properties of the worker *)
(* ===================================================================== *)

Module WorkerFacts.
Import Js Model Processor ModelFacts ProcessJobFacts Worker.

Lemma violatedFrom_keys (k : nat) (self : option nat) (a b : Job)
    (coll : Collection) :
  Model.externalId a = Model.externalId b -> url a = url b ->
  violatedFrom k self a coll = violatedFrom k self b coll.
Proof.
  intros Hid Hurl. revert k. induction coll as [|d rest IH]; intros k.
  - reflexivity.
  - cbn. rewrite Hid, Hurl, IH. reflexivity.
Qed.

(** Whether [processJob] fails, and with what error, does not depend on the
    time of the call; a failed call leaves the collection as it was. *)
Lemma processJob_failure_timeless (t t' : Z) (c : JobData.t) (coll : Collection) :
  success (fst (processJob t c coll)) = false ->
  exists e, processJob t c coll = (resultFailed e c, coll) /\
            processJob t' c coll = (resultFailed e c, coll).
Proof.
  unfold processJob. destruct (missingRequired c); [intros _; eauto|].
  destruct (findOne _ _ coll) as [[i loaded]|]; unfold savePhase.
  - unfold saveExisting.
    change (validate (assign loaded c t')) with (validate (assign loaded c t)).
    destruct (validate (assign loaded c t)); [|intros _; eauto].
    destruct (nth_error coll i) as [stored|]; [|intros _; eauto].
    rewrite (violatedFrom_keys 0 (Some i)
               (applyChanges loaded (assign loaded c t') stored)
               (applyChanges loaded (assign loaded c t) stored)) by reflexivity.
    unfold violated.
    destruct (violatedFrom 0 (Some i) _ coll); [intros _; eauto|discriminate].
  - unfold saveNew.
    change (validate (newJob c t')) with (validate (newJob c t)).
    destruct (validate (newJob c t)); [|intros _; eauto].
    unfold violated.
    rewrite (violatedFrom_keys 0 None (newJob c t') (newJob c t)) by reflexivity.
    destruct (violatedFrom 0 None (newJob c t) coll); [intros _; eauto|discriminate].
Qed.

Lemma processor_failure (t t' : Z) (c : JobData.t) (coll : Collection)
    (failure : Failure) :
  fst (processor t c coll) = inl failure ->
  processor t' c coll = (inl failure, coll).
Proof.
  unfold processor.
  destruct (processJob t c coll) as [r coll1] eqn:E.
  destruct (success r) eqn:Hs; [discriminate|]. cbn [fst]. intros [= <-].
  destruct (processJob_failure_timeless t t' c coll) as (e & E1 & E2).
  { now rewrite E. }
  rewrite E in E1. injection E1 as -> ->. rewrite E2. reflexivity.
Qed.

Lemma runAttempts_failure (t : Z) (later : list Z) (c : JobData.t)
    (coll : Collection) (failure : Failure) :
  fst (processor t c coll) = inl failure ->
  runAttempts (t :: later) c coll = (Some (inl failure), coll).
Proof.
  intros H. revert t H. induction later as [|t' later IH]; intros t H.
  - cbn. now rewrite (processor_failure t t c coll failure H).
  - cbn [runAttempts]. rewrite (processor_failure t t c coll failure H).
    apply IH. now rewrite (processor_failure t t' c coll failure H).
Qed.

(** An attempt of a job that the store refuses fails, reached or not, and
    leaves the collection as it was. *)
Lemma processorDuring_failure (t t' : Z) (outage : option string)
    (c : JobData.t) (coll : Collection) (failure : Failure) :
  fst (processor t c coll) = inl failure ->
  exists failure',
    processorDuring outage t' c coll = (inl failure', coll) /\
    (outage = None -> failure' = failure).
Proof.
  intros H. destruct outage as [message|]; cbn [processorDuring].
  - eexists. split; [reflexivity | discriminate].
  - exists failure. split; [|reflexivity]. now apply (processor_failure t t').
Qed.

Lemma last_attempt {A : Type} (next first : A) (later : list A) :
  List.last (next :: later) first = List.last later next.
Proof.
  revert next first.
  induction later as [|x later IH]; intros next first; [reflexivity|].
  change (List.last (next :: x :: later) first) with (List.last (x :: later) first).
  now rewrite !IH.
Qed.

Lemma runAttemptsThrough_failure (t : Z) (c : JobData.t) (coll : Collection)
    (failure : Failure) (first : Z * option string)
    (later : list (Z * option string)) :
  fst (processor t c coll) = inl failure ->
  exists last,
    runAttemptsThrough (first :: later) c coll = (Some (inl last), coll) /\
    (snd (List.last later first) = None -> last = failure).
Proof.
  intros H. revert first. induction later as [|next later IH]; intros [t' outage].
  - destruct (processorDuring_failure t t' outage c coll failure H)
      as (failure' & E & Hsame).
    exists failure'. cbn [runAttemptsThrough List.last snd]. rewrite E.
    split; [reflexivity | exact Hsame].
  - destruct (processorDuring_failure t t' outage c coll failure H)
      as (failure' & E & _).
    destruct (IH next) as (last & Hrun & Hlast).
    exists last. split.
    + change (runAttemptsThrough ((t', outage) :: next :: later) c coll)
        with (match processorDuring outage t' c coll with
              | (inr done, coll') => (Some (inr done), coll')
              | (inl _, coll') => runAttemptsThrough (next :: later) c coll'
              end).
      rewrite E. exact Hrun.
    + rewrite last_attempt. exact Hlast.
Qed.

(** X19. What retrying can repair. An attempt at which the store is out of
    reach fails and leaves the collection as it was, and the attempts that
    follow run as if it had not been made: a retry after an outage can
    succeed. A failure that the store itself answers is another matter:
    whether [processJob] fails, and with what error, does not depend on the
    time, so if one attempt that reaches the store throws, then, nobody else
    writing, every run of attempts ends in failure with the collection
    never changed, whatever the times and the outages, and with that same
    error when its last attempt reaches the store. An attempt that returns
    is the last one. With the store in reach throughout, the run is the one
    of [runAttempts]. *)
Theorem retries_repeat_failure (t : Z) (c : JobData.t) (coll : Collection) :
  (forall failure first later,
     fst (processor t c coll) = inl failure ->
     exists last,
       runAttemptsThrough (first :: later) c coll = (Some (inl last), coll) /\
       (snd (List.last later first) = None -> last = failure)) /\
  (forall message t' next later,
     runAttemptsThrough ((t', Some message) :: next :: later) c coll =
     runAttemptsThrough (next :: later) c coll) /\
  (forall done later,
     fst (processor t c coll) = inr done ->
     runAttemptsThrough ((t, None) :: later) c coll =
       (Some (inr done), snd (processJob t c coll))) /\
  (forall clock,
     runAttemptsThrough (map (fun t' => (t', None)) clock) c coll =
     runAttempts clock c coll).
Proof.
  split; [|split; [|split]].
  - intros failure first later H. now apply (runAttemptsThrough_failure t).
  - intros message t' next later. reflexivity.
  - intros done later H. cbn [runAttemptsThrough processorDuring].
    unfold processor in *.
    destruct (processJob t c coll) as [r coll1].
    destruct (success r); [|discriminate]. cbn in *. now injection H as <-.
  - intros clock. revert coll. induction clock as [|t1 later IH]; intros coll';
      [reflexivity|].
    cbn [map runAttemptsThrough runAttempts processorDuring].
    destruct (processor t1 c coll') as [[failure|done] coll1]; [|reflexivity].
    destruct later as [|t2 later]; [reflexivity|].
    apply (IH coll1).
Qed.

Lemma retries_repeat_failure_witness :
  runAttemptsThrough [(1, None); (2001, Some "connection lost"); (6001, None)]%Z
    Samples.noDescription [] =
    (Some (inl (Because (ValidationError ["description"]))), []) /\
  runAttemptsThrough [(1, Some "connection lost"); (2001, None)]%Z
    Samples.posting [] =
    (Some (inr {| action := "created"; externalId := Some "job-1" |}),
     [newJob Samples.posting 2001]).
Proof.
  destruct (retries_repeat_failure 1 Samples.noDescription [])
    as (Hfails & _).
  destruct (Hfails (Because (ValidationError ["description"])) (1, None)%Z
              [(2001, Some "connection lost"); (6001, None)]%Z eq_refl)
    as (last & Hrun & Hlast).
  destruct (retries_repeat_failure 2001 Samples.posting [])
    as (_ & Hskip & Hdone & _).
  split.
  - rewrite Hrun, (Hlast eq_refl). reflexivity.
  - rewrite (Hskip "connection lost" 1%Z (2001, None)%Z []).
    apply (Hdone {| action := "created"; externalId := Some "job-1" |} []).
    reflexivity.
Defined.


Lemma validate_empty_description (doc : Job) :
  description doc = "" -> validate doc <> [].
Proof.
  intros H. unfold validate. rewrite H. cbn [isEmpty String.eqb].
  destruct (isEmpty (Model.externalId doc)); [discriminate|].
  destruct (isEmpty (title doc)); [discriminate|].
  destruct (isEmpty (company doc)); [discriminate|].
  destruct (negb (mem (type doc) jobTypes)); discriminate.
Qed.

Lemma processJob_empty_description (t : Z) (c : JobData.t) (coll : Collection) :
  JobData.description c = Some "" ->
  success (fst (processJob t c coll)) = false.
Proof.
  intros Hd. unfold processJob. destruct (missingRequired c); [reflexivity|].
  destruct (findOne _ _ coll) as [[i loaded]|]; unfold savePhase.
  - unfold saveExisting.
    destruct (validate (assign loaded c t)) eqn:Hv; [|reflexivity].
    exfalso. revert Hv. apply validate_empty_description.
    unfold assign. cbn. now rewrite Hd.
  - unfold saveNew.
    destruct (validate (newJob c t)) eqn:Hv; [|reflexivity].
    exfalso. revert Hv. apply validate_empty_description.
    unfold newJob. cbn. now rewrite Hd.
Qed.

Section WithDates.
Variable parseDate : string -> option Z.
Variable timeOfNumber : string -> option Z.
Variable now : Z.

Ltac step H :=
  match type of H with
  | Fetcher.bind ?m _ = Some _ =>
      let E := fresh "E" in
      destruct m eqn:E; [cbn [Fetcher.bind] in H | discriminate H]
  end.

Lemma normalizeJob_no_description (job : JsVal) (sourceUrl : string)
    (r : Fetcher.NormalizedJob) :
  Fetcher.probe job Fetcher.descriptionKeys = Some None ->
  Fetcher.normalizeJob parseDate timeOfNumber now job sourceUrl = Some r ->
  Fetcher.description r = "".
Proof.
  intros Hprobe H. unfold Fetcher.normalizeJob in H.
  unfold Fetcher.chain at 3 in H. rewrite Hprobe in H.
  repeat step H.
  injection H as <-. cbn [Fetcher.description].
  match goal with
  | Hs : toString (Own (JStr "")) = Some ?s |- _ => injection Hs as <-
  end.
  reflexivity.
Qed.

(** X20. A feed item without a description is never stored. If none of
    [description], [summary], [content] and [content:encoded] is truthy on
    the item, [normalizeJob] gives it the empty description, the schema's
    [required] validator refuses that, and the worker's job fails on every
    attempt, in any collection and at any times, leaving the collection as it
    was. *)
Theorem undescribed_item_never_stored (job : JsVal) (sourceUrl : string)
    (r : Fetcher.NormalizedJob) (c : JobData.t) (t : Z) (later : list Z)
    (coll : Collection) :
  Fetcher.probe job Fetcher.descriptionKeys = Some None ->
  Fetcher.normalizeJob parseDate timeOfNumber now job sourceUrl = Some r ->
  payload r = Some c ->
  Fetcher.description r = "" /\
  exists failure, runAttempts (t :: later) c coll = (Some (inl failure), coll).
Proof.
  intros Hprobe Hnorm Hpay.
  pose proof (normalizeJob_no_description job sourceUrl r Hprobe Hnorm) as Hd.
  split; [exact Hd|].
  assert (Hc : JobData.description c = Some "").
  { unfold payload in Hpay. destruct (typeOfPayload (Fetcher.type r)); [|discriminate].
    injection Hpay as <-. cbn. now rewrite Hd. }
  pose proof (processJob_empty_description t c coll Hc) as Hfail.
  assert (exists failure, fst (processor t c coll) = inl failure) as (failure & Hf).
  { unfold processor. destruct (processJob t c coll) as [res coll1].
    cbn [fst] in Hfail. rewrite Hfail. eexists. reflexivity. }
  exists failure. now apply runAttempts_failure.
Qed.

End WithDates.

Lemma undescribed_item_never_stored_witness :
  exists r c failure,
    Fetcher.normalizeJob (fun _ => None) (fun _ => None) 0 Fetcher.sampleItem
      "https://jobs.example/feed" = Some r /\
    payload r = Some c /\
    runAttempts [1; 2001; 6001]%Z c [] = (Some (inl failure), []).
Proof.
  destruct (undescribed_item_never_stored (fun _ => None) (fun _ => None) 0
              Fetcher.sampleItem "https://jobs.example/feed" _ _ 1
              [2001; 6001]%Z [] eq_refl eq_refl eq_refl)
    as [_ (failure & H)].
  eexists; eexists; exists failure.
  split; [reflexivity|]. split; [reflexivity|]. exact H.
Defined.

End WorkerFacts.

(* ===================================================================== *)
(** * Properties of the statistics and the maintenance of jobs *)
(* ===================================================================== *)

Module MaintenanceFacts.
Import Model Processor ModelFacts ProcessJobFacts LogQueries Maintenance Terms.

Lemma uniqueKeys_cons (x : Job) (coll : Collection) :
  uniqueKeys (x :: coll) <->
  (forall d, In d coll -> externalId d <> externalId x /\ url d <> url x) /\
  uniqueKeys coll.
Proof.
  split.
  - intros H. split.
    + intros d Hd. apply In_nth_error in Hd. destruct Hd as (q & Hq).
      split; intros E;
        (assert (S q = 0) by (apply (H (S q) 0 d x Hq eq_refl); auto));
        discriminate.
    + intros i j a b Ha Hb Hk.
      assert (S i = S j) by (apply (H (S i) (S j) a b Ha Hb Hk)). lia.
  - intros [Hx Hu] i j a b Ha Hb Hk.
    destruct i as [|i], j as [|j]; cbn in Ha, Hb.
    + reflexivity.
    + injection Ha as <-. apply nth_error_In in Hb.
      destruct (Hx b Hb) as [H1 H2]. destruct Hk; congruence.
    + injection Hb as <-. apply nth_error_In in Ha.
      destruct (Hx a Ha) as [H1 H2]. destruct Hk; congruence.
    + f_equal. exact (Hu i j a b Ha Hb Hk).
Qed.

Lemma uniqueKeys_filter (p : Job -> bool) (coll : Collection) :
  uniqueKeys coll -> uniqueKeys (filter p coll).
Proof.
  induction coll as [|x rest IH]; intros H; [exact H|].
  apply uniqueKeys_cons in H. destruct H as [Hx Hu]. cbn.
  destruct (p x); [|now apply IH].
  apply uniqueKeys_cons. split; [|now apply IH].
  intros d Hd. apply filter_In in Hd. now apply Hx.
Qed.

Lemma filter_none {A : Type} (p : A -> bool) (l : list A) :
  (forall x, In x l -> p x = false) -> filter p l = [].
Proof.
  induction l as [|x r IH]; intros H; [reflexivity|].
  cbn. rewrite (H x (or_introl eq_refl)). apply IH. intros y Hy. apply H. now right.
Qed.

Lemma filter_all {A : Type} (p : A -> bool) (l : list A) :
  (forall x, In x l -> p x = true) -> filter p l = l.
Proof.
  induction l as [|x r IH]; intros H; [reflexivity|].
  cbn. rewrite (H x (or_introl eq_refl)). f_equal. apply IH.
  intros y Hy. apply H. now right.
Qed.

(** X21. [cleanupOldJobs] deletes exactly the jobs last updated before the
    cutoff, [daysOld] days (90 when not given) before now: the count it
    returns is the number of jobs removed; the jobs that stay are those
    updated at or after the cutoff, in their order; the unique keys still
    hold; and a second run at the same time deletes nothing. When the cutoff
    is no valid date it deletes nothing and returns 0. *)
Theorem cleanupOldJobs_partition (daysOld : option Z) (now : Z)
    (coll : Collection) :
  let days := match daysOld with Some d => d | None => 90%Z end in
  let cutoff := (now - days * dayMs)%Z in
  let deleted := fst (cleanupOldJobs daysOld now coll) in
  let rest := snd (cleanupOldJobs daysOld now coll) in
  deleted + length rest = length coll /\
  (validTime cutoff = true ->
   rest = filter (fun doc => Z.leb cutoff (updatedAt doc)) coll /\
   forall doc, In doc rest <-> In doc coll /\ (cutoff <= updatedAt doc)%Z) /\
  (validTime cutoff = false -> deleted = 0 /\ rest = coll) /\
  cleanupOldJobs daysOld now rest = (0, rest) /\
  (uniqueKeys coll -> uniqueKeys rest).
Proof.
  cbv zeta. unfold cleanupOldJobs.
  set (cutoff := (now - match daysOld with Some d => d | None => 90%Z end * dayMs)%Z).
  assert (Hsame : forall l : Collection,
             filter (fun doc => negb (Z.ltb (updatedAt doc) cutoff)) l =
             filter (fun doc => Z.leb cutoff (updatedAt doc)) l).
  { intros l. apply filter_ext. intros doc. rewrite Z.leb_antisym. reflexivity. }
  destruct (validTime cutoff) eqn:Hvalid; cbn [fst snd].
  - split; [apply filter_length|]. split.
    + intros _. split; [apply Hsame|].
      intros doc. rewrite Hsame, filter_In, Z.leb_le. reflexivity.
    + split; [discriminate|]. split.
      * rewrite filter_none, filter_all; [reflexivity| |].
        -- intros doc Hd. apply filter_In in Hd. apply Hd.
        -- intros doc Hd. apply filter_In in Hd. destruct Hd as [_ Hd].
           now apply negb_true_iff in Hd.
      * apply uniqueKeys_filter.
  - split; [reflexivity|]. split; [discriminate|]. split; [now split|].
    split; [reflexivity|]. auto.
Qed.

(** X22. A job written within the retention window survives the cleanup: if
    [processJob] succeeded at time [t], then [cleanupOldJobs] run at a time
    whose cutoff is not after [t] keeps the reported job, in the collection
    that call left. *)
Theorem processed_job_survives_cleanup (t now : Z) (daysOld : option Z)
    (c : JobData.t) (coll : Collection) :
  let days := match daysOld with Some d => d | None => 90%Z end in
  success (fst (processJob t c coll)) = true ->
  (now - days * dayMs <= t)%Z ->
  exists doc,
    job (fst (processJob t c coll)) = Some doc /\
    updatedAt doc = t /\
    In doc (snd (cleanupOldJobs daysOld now (snd (processJob t c coll)))).
Proof.
  cbv zeta. intros Hok Hwindow.
  assert (Hdoc : exists i doc,
             job (fst (processJob t c coll)) = Some doc /\
             nth_error (snd (processJob t c coll)) i = Some doc /\
             updatedAt doc = t).
  { unfold processJob in *. destruct (missingRequired c); [discriminate|].
    destruct (findOne _ _ coll) as [[i loaded]|] eqn:Hfind; unfold savePhase in *.
    - unfold saveExisting in *.
      destruct (validate (assign loaded c t)); [|discriminate].
      destruct (findOne_Some _ _ _ _ _ Hfind) as [Hnth _]. rewrite Hnth in *.
      rewrite applyChanges_unchanged in *.
      destruct (violated (Some i) (assign loaded c t) coll); [discriminate|].
      exists i, (assign loaded c t). cbn. split; [reflexivity|].
      split; [|reflexivity]. apply nth_error_setAt_eq.
      now apply nth_error_in_range with (x := loaded).
    - unfold saveNew in *.
      destruct (validate (newJob c t)); [|discriminate].
      destruct (violated None (newJob c t) coll); [discriminate|].
      exists (length coll), (newJob c t). cbn. split; [reflexivity|].
      split; [|reflexivity]. apply PipelineFacts.nth_error_last. }
  destruct Hdoc as (i & doc & Hjob & Hnth & Hupd).
  exists doc. split; [exact Hjob|]. split; [exact Hupd|].
  apply nth_error_In in Hnth.
  unfold cleanupOldJobs. destruct (validTime _); cbn [snd]; [|exact Hnth].
  apply filter_In. split; [exact Hnth|].
  apply negb_true_iff, Z.ltb_ge. lia.
Qed.

Lemma processed_job_survives_cleanup_witness :
  exists doc,
    job (fst (processJob 1700000000000 Samples.posting [])) = Some doc /\
    updatedAt doc = 1700000000000%Z /\
    In doc (snd (cleanupOldJobs None 1700086400000
                   (snd (processJob 1700000000000 Samples.posting [])))).
Proof.
  apply (processed_job_survives_cleanup 1700000000000 1700086400000 None
           Samples.posting []).
  - reflexivity.
  - vm_compute. discriminate.
Defined.

(** X23. The counts of [getJobStats] are consistent: the recent jobs, the
    distinct companies and the distinct categories are each at most the total
    number of jobs, and with at least one job stored there is at least one
    company and one category. *)
Theorem getJobStats_bounds (now : Z) (coll : Collection) (stats : JobStats) :
  getJobStats now coll = Some stats ->
  totalJobs stats = length coll /\
  recentJobs stats <= totalJobs stats /\
  companiesCount stats <= totalJobs stats /\
  categoriesCount stats <= totalJobs stats /\
  (0 < totalJobs stats -> 0 < companiesCount stats /\ 0 < categoriesCount stats).
Proof.
  unfold getJobStats. destruct (validTime _); [|discriminate].
  intros [= <-]. cbn [totalJobs recentJobs companiesCount categoriesCount].
  assert (Hd : forall values : list string,
             length (distinct values) <= length values /\
             (0 < length values -> 0 < length (distinct values))).
  { intros values. unfold distinct. split.
    - apply NoDup_incl_length; [apply NoDup_nodup|].
      intros x Hx. now apply nodup_In in Hx.
    - destruct values as [|v rest]; [cbn; lia|]. intros _.
      assert (Hin : In v (nodup string_dec (v :: rest)))
        by (apply nodup_In; now left).
      destruct (nodup string_dec (v :: rest)); [destruct Hin|cbn; lia]. }
  split; [reflexivity|]. split.
  { apply filter_length_le. }
  destruct (Hd (map company coll)) as [H1 H2], (Hd (map category coll)) as [H3 H4].
  rewrite length_map in *. repeat split; auto.
Qed.

Lemma getJobStats_bounds_witness :
  exists stats,
    getJobStats 1700000000000 Samples.twoJobs = Some stats /\
    totalJobs stats = 2 /\ companiesCount stats <= 2 /\ recentJobs stats <= 2.
Proof.
  eexists. split; [reflexivity|].
  destruct (getJobStats_bounds 1700000000000 Samples.twoJobs _ eq_refl)
    as (H1 & H2 & H3 & _).
  split; [exact H1|]. split; [exact H3|exact H2].
Defined.

End MaintenanceFacts.

(* ===================================================================== *)
(** * Properties of the queries on import logs *)
(* ===================================================================== *)

Module LogQueryFacts.
Import Logger LogQueries ModelFacts.

Lemma startsWith_refl (s : string) : startsWith s s = true.
Proof. induction s as [|c r IH]; cbn; [reflexivity|]. now rewrite Ascii.eqb_refl. Qed.

Lemma includes_suffix (needle a : string) : includes needle (a ++ needle) = true.
Proof.
  induction a as [|c r IH].
  - cbn [append]. destruct needle; cbn; [reflexivity|].
    now rewrite Ascii.eqb_refl, startsWith_refl.
  - cbn [append includes]. rewrite IH. apply orb_true_r.
Qed.

Lemma not_found_message (idText : string) :
  includes "not found" ("Import log " ++ idText ++ " not found") = true.
Proof.
  replace ("Import log " ++ idText ++ " not found")
    with (("Import log " ++ idText ++ " ") ++ "not found").
  - apply includes_suffix.
  - cbn. f_equal. f_equal. f_equal. f_equal. f_equal. f_equal. f_equal.
    f_equal. f_equal. f_equal. f_equal.
    induction idText as [|c r IH]; cbn; congruence.
Qed.

(** X24. What the import controller answers for the text of an id. For a
    text that is an id: 200 and the log when a log has that id, and 404 when
    none has, the test [error.message.includes('not found')] matching the
    message [getImportLogById] throws whatever the text. For a text that is
    not an id [findById] rejects with its cast error, no lookup is made, and
    the answer is 500 unless the message of that error happens to include
    'not found'; it is never 200. A log that [createImportLog] stored is
    found under its id at once. *)
Theorem answerImportLogById_codes (ids : ObjectIds) (id : string) (logs : Logs) :
  (forall position importLog,
     cast ids id = Some position ->
     nth_error logs position = Some importLog ->
     answerImportLogById ids id logs = (200, Some importLog)) /\
  (forall position,
     cast ids id = Some position ->
     nth_error logs position = None ->
     getImportLogById ids id logs =
       inl ("Import log " ++ id ++ " not found") /\
     answerImportLogById ids id logs = (404, None)) /\
  (cast ids id = None ->
   getImportLogById ids id logs = inl (castError ids id) /\
   answerImportLogById ids id logs =
     (if includes "not found" (castError ids id) then 404 else 500, None) /\
   fst (answerImportLogById ids id logs) <> 200) /\
  (forall fileName now position logs',
     createImportLog fileName now logs = inr (position, logs') ->
     cast ids id = Some position ->
     exists importLog,
       answerImportLogById ids id logs' = (200, Some importLog) /\
       Logger.fileName importLog = fileName /\
       status importLog = "in-progress").
Proof.
  unfold answerImportLogById, getImportLogById. split; [|split; [|split]].
  - intros position importLog -> ->. reflexivity.
  - intros position -> ->. split; [reflexivity|]. now rewrite not_found_message.
  - intros ->. split; [reflexivity|]. split; [reflexivity|].
    destruct (includes "not found" (castError ids id)); cbn; discriminate.
  - intros fileName now position logs' Hcreated ->.
    unfold createImportLog in Hcreated.
    destruct (String.eqb fileName ""); [discriminate|].
    injection Hcreated as <- <-.
    rewrite PipelineFacts.nth_error_last. eexists. split; [reflexivity|].
    split; reflexivity.
Qed.

Lemma answerImportLogById_codes_witness :
  answerImportLogById Scenarios.oneId "65f0c0ffee65f0c0ffee0000" [Samples.run "failed"] =
    (200, Some (Samples.run "failed")) /\
  answerImportLogById Scenarios.oneId "65f0c0ffee65f0c0ffee0000" [] = (404, None) /\
  answerImportLogById Scenarios.oneId "abc" [Samples.run "failed"] = (500, None).
Proof.
  destruct (answerImportLogById_codes Scenarios.oneId "65f0c0ffee65f0c0ffee0000"
              [Samples.run "failed"]) as (Hknown & _).
  destruct (answerImportLogById_codes Scenarios.oneId "65f0c0ffee65f0c0ffee0000" [])
    as (_ & Hunknown & _).
  destruct (answerImportLogById_codes Scenarios.oneId "abc" [Samples.run "failed"])
    as (_ & _ & Hcast & _).
  split; [|split].
  - exact (Hknown 0 _ eq_refl eq_refl).
  - exact (proj2 (Hunknown 0 eq_refl eq_refl)).
  - exact (proj1 (proj2 (Hcast eq_refl))).
Defined.

Lemma setAt_setAt {A : Type} (i : nat) (x y : A) (l : list A) :
  Model.setAt i y (Model.setAt i x l) = Model.setAt i y l.
Proof.
  revert i. induction l as [|a r IH]; intros [|i]; cbn; try reflexivity.
  now rewrite IH.
Qed.

(** X25. [updateImportLog] replaces, it does not accumulate: the log keeps
    its [fileName] and [timestamp] and every other field is taken from the
    [stats] of the call alone, so of two updates of the same log only the
    last one shows, whatever the first recorded; no other log is touched; and
    an id without a log is refused with [Import log <id> not found]. *)
Theorem updateImportLog_last_wins (idText : string) (logId : nat)
    (first second : StatsArg) (logs : Logs) :
  (forall logs1,
     updateImportLog idText logId first logs = inr logs1 ->
     updateImportLog idText logId second logs1 =
       updateImportLog idText logId second logs /\
     length logs1 = length logs /\
     (forall j, j <> logId -> nth_error logs1 j = nth_error logs j) /\
     exists before after,
       nth_error logs logId = Some before /\
       nth_error logs1 logId = Some after /\
       fileName after = fileName before /\
       timestamp after = timestamp before /\
       status after = orString (s_status first) "completed") /\
  (nth_error logs logId = None ->
   updateImportLog idText logId first logs =
     inl ("Import log " ++ idText ++ " not found")).
Proof.
  unfold updateImportLog. split.
  - destruct (nth_error logs logId) as [before|] eqn:Hnth; [|discriminate].
    intros logs1 [= <-].
    pose proof (nth_error_in_range _ _ _ Hnth) as Hi.
    rewrite nth_error_setAt_eq by exact Hi. cbn [fileName timestamp].
    rewrite setAt_setAt. split; [reflexivity|].
    split; [apply setAt_length|]. split.
    + intros j Hj. apply nth_error_setAt_ne. congruence.
    + eexists; eexists. split; [reflexivity|]. split; [reflexivity|].
      repeat split; reflexivity.
  - intros ->. reflexivity.
Qed.

Lemma newest_spec (logs : Logs) :
  match newest logs with
  | None => logs = []
  | Some l => In l logs /\
              forall l', In l' logs -> (timestamp l' <= timestamp l)%Z
  end.
Proof.
  induction logs as [|x rest IH]; [reflexivity|].
  cbn [newest]. destruct (newest rest) as [m|].
  - destruct IH as [Hin Hmax].
    destruct (Z.ltb_spec (timestamp x) (timestamp m)).
    + split; [now right|]. intros l' [<-|Hl']; [lia|now apply Hmax].
    + split; [now left|]. intros l' [<-|Hl']; [lia|].
      specialize (Hmax l' Hl'). lia.
  - subst rest. split; [now left|]. intros l' [<-|[]]. lia.
Qed.

(** X26. The numbers of [getImportStats] fit together: [totalImports] is the
    number of logs and [recentImports] is at most that; [lastImport] is
    [null] exactly when there is no log, and otherwise is a log with the
    greatest timestamp; when a run of the last 24 hours is counted,
    [lastImport] is one of the last 24 hours; and [successRate] is the
    number 0 exactly when there is no log. *)
Theorem getImportStats_consistent (now : Z) (logs : Logs) (stats : ImportStats) :
  getImportStats now logs = Some stats ->
  totalImports stats = length logs /\
  recentImports stats <= totalImports stats /\
  (lastImport stats = None <-> totalImports stats = 0) /\
  (forall l, lastImport stats = Some l ->
     In l logs /\ forall l', In l' logs -> (timestamp l' <= timestamp l)%Z) /\
  (0 < recentImports stats ->
   exists l, lastImport stats = Some l /\ (now - dayMs <= timestamp l)%Z) /\
  (successRate stats = RateNumber 0 <-> totalImports stats = 0).
Proof.
  unfold getImportStats. destruct (validTime _); [|discriminate].
  intros [= <-]. cbn [totalImports recentImports lastImport successRate].
  pose proof (newest_spec logs) as Hnew.
  split; [reflexivity|]. split; [apply filter_length_le|]. split; [|split; [|split]].
  - destruct (newest logs) as [l|].
    + split; [discriminate|]. intros H0. destruct logs; [now destruct Hnew|discriminate].
    + subst logs. split; reflexivity.
  - intros l Hl. rewrite Hl in Hnew. exact Hnew.
  - unfold countSince. intros Hpos.
    destruct (filter _ logs) as [|r rs] eqn:Hf; [cbn in Hpos; lia|].
    assert (Hr : In r (filter (fun l => Z.leb (now - dayMs) (timestamp l)) logs))
      by (rewrite Hf; now left).
    apply filter_In in Hr. destruct Hr as [Hin Hrecent]. apply Z.leb_le in Hrecent.
    destruct (newest logs) as [l|]; [|subst logs; destruct Hin].
    exists l. split; [reflexivity|]. destruct Hnew as [_ Hmax].
    specialize (Hmax r Hin). lia.
  - unfold calculateSuccessRate, Logger.successRate.
    destruct logs as [|x rest]; cbn [length Nat.ltb Nat.leb].
    + split; reflexivity.
    + split; discriminate.
Qed.

Lemma getImportStats_consistent_witness :
  exists stats,
    getImportStats 1700000000000 Samples.fourRuns = Some stats /\
    totalImports stats = 4 /\ recentImports stats <= 4.
Proof.
  eexists. split; [reflexivity|].
  destruct (getImportStats_consistent 1700000000000 Samples.fourRuns _ eq_refl)
    as (H1 & H2 & _).
  split; [exact H1|exact H2].
Defined.

(** X27. [cleanupOldLogs] deletes exactly the logs older than the cutoff,
    [daysOld] days (30 when not given) before now, and returns their number;
    with a retention of one day or more it never changes the count of the
    runs of the last 24 hours that [getImportStats] reports at that time. *)
Theorem cleanupOldLogs_keeps_recent (daysOld : option Z) (now : Z) (logs : Logs) :
  let days := match daysOld with Some d => d | None => 30%Z end in
  let cutoff := (now - days * dayMs)%Z in
  let deleted := fst (cleanupOldLogs daysOld now logs) in
  let rest := snd (cleanupOldLogs daysOld now logs) in
  deleted + length rest = length logs /\
  (validTime cutoff = true ->
   forall l, In l rest <-> In l logs /\ (cutoff <= timestamp l)%Z) /\
  (validTime cutoff = false -> deleted = 0 /\ rest = logs) /\
  ((1 <= days)%Z ->
   countSince (now - dayMs) rest = countSince (now - dayMs) logs).
Proof.
  cbv zeta. unfold cleanupOldLogs.
  set (cutoff := (now - match daysOld with Some d => d | None => 30%Z end * dayMs)%Z).
  destruct (validTime cutoff) eqn:Hvalid; cbn [fst snd].
  - split; [apply filter_length|]. split; [|split; [discriminate|]].
    + intros _ l. rewrite filter_In, negb_true_iff, Z.ltb_ge. reflexivity.
    + intros Hdays. unfold countSince. f_equal.
      induction logs as [|x rest IH]; [reflexivity|].
      cbn [filter].
      destruct (Z.ltb_spec (timestamp x) cutoff) as [Hold|Hkeep]; cbn [negb filter].
      * destruct (Z.leb_spec (now - dayMs) (timestamp x)) as [Hrecent|_];
          [|exact IH].
        exfalso. unfold cutoff, dayMs in *. nia.
      * destruct (Z.leb (now - dayMs) (timestamp x)); [f_equal|]; exact IH.
  - split; [reflexivity|]. split; [discriminate|]. split; [now split|]. reflexivity.
Qed.

End LogQueryFacts.

(* ===================================================================== *)
(** * Properties of fetching from several sources *)
(* ===================================================================== *)

Module FetchAllFacts.
Import Pipeline.

Section Sources.
Variable env : Env.
Variable now : Z.

Lemma collect_app (a b : list string) :
  collect env now (a ++ b) =
  ((fst (collect env now a) ++ fst (collect env now b))%list,
   (snd (collect env now a) ++ snd (collect env now b))%list).
Proof.
  induction a as [|url rest IH].
  - cbn. now destruct (collect env now b).
  - cbn [app collect]. rewrite IH.
    destruct (collect env now rest) as [jobs errors]. cbn [fst snd].
    destruct (feed env url) as [message|data]; [reflexivity|].
    destruct (Js.truthyVal data); [|reflexivity].
    now rewrite app_assoc.
Qed.

Lemma collect_errors_length (urls : list string) :
  length (snd (collect env now urls)) <= length urls.
Proof.
  induction urls as [|u rest IH]; [cbn; lia|].
  cbn [collect]. destruct (collect env now rest) as [j e]. cbn [snd] in IH.
  destruct (feed env u) as [m|d]; [cbn; lia|].
  destruct (Js.truthyVal d); cbn; lia.
Qed.

(** X28. [fetchFromMultipleURLs] treats the sources independently and in
    order: what it collects from a list of URLs is what it collects from any
    first part followed by what it collects from the rest, so a failing feed
    changes nothing for the others; a URL whose fetch fails contributes one
    error carrying its message and no job, a URL that delivers a document
    contributes the jobs [extractJobs] finds in it and no error; and there
    are never more errors than URLs. *)
Theorem fetch_sources_independent (before after : list string) (url : string) :
  let all := collect env now (before ++ url :: after) in
  let left := collect env now before in
  let right := collect env now after in
  (forall message,
     feed env url = inl message ->
     fst all = (fst left ++ fst right)%list /\
     snd all = (snd left ++ {| fe_url := url; fe_error := Some message |}
                              :: snd right)%list) /\
  (forall data,
     feed env url = inr data -> Js.truthyVal data = true ->
     fst all = (fst left ++
                Fetcher.extractJobs (parseDate env) (timeOfNumber env) now data url
                ++ fst right)%list /\
     snd all = (snd left ++ snd right)%list) /\
  length (snd all) <= length (before ++ url :: after).
Proof.
  cbv zeta. split; [|split]; [| |apply collect_errors_length].
  - intros message Hfeed. rewrite collect_app. cbn [fst snd collect].
    rewrite Hfeed. destruct (collect env now after). split; reflexivity.
  - intros data Hfeed Htruthy. rewrite collect_app. cbn [fst snd collect].
    rewrite Hfeed, Htruthy. destruct (collect env now after). split; reflexivity.
Qed.

End Sources.

Lemma fetch_sources_independent_witness :
  snd (collect Scenarios.offline 0
         ["https://a.example/feed"; "https://b.example/feed"]) =
  [ {| fe_url := "https://a.example/feed"; fe_error := Some "connect ETIMEDOUT" |};
    {| fe_url := "https://b.example/feed"; fe_error := Some "connect ETIMEDOUT" |} ].
Proof.
  exact (proj2 (proj1 (fetch_sources_independent Scenarios.offline 0
                         ["https://a.example/feed"] [] "https://b.example/feed")
                      "connect ETIMEDOUT" eq_refl)).
Defined.

End FetchAllFacts.

(* ===================================================================== *)
(** * The ceiling of a quotient of counts, in doubles *)
(* ===================================================================== *)

Module CeilFacts.
Import Logger Pages Double FloatFacts.
#[local] Open Scope Z_scope.

(** The double of a count below [2^31]: its significand is the count shifted
    to 53 bits. *)
Lemma number_repr (n : nat) :
  0 < Z.of_nat n < 2 ^ 31 ->
  exists p M,
    Z.of_nat n = Zpos p /\
    Prim2SF (number n) = S754_finite false M (Zpos (digits2_pos p) - 53) /\
    Zpos (digits2_pos M) = 53 /\
    Zpos M = Zpos p * 2 ^ (53 - Zpos (digits2_pos p)) /\
    1 <= Zpos (digits2_pos p) <= 31.
Proof.
  intros Hn. unfold number.
  rewrite of_uint63_spec, Uint63.of_Z_spec.
  rewrite Z.mod_small
    by (change Uint63.wB with 9223372036854775808;
        change (2 ^ 31) with 2147483648 in Hn; lia).
  destruct (Z.of_nat n) as [|p|p]; try lia.
  assert (Hd : 1 <= Zpos (digits2_pos p) <= 31).
  { apply (digits_range p 0 31); [lia|lia|]. change (2 ^ 0) with 1. lia. }
  destruct (binary_normalize_exact p ltac:(lia)) as (M & HM & HdM & HvM).
  exists p, M. repeat split; try assumption; lia.
Qed.

(** An exact 54-bit even integer rounds to its half, one exponent up. *)
Lemma round_exact_even (p : positive) (e : Z) :
  Zpos (digits2_pos p) = 53 -> -1021 <= 54 + e <= 1000 ->
  binary_round_aux prec emax false (Zpos p~0) e loc_Exact =
  S754_finite false p (e + 1).
Proof.
  intros Hd He. unfold binary_round_aux, shr_fexp.
  cbn [Zdigits2 shr_record_of_loc digits2_pos].
  rewrite Pos2Z.inj_succ, Hd. change (Z.succ 53) with 54.
  rewrite fexp_normal by lia.
  replace (54 + e - 53 - e) with 1 by lia.
  cbn [shr SpecFloat.iter_pos shr_1 shr_m shr_r shr_s loc_of_shr_record
       round_nearest_even Zdigits2 shr_record_of_loc orb fst snd].
  rewrite Hd, fexp_normal by lia.
  replace (53 + (e + 1) - 53 - (e + 1)) with 0 by lia. cbn [shr shr_m].
  assert (Hle : (e + 1 <=? emax - prec) = true).
  { apply Z.leb_le. unfold emax, prec. lia. }
  now rewrite Hle.
Qed.

(** A division whose integer quotient leaves no remainder rounds that
    quotient, with nothing lost. *)
Lemma SFdiv_exact (m1 m2 q : positive) (e1 e2 : Z) :
  Zpos (digits2_pos m1) = 53 -> Zpos (digits2_pos m2) = 53 ->
  -60 <= e1 <= 0 -> -60 <= e2 <= 0 ->
  Zpos m2 * Zpos q = Zpos m1 * 2 ^ 53 ->
  SFdiv prec emax (S754_finite false m1 e1) (S754_finite false m2 e2) =
  binary_round_aux prec emax false (Zpos q) (e1 - e2 - 53) loc_Exact.
Proof.
  intros H1 H2 He1 He2 Hq.
  cbn [SFdiv xorb]. unfold SFdiv_core_binary. cbn [Zdigits2].
  rewrite H1, H2. rewrite fexp_normal by lia.
  replace (Z.min (53 + e1 - (53 + e2) - 53) (e1 - e2)) with (e1 - e2 - 53) by lia.
  replace (e1 - e2 - (e1 - e2 - 53)) with 53 by lia.
  rewrite Z.shiftl_mul_pow2 by lia.
  pose proof (Z_div_mod (Zpos m1 * 2 ^ 53) (Zpos m2) ltac:(lia)) as Hdiv.
  destruct (Z.div_eucl (Zpos m1 * 2 ^ 53) (Zpos m2)) as [q' r].
  destruct Hdiv as [Hq' Hr].
  assert (Hsame : q' = Zpos q) by nia.
  assert (Hr0 : r = 0) by nia.
  subst q' r.
  replace (new_location (Zpos m2) 0) with loc_Exact; [reflexivity|].
  unfold new_location, new_location_even, new_location_odd.
  destruct (Z.even (Zpos m2)); reflexivity.
Qed.

(** [ceil] of a positive double with a negative exponent is the integer [K]
    whose unit interval [(K - 1, K]] holds it. *)
Lemma ceil_bracket (x : float) (M : positive) (E K : Z) :
  Prim2SF x = S754_finite false M E -> E < 0 ->
  (K - 1) * 2 ^ (- E) < Zpos M <= K * 2 ^ (- E) ->
  ceil x = PrimFloat.of_uint63 (Uint63.of_Z K).
Proof.
  intros Hx HE HM. unfold ceil. rewrite Hx.
  destruct E as [|k|k]; try lia.
  change (- Zneg k) with (Zpos k) in HM.
  pose proof (pow2_pos (Zpos k) ltac:(lia)) as HW.
  pose proof (Z_div_mod_eq_full (Zpos M) (2 ^ Zpos k)) as Hsplit.
  pose proof (Z.mod_pos_bound (Zpos M) (2 ^ Zpos k) HW) as Hmod.
  destruct (Z.eqb_spec (Zpos M mod 2 ^ Zpos k) 0) as [Hz|Hnz].
  - do 2 f_equal. nia.
  - do 2 f_equal. nia.
Qed.

(** [0 / b] is [+0]. *)
Lemma quotient_zero (b : nat) :
  0 < Z.of_nat b < 2 ^ 31 -> (number 0 / number b)%float = number 0.
Proof.
  intros Hb. apply FloatAxioms.Prim2SF_inj.
  rewrite FloatAxioms.div_spec, number_zero.
  destruct (number_positive b Hb) as (M & e & -> & _). reflexivity.
Qed.

Lemma ceil_zero : ceil (number 0) = number 0.
Proof. reflexivity. Qed.

(** When [b] divides [a], the quotient of the doubles is the double of
    [a / b]. *)
Lemma ceil_quotient_exact (a b : nat) (c : Z) :
  0 < Z.of_nat a < 2 ^ 31 -> 0 < Z.of_nat b < 2 ^ 31 ->
  Z.of_nat a = Z.of_nat b * c ->
  ceil (number a / number b) = PrimFloat.of_uint63 (Uint63.of_Z c).
Proof.
  intros Ha Hb Hc.
  destruct (number_repr a Ha) as (pa & m1 & Hpa & Hm1 & Hd1 & Hv1 & Hda).
  destruct (number_repr b Hb) as (pb & m2 & Hpb & Hm2 & Hd2 & Hv2 & Hdb).
  set (da := Zpos (digits2_pos pa)) in *. set (db := Zpos (digits2_pos pb)) in *.
  rewrite Hpa, Hpb in Hc.
  destruct c as [|pc|pc]; try lia.
  set (s := 53 - da + db).
  assert (Hs : 23 <= s <= 83) by (unfold s; lia).
  assert (Hhalf : 2 ^ s = 2 * 2 ^ (s - 1)).
  { replace s with (1 + (s - 1)) at 1 by lia. now rewrite Z.pow_add_r by lia. }
  pose proof (pow2_pos (s - 1) ltac:(lia)) as HWs.
  destruct (Zpos pc * 2 ^ s) as [|q|q] eqn:Hq; try lia.
  assert (Hexact : Zpos m2 * Zpos q = Zpos m1 * 2 ^ 53).
  { assert (Hpow : 2 ^ (53 - db) * 2 ^ s = 2 ^ (53 - da) * 2 ^ 53).
    { rewrite <- !Z.pow_add_r by lia. f_equal. unfold s. lia. }
    rewrite Hv1, Hv2, <- Hq, Hc.
    transitivity (Zpos pb * Zpos pc * (2 ^ (53 - db) * 2 ^ s)); [ring|].
    rewrite Hpow. ring. }
  pose proof (digits_bounds m1) as B1. rewrite Hd1 in B1.
  pose proof (digits_bounds m2) as B2. rewrite Hd2 in B2.
  change (2 ^ (53 - 1)) with 4503599627370496 in B1, B2.
  change (2 ^ 53) with 9007199254740992 in B1, B2, Hexact.
  assert (Hdq : 53 <= Zpos (digits2_pos q) <= 54).
  { apply (digits_range q 52 54); [lia|lia|].
    change (2 ^ 52) with 4503599627370496.
    change (2 ^ 54) with 18014398509481984. nia. }
  assert (Hdiv : Prim2SF (number a / number b) =
                 binary_round_aux prec emax false (Zpos q) (da - db - 53) loc_Exact).
  { rewrite FloatAxioms.div_spec, Hm1, Hm2. unfold SF64div.
    rewrite (SFdiv_exact m1 m2 q) by (assumption || lia).
    f_equal. lia. }
  destruct (Z.eq_dec (Zpos (digits2_pos q)) 53) as [H53|H54].
  - rewrite round_exact in Hdiv by (assumption || lia).
    apply (ceil_bracket _ _ _ _ Hdiv); [lia|].
    replace (- (da - db - 53)) with s by (unfold s; lia). lia.
  - destruct q as [p|p|]; [lia| |cbn in Hdq; lia].
    assert (Hdp : Zpos (digits2_pos p) = 53).
    { cbn [digits2_pos] in Hdq, H54. lia. }
    rewrite round_exact_even in Hdiv by (assumption || lia).
    apply (ceil_bracket _ _ _ _ Hdiv); [lia|].
    replace (- (da - db - 53 + 1)) with (s - 1) by (unfold s; lia). lia.
Qed.

(** Otherwise the rounded quotient stays strictly between the two whole
    numbers around [a / b]: the error is below [1 / b]. *)
Lemma ceil_quotient_inexact (a b : nat) (c r : Z) :
  0 < Z.of_nat a < 2 ^ 31 -> 0 < Z.of_nat b < 2 ^ 31 ->
  Z.of_nat a = Z.of_nat b * c + r -> 0 < r < Z.of_nat b ->
  ceil (number a / number b) = PrimFloat.of_uint63 (Uint63.of_Z (c + 1)).
Proof.
  intros Ha Hb Hc Hr.
  destruct (number_positive a Ha) as (m1 & e1 & Hm1 & Hd1 & He1 & Hv1).
  destruct (number_positive b Hb) as (m2 & e2 & Hm2 & Hd2 & He2 & Hv2).
  destruct (div_error m1 m2 e1 e2 Hd1 Hd2 ltac:(lia) ltac:(lia))
    as (M & E & Hdiv & HdM & HE & Herr).
  rewrite Hv1, Hv2 in Herr. apply Rabs_bound in Herr.
  assert (Hres : Prim2SF (number a / number b) = S754_finite false M E).
  { rewrite FloatAxioms.div_spec, Hm1, Hm2. exact Hdiv. }
  apply (ceil_bracket _ _ _ _ Hres); [lia|].
  replace (c + 1 - 1) with c by lia.
  set (A := IZR (Z.of_nat a)) in *. set (B := IZR (Z.of_nat b)) in *.
  set (v := value M E) in *.
  assert (HB : (0 < B)%R) by (apply IZR_lt; lia).
  assert (HA : (0 < A < 2147483648)%R).
  { split; apply IZR_lt; [lia|]. change (2 ^ 31) with 2147483648 in Ha. lia. }
  assert (HAB : (A = B * IZR c + IZR r)%R).
  { unfold A, B. rewrite <- mult_IZR, <- plus_IZR. now f_equal. }
  assert (HR : (1 <= IZR r <= B - 1)%R).
  { split; [apply IZR_le; lia|]. unfold B. rewrite <- minus_IZR. apply IZR_le. lia. }
  set (x := (A / B)%R) in *.
  assert (Hx : (x * B = A)%R) by (unfold x; field; lra).
  assert (Hu : (A * ulp52 < 1)%R) by (unfold ulp52; lra).
  assert (Hlo : (IZR c * B < v * B)%R).
  { assert ((x - x * ulp52) * B <= v * B)%R by (apply Rmult_le_compat_r; lra).
    replace ((x - x * ulp52) * B)%R with (x * B - x * B * ulp52)%R in H by ring.
    rewrite Hx in H. lra. }
  assert (Hhi : (v * B < (IZR c + 1) * B)%R).
  { assert (v * B <= (x + x * ulp52) * B)%R by (apply Rmult_le_compat_r; lra).
    replace ((x + x * ulp52) * B)%R with (x * B + x * B * ulp52)%R in H by ring.
    rewrite Hx in H. lra. }
  apply Rmult_lt_reg_r in Hlo; [|exact HB].
  apply Rmult_lt_reg_r in Hhi; [|exact HB].
  set (W := IZR (2 ^ (- E))).
  assert (HW : (0 < W)%R) by (apply IZR_lt, pow2_pos; lia).
  assert (HvW : (v * W = IZR (Zpos M))%R).
  { unfold v, value, W. rewrite IZR_pow2 by lia.
    rewrite Rmult_assoc, <- powerRZ_2_add.
    replace (E + - E) with 0 by lia. simpl. ring. }
  split.
  - apply lt_IZR. rewrite mult_IZR. fold W. rewrite <- HvW.
    now apply Rmult_lt_compat_r.
  - apply Z.lt_le_incl, lt_IZR. rewrite mult_IZR, plus_IZR. fold W. rewrite <- HvW.
    now apply Rmult_lt_compat_r.
Qed.

(** [pagesFor] is the least number of pages that hold [total] logs. *)
Lemma pagesFor_spec (total limit : nat) :
  (1 <= limit)%nat ->
  (total <= pagesFor total limit * limit)%nat /\
  (forall n, total <= n * limit -> pagesFor total limit <= n)%nat.
Proof.
  intros Hl. unfold pagesFor.
  pose proof (Nat.div_mod_eq (total + limit - 1) limit) as Hq.
  pose proof (Nat.mod_upper_bound (total + limit - 1) limit ltac:(lia)) as Hm.
  split; [nia|].
  intros n Hn. apply Nat.lt_succ_r. apply Nat.Div0.div_lt_upper_bound. nia.
Qed.

(** [Math.ceil(a / b)] in doubles is the integer ceiling. *)
Lemma ceil_quotient (a b : nat) :
  Z.of_nat a < 2 ^ 31 -> 0 < Z.of_nat b < 2 ^ 31 ->
  ceil (number a / number b) = number (pagesFor a b).
Proof.
  intros Ha Hb. unfold pagesFor.
  destruct (Nat.eq_dec a 0) as [->|Hpos].
  { rewrite quotient_zero by exact Hb.
    replace ((0 + b - 1) / b)%nat with 0%nat; [reflexivity|].
    symmetry. apply Nat.div_small. lia. }
  pose proof (Z_div_mod_eq_full (Z.of_nat a) (Z.of_nat b)) as Hsplit.
  pose proof (Z.mod_pos_bound (Z.of_nat a) (Z.of_nat b) ltac:(lia)) as Hmod.
  unfold number at 3.
  rewrite Nat2Z.inj_div.
  replace (Z.of_nat (a + b - 1)) with (Z.of_nat a + Z.of_nat b - 1) by lia.
  set (c := Z.of_nat a / Z.of_nat b) in *.
  set (r := Z.of_nat a mod Z.of_nat b) in *.
  destruct (Z.eq_dec r 0) as [Hz|Hnz].
  - rewrite (ceil_quotient_exact a b c) by lia.
    do 2 f_equal.
    apply (Z.div_unique _ _ _ (Z.of_nat b - 1)); lia.
  - rewrite (ceil_quotient_inexact a b c r) by lia.
    do 2 f_equal.
    apply (Z.div_unique _ _ _ (r - 1)); lia.
Qed.

End CeilFacts.

(* ===================================================================== *)
(** * Properties of the pages of import logs *)
(* ===================================================================== *)

Module PageFacts.
Import Logger Pages CeilFacts.

Lemma insertNewest_perm (l : ImportLog) (sorted : Logs) :
  Permutation (insertNewest l sorted) (l :: sorted).
Proof.
  induction sorted as [|x rest IH]; [reflexivity|]. cbn.
  destruct (Z.leb (timestamp x) (timestamp l)); [reflexivity|].
  rewrite IH. apply perm_swap.
Qed.

Lemma newestFirst_perm (logs : Logs) : Permutation (newestFirst logs) logs.
Proof.
  induction logs as [|l rest IH]; [reflexivity|].
  cbn. rewrite insertNewest_perm. now constructor.
Qed.

Lemma insertNewest_sorted (l : ImportLog) (sorted : Logs) :
  StronglySorted (fun a b => (timestamp b <= timestamp a)%Z) sorted ->
  StronglySorted (fun a b => (timestamp b <= timestamp a)%Z) (insertNewest l sorted).
Proof.
  induction sorted as [|x rest IH]; intros H.
  - repeat constructor.
  - cbn. inversion H as [|? ? Hrest Hx]; subst.
    destruct (Z.leb_spec (timestamp x) (timestamp l)) as [Hle|Hgt].
    + constructor; [exact H|]. constructor; [exact Hle|].
      apply Forall_forall. intros y Hy.
      pose proof (proj1 (Forall_forall _ _) Hx y Hy). cbn in *. lia.
    + constructor; [now apply IH|].
      apply Forall_forall. intros y Hy.
      apply (Permutation_in _ (insertNewest_perm l rest)) in Hy.
      destruct Hy as [<-|Hy]; [lia|].
      exact (proj1 (Forall_forall _ _) Hx y Hy).
Qed.

Lemma newestFirst_sorted (logs : Logs) :
  StronglySorted (fun a b => (timestamp b <= timestamp a)%Z) (newestFirst logs).
Proof.
  induction logs as [|l rest IH]; [constructor|].
  cbn. now apply insertNewest_sorted.
Qed.

Lemma sorted_order (logs : Logs) :
  StronglySorted (fun a b => (timestamp b <= timestamp a)%Z) logs ->
  newestFirstOrder logs.
Proof.
  induction logs as [|x rest IH]; intros H i j a b Hij Ha Hb.
  - destruct i; discriminate.
  - inversion H as [|? ? Hrest Hx]; subst.
    destruct i as [|i], j as [|j]; cbn in Ha, Hb.
    + injection Ha as <-. injection Hb as <-. lia.
    + injection Ha as <-. apply nth_error_In in Hb.
      exact (proj1 (Forall_forall _ _) Hx b Hb).
    + lia.
    + apply (IH Hrest i j a b); [lia|assumption|assumption].
Qed.

Lemma order_window (logs : Logs) (skip limit : nat) :
  newestFirstOrder logs -> newestFirstOrder (firstn limit (skipn skip logs)).
Proof.
  intros H i j a b Hij Ha Hb.
  rewrite nth_error_firstn, nth_error_skipn in Ha, Hb.
  destruct (Nat.ltb i limit); [|discriminate].
  destruct (Nat.ltb j limit); [|discriminate].
  apply (H (skip + i) (skip + j) a b); [lia|assumption|assumption].
Qed.

Lemma window_In (logs : Logs) (skip limit : nat) (l : ImportLog) :
  In l (firstn limit (skipn skip logs)) -> In l logs.
Proof.
  intros H. apply In_nth_error in H. destruct H as (i & Hi).
  rewrite nth_error_firstn, nth_error_skipn in Hi.
  destruct (Nat.ltb i limit); [|discriminate]. now apply nth_error_In in Hi.
Qed.

(** X29. [getImportLogs] returns the page it is asked for: with [page] and
    [limit] at least 1 it returns the logs at positions
    [(page-1)*limit .. page*limit-1] of the collection sorted newest first,
    so at most [limit] logs, all of the collection and in newest-first order;
    a page past the end is empty; the first page holds every log when there
    are at most [limit]; [total] is the number of logs. Page 0 makes the
    query throw, and page 1 with limit 20 is what the defaults give. *)
Theorem getImportLogs_page (page limit : nat) (logs : Logs) :
  1 <= page -> 1 <= limit ->
  exists r,
    getImportLogs (Some page) (Some limit) logs = Some r /\
    shown r = firstn limit (skipn ((page - 1) * limit) (newestFirst logs)) /\
    Permutation (newestFirst logs) logs /\
    newestFirstOrder (newestFirst logs) /\
    length (shown r) <= limit /\
    (forall l, In l (shown r) -> In l logs) /\
    newestFirstOrder (shown r) /\
    (length logs <= (page - 1) * limit -> shown r = []) /\
    (page = 1 -> length logs <= limit -> Permutation (shown r) logs) /\
    total (pagination r) = length logs /\
    getImportLogs (Some 0) (Some limit) logs = None /\
    getImportLogs None None logs = getImportLogs (Some 1) (Some 20) logs.
Proof.
  intros Hpage Hlimit. unfold getImportLogs.
  destruct page as [|page]; [lia|]. destruct limit as [|limit]; [lia|].
  cbn [Nat.eqb andb]. eexists. split; [reflexivity|].
  cbn [shown pagination total].
  pose proof (newestFirst_perm logs) as Hperm.
  pose proof (sorted_order _ (newestFirst_sorted logs)) as Horder.
  split; [reflexivity|]. split; [exact Hperm|]. split; [exact Horder|].
  split; [apply firstn_le_length|]. split.
  { intros l Hl. apply window_In in Hl. exact (Permutation_in _ Hperm Hl). }
  split; [now apply order_window|]. split.
  { intros Hend. rewrite skipn_all2; [now rewrite firstn_nil|].
    now rewrite (Permutation_length Hperm). }
  split.
  { intros [= ->] Hall. cbn [Nat.sub Nat.mul skipn].
    rewrite firstn_all2; [exact Hperm|]. now rewrite (Permutation_length Hperm). }
  split; [reflexivity|]. split; reflexivity.
Qed.

Lemma getImportLogs_page_witness :
  exists r,
    getImportLogs (Some 2) (Some 3) Samples.fourRuns = Some r /\
    length (shown r) = 1.
Proof.
  destruct (getImportLogs_page 2 3 Samples.fourRuns ltac:(lia) ltac:(lia))
    as (r & Hr & Hshown & _).
  exists r. split; [exact Hr|]. rewrite Hshown. reflexivity.
Defined.

(** X30. The [totalPages] that [getImportLogs] reports is exact: for a limit
    of at least 1 and fewer than [2^31] logs, the double that
    [Math.ceil(total / limit)] computes is the whole number of pages needed,
    the least [P] with [total <= P * limit]; rounding in the division never
    moves it. The pages [1 .. P] are the ones that show logs: the page
    returned is empty exactly when [page] is above [P]. *)
Theorem getImportLogs_totalPages (page limit : nat) (logs : Logs) :
  1 <= page -> 1 <= limit ->
  (Z.of_nat limit < 2 ^ 31)%Z -> (Z.of_nat (length logs) < 2 ^ 31)%Z ->
  exists r,
    getImportLogs (Some page) (Some limit) logs = Some r /\
    totalPages (pagination r) = number (pagesFor (length logs) limit) /\
    length logs <= pagesFor (length logs) limit * limit /\
    (forall n, length logs <= n * limit -> pagesFor (length logs) limit <= n) /\
    (shown r = [] <-> pagesFor (length logs) limit < page).
Proof.
  intros Hpage Hlimit Hl Ht. unfold getImportLogs.
  destruct page as [|page]; [lia|]. destruct limit as [|limit]; [lia|].
  cbn [Nat.eqb andb]. eexists. split; [reflexivity|].
  cbn [shown pagination totalPages].
  destruct (pagesFor_spec (length logs) (S limit) Hlimit) as [Hcover Hleast].
  split; [apply ceil_quotient; lia|]. split; [exact Hcover|].
  split; [exact Hleast|].
  replace (S page - 1) with page by lia.
  pose proof (Permutation_length (newestFirst_perm logs)) as Hlen.
  split.
  - intros Hempty. apply (f_equal (@length _)) in Hempty.
    rewrite length_firstn, length_skipn, Hlen in Hempty. cbn [length] in Hempty.
    apply Nat.lt_succ_r, Hleast. lia.
  - intros HP. rewrite skipn_all2; [apply firstn_nil|].
    rewrite Hlen. apply Nat.lt_succ_r in HP. nia.
Qed.

Lemma getImportLogs_totalPages_witness :
  exists r,
    getImportLogs (Some 2) (Some 3) Samples.fourRuns = Some r /\
    totalPages (pagination r) = 2%float.
Proof.
  destruct (getImportLogs_totalPages 2 3 Samples.fourRuns
              ltac:(lia) ltac:(lia) ltac:(reflexivity) ltac:(reflexivity))
    as (r & Hr & Hpages & _).
  exists r. split; [exact Hr|]. rewrite Hpages. reflexivity.
Defined.

End PageFacts.
